(** * VectorFlow: pose-transition engine

    A shallow embedding of the VectorFlow sources (engine.js, player.js,
    index.js, utils.js) and the properties of its route resolution,
    duration precedence, step expansion, playback scheduling and
    transform handling. *)

From Stdlib Require Import Ascii String.
From stdpp Require Import gmap strings list fin_maps sorting.

Local Open Scope string_scope.
Local Open Scope list_scope.

(** ** JavaScript values *)

Module Js.

(** Decimal digits. *)
Inductive digit := d0 | d1 | d2 | d3 | d4 | d5 | d6 | d7 | d8 | d9.

#[global] Instance digit_eq_dec : EqDecision digit.
Proof. solve_decision. Defined.

Definition digit_val (d : digit) : nat :=
  match d with
  | d0 => 0 | d1 => 1 | d2 => 2 | d3 => 3 | d4 => 4
  | d5 => 5 | d6 => 6 | d7 => 7 | d8 => 8 | d9 => 9
  end.

Definition char_of_digit (d : digit) : ascii :=
  match d with
  | d0 => "0" | d1 => "1" | d2 => "2" | d3 => "3" | d4 => "4"
  | d5 => "5" | d6 => "6" | d7 => "7" | d8 => "8" | d9 => "9"
  end%char.

Definition digit_of_char (c : ascii) : option digit :=
  match c with
  | "0" => Some d0 | "1" => Some d1 | "2" => Some d2 | "3" => Some d3
  | "4" => Some d4 | "5" => Some d5 | "6" => Some d6 | "7" => Some d7
  | "8" => Some d8 | "9" => Some d9 | _ => None
  end%char.

(** A JavaScript number.  The finite ones are kept as the decimal numeral
    that [Number.prototype.toString] prints for them: a sign, the digits
    of the integer part and the digits of the fraction.  Every finite
    double has exactly one such shortest numeral and [parseFloat] reads it
    back to the same double, so on the numbers the program prints and
    re-reads the numeral identifies the number.  There is no negative
    zero: it prints as ["0"] and is strictly equal to zero. *)
Inductive number :=
| NaN
| PosInf
| NegInf
| Fin (neg : bool) (ip fp : list digit).

#[global] Instance number_eq_dec : EqDecision number.
Proof. solve_decision. Defined.

Fixpoint strip_leading (ds : list digit) : list digit :=
  match ds with
  | d0 :: ds' => strip_leading ds'
  | _ => ds
  end.

Definition strip_trailing (ds : list digit) : list digit :=
  rev (strip_leading (rev ds)).

Definition all_zero (ds : list digit) : bool :=
  forallb (fun d => bool_decide (d = d0)) ds.

(** The integer digits without leading zeros, a lone [0] for zero. *)
Definition norm_int (ds : list digit) : list digit :=
  match strip_leading ds with
  | [] => [d0]
  | ds' => ds'
  end.

(** The numeral of a number in normal form. *)
Definition norm (x : number) : number :=
  match x with
  | Fin neg ip fp =>
      Fin (neg && negb (all_zero ip && all_zero fp))
          (norm_int ip) (strip_trailing fp)
  | _ => x
  end.

Definition canonical (x : number) : bool :=
  bool_decide (norm x = x).

Definition is_finite (x : number) : bool :=
  match x with Fin _ _ _ => true | _ => false end.

(** [x > 0]. *)
Definition gt0 (x : number) : bool :=
  match x with
  | PosInf => true
  | Fin false ip fp => negb (all_zero ip && all_zero fp)
  | _ => false
  end.

(** [x <= 0], false on NaN like every comparison. *)
Definition le0 (x : number) : bool :=
  match x with
  | NegInf => true
  | Fin neg ip fp => neg || (all_zero ip && all_zero fp)
  | _ => false
  end.

(** [x === y] on numbers: NaN equals nothing. *)
Definition strict_eq (x y : number) : bool :=
  match x, y with
  | NaN, _ | _, NaN => false
  | _, _ => bool_decide (norm x = norm y)
  end.

Fixpoint nat_of_digits_acc (acc : nat) (ds : list digit) : nat :=
  match ds with
  | [] => acc
  | d :: ds' => nat_of_digits_acc (10 * acc + digit_val d)%nat ds'
  end.

Definition nat_of_digits (ds : list digit) : nat := nat_of_digits_acc 0 ds.

Definition zero : number := Fin false [d0] [].
Definition one : number := Fin false [d1] [].

(** Numbers used by the sources and the examples. *)
Definition n2 : number := Fin false [d2] [].
Definition n3 : number := Fin false [d3] [].
Definition n5 : number := Fin false [d5] [].
Definition n10 : number := Fin false [d1; d0] [].
Definition n20 : number := Fin false [d2; d0] [].
Definition n45 : number := Fin false [d4; d5] [].
Definition n50 : number := Fin false [d5; d0] [].
Definition n60 : number := Fin false [d6; d0] [].
Definition n70 : number := Fin false [d7; d0] [].
Definition n120 : number := Fin false [d1; d2; d0] [].
Definition n99999 : number := Fin false [d9; d9; d9; d9; d9] [].

(** The values the engine handles.  Arrays hold strings only: route paths
    are validated as arrays of strings when the configuration is loaded. *)
Inductive jsval :=
| JUndef
| JNull
| JBool (b : bool)
| JNum (x : number)
| JStr (s : string)
| JArr (xs : list string).

#[global] Instance jsval_eq_dec : EqDecision jsval.
Proof. solve_decision. Defined.

(** ToBoolean. *)
Definition truthy (v : jsval) : bool :=
  match v with
  | JUndef | JNull => false
  | JBool b => b
  | JNum NaN => false
  | JNum (Fin _ ip fp) => negb (all_zero ip && all_zero fp)
  | JNum _ => true
  | JStr s => negb (bool_decide (s = EmptyString))
  | JArr _ => true
  end.

(** [a ?? b]. *)
Definition nullish (a b : jsval) : jsval :=
  match a with
  | JUndef | JNull => b
  | _ => a
  end.

(** A value that is a string or [undefined]: state names as the expansion
    functions handle them ([path[path.length - 1]] of an empty path is
    [undefined]). *)
Definition jsname := option string.

(** The property key a name is coerced to in [obj[name]]. *)
Definition prop_key (n : jsname) : string :=
  match n with
  | Some s => s
  | None => "undefined"
  end.

(** Truthiness of a name: [undefined] and the empty string are falsy. *)
Definition name_truthy (n : jsname) : bool :=
  match n with
  | Some s => negb (bool_decide (s = EmptyString))
  | None => false
  end.

(** [a || b] on names. *)
Definition name_or (a b : jsname) : jsname :=
  if name_truthy a then a else b.

(** Synchronous code either returns or throws. *)
Inductive result (E A : Type) :=
| Ok (a : A)
| Throw (e : E).
Arguments Ok {E A} a.
Arguments Throw {E A} e.

Definition bind {E A B} (r : result E A) (k : A -> result E B) : result E B :=
  match r with
  | Ok a => k a
  | Throw e => Throw e
  end.

(** A [for ... of] loop whose body updates the loop state or throws. *)
Fixpoint for_of {E A S} (body : S -> A -> result E S) (s : S) (xs : list A)
  : result E S :=
  match xs with
  | [] => Ok s
  | x :: xs' => bind (body s x) (fun s' => for_of body s' xs')
  end.

End Js.

Import Js.

(** ** engine.js: route resolution, duration precedence, step expansion *)

(** A route block is an object: the key ["ms"] holds the duration override,
    every other key (a source state or ["*"]) a path. *)
Abbreviation routeTable := (gmap string (gmap string jsval)).

Record step := { state : jsname; ms : number }.

#[global] Instance step_eq_dec : EqDecision step.
Proof. solve_decision. Defined.

Record expansion := { steps : list step; finalState : jsname }.

(** [validStates && !validStates.has(name)]. *)
Definition unknown_state (validStates : option (gset string)) (n : jsname) : bool :=
  match validStates with
  | None => false
  | Some vs =>
      match n with
      | Some s => negb (bool_decide (s ∈ vs))
      | None => true
      end
  end.

(** [routes[key]?.ms]. *)
Definition route_ms (routes : routeTable) (key : string) : jsval :=
  match routes !! key with
  | None => JUndef
  | Some block => default JUndef (block !! "ms")
  end.

Module Engine.

Inductive error :=
| UnknownState (routeKey : string) (st : jsname).

#[global] Instance error_eq_dec : EqDecision error.
Proof. solve_decision. Defined.

Definition resolvePath (targetState : string) (currentState : jsname)
    (routes : routeTable) : list string :=
  match routes !! targetState with
  | None => [targetState]
  | Some block =>
      match block !! prop_key currentState with
      | Some (JArr p) => p
      | _ =>
          match block !! "*" with
          | Some (JArr p) => p
          | _ => [targetState]
          end
      end
  end.

Definition normalizePath (path : list string) (currentState : jsname)
  : list string :=
  match path with
  | s :: rest => if bool_decide (Some s = currentState) then rest else path
  | [] => path
  end.

(** [typeof v === 'number' && v > 0], with the number it holds of. *)
Definition is_positive_number (v : jsval) : option number :=
  match v with
  | JNum x => if gt0 x then Some x else None
  | _ => None
  end.

Definition resolveMs (actionMs routeMs jsonMs : jsval) : number :=
  match is_positive_number actionMs with
  | Some x => x
  | None =>
      match is_positive_number routeMs with
      | Some x => x
      | None =>
          match is_positive_number jsonMs with
          | Some x => x
          | None => n120
          end
      end
  end.

Section Expand.
Context (routes : routeTable) (actionMs jsonMs : jsval)
        (validStates : option (gset string)).

(** The loop state of both expansions: the [steps] array and [current]. *)
Definition acc : Type := list step * jsname.

(** Body of the inner loop of [expandSequence], over the path. *)
Definition sequence_visit (routeKey : string) (a : acc) (nextState : string)
  : result error acc :=
  if unknown_state validStates (Some nextState)
  then Throw (UnknownState routeKey (Some nextState))
  else
    let routeMs := nullish (route_ms routes routeKey) (route_ms routes nextState) in
    let ms := resolveMs actionMs routeMs jsonMs in
    Ok (a.1 ++ [{| state := Some nextState; ms := ms |}], Some nextState).

(** Body of the outer loop of [expandSequence], over [order]. *)
Definition sequence_entry (a : acc) (routeKey : string) : result error acc :=
  let path := normalizePath (resolvePath routeKey a.2 routes) a.2 in
  match path with
  | [] => Ok a
  | _ => for_of (sequence_visit routeKey) a path
  end.

Definition expandSequence (order : list string) (currentState : jsname)
  : result error expansion :=
  bind (for_of sequence_entry ([], currentState) order)
       (fun a => Ok {| steps := a.1; finalState := a.2 |}).

(** Body of the loop of [expandDirect]. *)
Definition direct_entry (a : acc) (routeKey : string) : result error acc :=
  let path := resolvePath routeKey a.2 routes in
  let targetState := last path in
  if unknown_state validStates targetState
  then Throw (UnknownState routeKey targetState)
  else if bool_decide (targetState = a.2) then Ok a
  else
    let routeMs :=
      nullish (route_ms routes routeKey) (route_ms routes (prop_key targetState)) in
    let ms := resolveMs actionMs routeMs jsonMs in
    Ok (a.1 ++ [{| state := targetState; ms := ms |}], targetState).

Definition expandDirect (order : list string) (currentState : jsname)
  : result error expansion :=
  bind (for_of direct_entry ([], currentState) order)
       (fun a => Ok {| steps := a.1; finalState := a.2 |}).
End Expand.

End Engine.

(** The repository's second copy of engine.js.  Its [resolvePath],
    [normalizePath] and [resolveMs] are those of [Engine]; its expansions
    read every entry of [order] as a state name. *)
Module EngineByState.

Inductive error :=
| StateNotFound (st : jsname).

Section Expand.
Context (routes : routeTable) (actionMs jsonMs : jsval)
        (validStates : option (gset string)).

Definition acc : Type := list step * jsname.

Definition sequence_visit (a : acc) (nextState : string) : result error acc :=
  if unknown_state validStates (Some nextState)
  then Throw (StateNotFound (Some nextState))
  else
    let routeMs := route_ms routes nextState in
    let ms := Engine.resolveMs actionMs routeMs jsonMs in
    Ok (a.1 ++ [{| state := Some nextState; ms := ms |}], Some nextState).

Definition sequence_entry (a : acc) (targetState : string) : result error acc :=
  if unknown_state validStates (Some targetState)
  then Throw (StateNotFound (Some targetState))
  else
    let path :=
      Engine.normalizePath (Engine.resolvePath targetState a.2 routes) a.2 in
    for_of sequence_visit a path.

Definition expandSequence (order : list string) (currentState : jsname)
  : result error expansion :=
  bind (for_of sequence_entry ([], currentState) order)
       (fun a => Ok {| steps := a.1; finalState := a.2 |}).

Definition direct_entry (a : acc) (targetState : string) : result error acc :=
  if unknown_state validStates (Some targetState)
  then Throw (StateNotFound (Some targetState))
  else if bool_decide (Some targetState = a.2) then Ok a
  else
    let routeMs := route_ms routes targetState in
    let ms := Engine.resolveMs actionMs routeMs jsonMs in
    Ok (a.1 ++ [{| state := Some targetState; ms := ms |}], Some targetState).

Definition expandDirect (order : list string) (currentState : jsname)
  : result error expansion :=
  bind (for_of direct_entry ([], currentState) order)
       (fun a => Ok {| steps := a.1; finalState := a.2 |}).
End Expand.

End EngineByState.

(** ** Tables of the examples *)

Module Scenario.

(** [{ left: {"*":["left"], right:["center","left"]},
       right: {"*":["right"], left:["center","right"]},
       center: {"*":["center"]} }] *)
Definition routes : routeTable :=
  {[ "left" := {[ "*" := JArr ["left"]; "right" := JArr ["center"; "left"] ]};
     "right" := {[ "*" := JArr ["right"]; "left" := JArr ["center"; "right"] ]};
     "center" := {[ "*" := JArr ["center"] ]} ]}.

Definition states : gset string := {[ "left"; "center"; "right" ]}.

(** [{ right: { "*": ["center","right"] } }] *)
Definition via_center : routeTable :=
  {[ "right" := {[ "*" := JArr ["center"; "right"] ]} ]}.

(** A route key that is not a state, with a duration of its own, next to a
    duration on the state it leads to:
    [{ alias: {"*":["left"], ms: 50}, left: {ms: 70} }] *)
Definition aliased : routeTable :=
  {[ "alias" := {[ "*" := JArr ["left"]; "ms" := JNum n50 ]};
     "left" := {[ "ms" := JNum n70 ]} ]}.

End Scenario.

(** The duration precedence as the specification words it: a candidate
    counts when it is a finite number strictly greater than zero. *)
Definition spec_usable (v : jsval) : option number :=
  match v with
  | JNum x => if is_finite x && gt0 x then Some x else None
  | _ => None
  end.

Definition spec_resolveMs (actionMs routeMs globalMs : jsval) : number :=
  match spec_usable actionMs, spec_usable routeMs, spec_usable globalMs with
  | Some x, _, _ => x
  | None, Some x, _ => x
  | None, None, Some x => x
  | None, None, None => n120
  end.

(** A candidate the code takes: a number strictly greater than zero. *)
Definition usable (v : jsval) (x : number) : Prop :=
  v = JNum x ∧ gt0 x = true.

Definition absent (v : jsval) : Prop := ∀ x, ¬ usable v x.

(** ** The expansions as the specification describes them *)

(** Where the pointer stands after a path was walked. *)
Definition path_end (p : list string) (cur : jsname) : jsname :=
  match last p with
  | Some s => Some s
  | None => cur
  end.

(** Sequence expansion: every entry is resolved against the running
    pointer and normalized; the walk lists each visited State with the
    entry that led to it. *)
Fixpoint sequence_walk (routes : routeTable) (order : list string)
    (cur : jsname) : list (string * string) :=
  match order with
  | [] => []
  | k :: rest =>
      let p := Engine.normalizePath (Engine.resolvePath k cur routes) cur in
      ((λ s, (k, s)) <$> p) ++ sequence_walk routes rest (path_end p cur)
  end.

Fixpoint sequence_end (routes : routeTable) (order : list string)
    (cur : jsname) : jsname :=
  match order with
  | [] => cur
  | k :: rest =>
      let p := Engine.normalizePath (Engine.resolvePath k cur routes) cur in
      sequence_end routes rest (path_end p cur)
  end.

(** Direct expansion: every entry is resolved against the running pointer
    and only the last element of its path is kept.  A hop records the
    entry, the pointer before it and the destination. *)
Record hop := { hop_key : string; hop_from : jsname; hop_to : jsname }.

Fixpoint direct_walk (routes : routeTable) (order : list string)
    (cur : jsname) : list hop :=
  match order with
  | [] => []
  | k :: rest =>
      let d := last (Engine.resolvePath k cur routes) in
      {| hop_key := k; hop_from := cur; hop_to := d |}
        :: direct_walk routes rest d
  end.

(** A hop moves when its destination is not where the pointer already is. *)
Definition moves (h : hop) : bool :=
  negb (bool_decide (hop_to h = hop_from h)).

(** The state the step list of an expansion ends on, [start] when the list
    is empty. *)
Definition landing (start : jsname) (sts : list step) : jsname :=
  default start (last (state <$> sts)).

(** The step each expansion emits for a visit or a hop. *)
Definition sequence_step (routes : routeTable) (actionMs jsonMs : jsval)
    (v : string * string) : step :=
  {| state := Some v.2;
     ms := Engine.resolveMs actionMs
             (nullish (route_ms routes v.1) (route_ms routes v.2)) jsonMs |}.

Definition direct_step (routes : routeTable) (actionMs jsonMs : jsval)
    (h : hop) : step :=
  {| state := hop_to h;
     ms := Engine.resolveMs actionMs
             (nullish (route_ms routes (hop_key h))
                      (route_ms routes (prop_key (hop_to h)))) jsonMs |}.

(** The step of a visit when only the visited State's own block counts. *)
Definition own_step (routes : routeTable) (actionMs jsonMs : jsval)
    (v : string * string) : step :=
  {| state := Some v.2;
     ms := Engine.resolveMs actionMs (route_ms routes v.2) jsonMs |}.

Definition known (validStates : option (gset string)) (n : jsname) : Prop :=
  unknown_state validStates n = false.

(** ** player.js and index.js: the playback scheduler *)

(** [play], [runAction] and [playSteps] are asynchronous: a play call runs
    until it awaits the animation of a step and continues when that
    animation settles.  The call is modelled as a coroutine: the
    synchronous stretches are functions on the fields of the instance, and
    a call that awaits a step is a [task] holding what its continuation
    needs.  The animation itself (anime.js on the live elements) is left
    out: the promise of a step is resolved, at once or later, or rejected
    through the signal.

    The scheduler is given at two grains.  The machine of this section
    takes one input per task of the page: a call of [play()] or [stop()],
    or the completion of the awaited step, each with all the jobs it
    leaves, so that a call reaches the instance while the call in flight
    awaits a step whose promise is pending.  The pages of the next
    section take the calls, the settlements and the queued jobs one by
    one, in any order, which is what happens when [play()] or [stop()] is
    called right after another call or after a step that [playStep]
    resolved at once. *)

(** A normalized action of the configuration. *)
Record action := {
  action_type : option string;     (* 'sequence' | 'loop' *)
  action_order : list string;
  action_ms : jsval;
  action_count : option number;
  action_mode : option string;
}.

(** What the instance reads from its configuration and from the SVG: the
    route table, the global duration, the action table and the set of
    discovered states.  The constructor builds [_validStates] and the keys
    of [_stateSnapshots] from the same state map, so one set stands for
    both. *)
Record config := {
  cfg_routes : routeTable;
  cfg_ms : jsval;
  cfg_actions : gmap string action;
  cfg_validStates : gset string;
}.

(** The errors of the player.  [OrderMissing] is the [TypeError] of
    [action.order.length] when [action.order] is [undefined]; the others
    are the errors the code throws itself. *)
Inductive failure :=
| UnknownAction (name : string)
| ExpansionFailed (e : Engine.error)
| NoSnapshots (st : jsname)
| OrderMissing (name : string).

#[global] Instance failure_eq_dec : EqDecision failure.
Proof. solve_decision. Defined.

(** What a promise of the player is rejected with. *)
Inductive exn :=
| AbortError
| Failure (f : failure).

(** The four notifications of the instance. *)
Inductive event :=
| StateChange (st : jsname)
| ActionStart (name : string)
| ActionEnd (name : string)
| ErrorEvent (f : failure).

#[global] Instance event_eq_dec : EqDecision event.
Proof. solve_decision. Defined.

(** The mutable fields of a VectorFlow instance.  An AbortController is an
    object shared between the instance and the play call that created it:
    [signals] maps every controller created so far to the [aborted] flag of
    its signal, and [abortController] holds the identity of the current
    one.  The listeners only observe: [emitted] is the list of the
    notifications passed to [_emit], oldest first. *)
Record instance := {
  abortController : option nat;
  signals : gmap nat bool;
  currentActionName : option string;
  currentState : jsname;
  emitted : list event;
}.

Definition emit (ev : event) (i : instance) : instance :=
  {| abortController := abortController i; signals := signals i;
     currentActionName := currentActionName i; currentState := currentState i;
     emitted := emitted i ++ [ev] |}.

(** [signal.aborted]. *)
Definition signal_aborted (i : instance) (c : nat) : bool :=
  default false (signals i !! c).

(** The getters [isPlaying] and [currentAction]. *)
Definition isPlaying (i : instance) : bool :=
  match abortController i with
  | Some c => negb (signal_aborted i c)
  | None => false
  end.

Definition currentAction (i : instance) : option string := currentActionName i.

Definition stop (i : instance) : instance :=
  match abortController i with
  | Some c =>
      let i1 := {| abortController := None;
                   signals := <[c := true]> (signals i);
                   currentActionName := currentActionName i;
                   currentState := currentState i;
                   emitted := emitted i |} in
      if name_truthy (currentActionName i1) then
        let name := prop_key (currentActionName i1) in
        emit (ActionEnd name)
          {| abortController := abortController i1; signals := signals i1;
             currentActionName := None; currentState := currentState i1;
             emitted := emitted i1 |}
      else i1
  | None => i
  end.

(** What [runAction] does with the value [playSteps] resolves to. *)
Inductive frame :=
| SequenceFrame (currentState : jsname)
| LoopFrame (current : jsname) (remaining : option nat).

(** A play call suspended in [await playStep(...)]: its action, the signal
    it captured, the step whose animation it awaits, the steps after it
    and the frame of [runAction].  The remaining iterations of a loop are
    [None] when the count is [Infinity]. *)
Record task := {
  task_name : string;
  task_action : action;
  task_signal : nat;
  task_step : step;
  task_rest : list step;
  task_frame : frame;
}.

(** How far synchronous code of the player gets. *)
Inductive outcome :=
| Awaiting (t : task)
| Returned (v : jsname)
| Thrown (x : exn)
| Hangs.

(** How a play call stands. *)
Inductive play_result :=
| Pending (t : task)
| Fulfilled
| Cancelled
| Rejected (f : failure)
| Stuck.

(** [action.count || 99999]. *)
Definition loop_count (count : option number) : number :=
  match count with
  | Some x => if truthy (JNum x) then x else n99999
  | None => n99999
  end.

(** How often the body of [for (let i = 0; i < count; i++)] runs; [None]
    when it never stops. *)
Definition trips (count : number) : option nat :=
  match count with
  | PosInf => None
  | Fin false ip fp =>
      Some (nat_of_digits ip + (if all_zero fp then 0 else 1))%nat
  | _ => Some 0%nat
  end.

(** The names every object inherits from [Object.prototype].  A lookup
    [table[name]] on a plain object finds them when the table does not
    hold the name itself; all of them are truthy there. *)
Definition inherited_names : list string :=
  ["constructor"; "hasOwnProperty"; "isPrototypeOf"; "propertyIsEnumerable";
   "toLocaleString"; "toString"; "valueOf"; "__proto__";
   "__defineGetter__"; "__defineSetter__"; "__lookupGetter__";
   "__lookupSetter__"].

Definition inherited (name : string) : bool :=
  bool_decide (name ∈ inherited_names).

Section Player.
Context (cfg : config).

(** The expansion an iteration of a loop runs. *)
Definition expand_loop (a : action) (current : jsname)
  : result Engine.error expansion :=
  if bool_decide (action_mode a = Some "direct")
  then Engine.expandDirect (cfg_routes cfg) (action_ms a) (cfg_ms cfg)
         (Some (cfg_validStates cfg)) (action_order a) current
  else Engine.expandSequence (cfg_routes cfg) (action_ms a) (cfg_ms cfg)
         (Some (cfg_validStates cfg)) (action_order a) current.

(** The head of the loop of [playSteps]: with no step left it returns
    [lastState]; otherwise it checks the signal and the snapshots of the
    step and awaits its animation. *)
Definition playSteps (i : instance) (name : string) (a : action) (signal : nat)
    (fr : frame) (lastState : jsname) (sts : list step) : outcome :=
  match sts with
  | [] => Returned lastState
  | st :: rest =>
      if signal_aborted i signal then Thrown AbortError
      else if unknown_state (Some (cfg_validStates cfg)) (state st)
      then Thrown (Failure (NoSnapshots (state st)))
      else Awaiting {| task_name := name; task_action := a;
                       task_signal := signal; task_step := st;
                       task_rest := rest; task_frame := fr |}
  end.

(** The loop of [runAction] with [n] iterations left. *)
Fixpoint run_loop (i : instance) (name : string) (a : action) (signal : nat)
    (n : nat) (current : jsname) : outcome :=
  match n with
  | O => Returned current
  | S n' =>
      if signal_aborted i signal then Thrown AbortError
      else
        match expand_loop a current with
        | Throw e => Thrown (Failure (ExpansionFailed e))
        | Ok r =>
            match steps r with
            | [] => run_loop i name a signal n' current
            | sts => playSteps i name a signal (LoopFrame current (Some n'))
                       None sts
            end
        end
  end.

(** An iteration of the loop when the count is [Infinity]: an expansion
    without steps leaves [current] as it is, so every later iteration is
    the same and the loop never ends. *)
Definition run_loop_unbounded (i : instance) (name : string) (a : action)
    (signal : nat) (current : jsname) : outcome :=
  if signal_aborted i signal then Thrown AbortError
  else
    match expand_loop a current with
    | Throw e => Thrown (Failure (ExpansionFailed e))
    | Ok r =>
        match steps r with
        | [] => Hangs
        | sts => playSteps i name a signal (LoopFrame current None) None sts
        end
    end.

Definition run_loop_from (i : instance) (name : string) (a : action)
    (signal : nat) (remaining : option nat) (current : jsname) : outcome :=
  match remaining with
  | Some n => run_loop i name a signal n current
  | None => run_loop_unbounded i name a signal current
  end.

Definition runAction (i : instance) (name : string) (a : action)
    (signal : nat) (currentState : jsname) : outcome :=
  if bool_decide (action_type a = Some "loop") then
    run_loop_from i name a signal (trips (loop_count (action_count a)))
      currentState
  else
    match Engine.expandSequence (cfg_routes cfg) (action_ms a) (cfg_ms cfg)
            (Some (cfg_validStates cfg)) (action_order a) currentState with
    | Throw e => Thrown (Failure (ExpansionFailed e))
    | Ok r =>
        match steps r with
        | [] => Returned currentState
        | sts => playSteps i name a signal (SequenceFrame currentState) None sts
        end
    end.

(** [runAction] after [playSteps] resolved to [v]. *)
Definition after_playSteps (i : instance) (name : string) (a : action)
    (signal : nat) (fr : frame) (v : jsname) : outcome :=
  match fr with
  | SequenceFrame currentState => Returned (name_or v currentState)
  | LoopFrame current remaining =>
      run_loop_from i name a signal remaining (name_or v current)
  end.

(** The end of [play]: what follows [await runAction(...)] and the
    [catch] block.  It runs as a job of its own; [play] and [resume] below
    run it right after the stretch before it, as happens when no other
    call comes in between. *)
Definition settle (i : instance) (name : string) (o : outcome)
  : instance * play_result :=
  match o with
  | Awaiting t => (i, Pending t)
  | Returned finalState =>
      (emit (ActionEnd name)
         {| abortController := abortController i; signals := signals i;
            currentActionName := None;
            currentState :=
              if name_truthy finalState then finalState else currentState i;
            emitted := emitted i |},
       Fulfilled)
  | Thrown AbortError => (i, Cancelled)
  | Thrown (Failure f) =>
      (emit (ErrorEvent f)
         {| abortController := abortController i; signals := signals i;
            currentActionName := None; currentState := currentState i;
            emitted := emitted i |},
       Rejected f)
  | Hangs => (i, Stuck)
  end.

(** [play] reads [this._config.actions[actionName]] on the plain object the
    parser built: besides the registered actions it finds what every
    object inherits, a function or an object without [order], and reading
    [action.order.length] then throws before anything else is done.  The
    configuration is taken not to register an action under [__proto__],
    which would replace what the table inherits.

    The call is given up to the first step it awaits.  When [runAction]
    returns or throws without awaiting, what follows [await runAction(...)]
    is included, although it runs as a job after the call returned;
    [call_play] of the next section is the call alone. *)
Definition play (i : instance) (actionName : string) : instance * play_result :=
  match cfg_actions cfg !! actionName with
  | None =>
      if inherited actionName then (i, Rejected (OrderMissing actionName))
      else (emit (ErrorEvent (UnknownAction actionName)) i,
            Rejected (UnknownAction actionName))
  | Some a =>
      match action_order a with
      | [] => (i, Fulfilled)
      | _ =>
          let i1 := stop i in
          let c := fresh (dom (signals i1)) in
          let i2 := emit (ActionStart actionName)
                      {| abortController := Some c;
                         signals := <[c := false]> (signals i1);
                         currentActionName := Some actionName;
                         currentState := currentState i1;
                         emitted := emitted i1 |} in
          settle i2 actionName (runAction i2 actionName a c (currentState i2))
      end
  end.

(** The callback [play] passes as [onStateChange]. *)
Definition onStateChange (i : instance) (st : jsname) : instance :=
  emit (StateChange st)
    {| abortController := abortController i; signals := signals i;
       currentActionName := currentActionName i; currentState := st;
       emitted := emitted i |}.

(** How the awaited animation of a step ends. *)
Inductive settled := Resolved | Aborted.

(** The play call of task [t] continues after its step settled. *)
Definition resume (i : instance) (t : task) (how : settled)
  : instance * play_result :=
  match how with
  | Aborted => settle i (task_name t) (Thrown AbortError)
  | Resolved =>
      let lastState := state (task_step t) in
      let i1 := onStateChange i lastState in
      let o :=
        match playSteps i1 (task_name t) (task_action t) (task_signal t)
                (task_frame t) lastState (task_rest t) with
        | Returned v =>
            after_playSteps i1 (task_name t) (task_action t) (task_signal t)
              (task_frame t) v
        | o => o
        end in
      settle i1 (task_name t) o
  end.

(** The instance with the play call in flight, if any.  [hung] is set when
    a play call entered a loop that never ends: nothing runs after it. *)
Record machine := {
  inst : instance;
  inflight : option task;
  hung : bool;
}.

(** What happens to the instance, one task at a time: the animation of
    the awaited step completes, or a caller invokes [stop()] or
    [play(name)]; the jobs the task leaves run before the next one. *)
Inductive input :=
| Tick
| Stop
| Play (name : string).

(** A call that aborted the signal of the play call in flight rejects the
    promise that call awaits, which is pending; the call ends in its
    [catch] block without a trace. *)
Definition after_call (i : instance) (old : option task) : option task :=
  match old with
  | Some t => if signal_aborted i (task_signal t) then None else Some t
  | None => None
  end.

Definition react (m : machine) (inp : input) : machine :=
  if hung m then m
  else
    match inp with
    | Tick =>
        match inflight m with
        | Some t =>
            let r := resume (inst m) t Resolved in
            {| inst := r.1;
               inflight := match r.2 with Pending t' => Some t' | _ => None end;
               hung := match r.2 with Stuck => true | _ => false end |}
        | None => m
        end
    | Stop =>
        let i := stop (inst m) in
        {| inst := i; inflight := after_call i (inflight m); hung := false |}
    | Play name =>
        let r := play (inst m) name in
        {| inst := r.1;
           inflight := match r.2 with
                       | Pending t' => Some t'
                       | _ => after_call r.1 (inflight m)
                       end;
           hung := match r.2 with Stuck => true | _ => false end |}
    end.

Definition run (m : machine) (inputs : list input) : machine :=
  foldl react m inputs.

End Player.

(** The instance the constructor leaves, positioned on the initial state. *)
Definition new_instance (initial_state : string) : instance :=
  {| abortController := None; signals := ∅; currentActionName := None;
     currentState := Some initial_state; emitted := [] |}.

Definition idle (i : instance) : machine :=
  {| inst := i; inflight := None; hung := false |}.

(** ** The play calls as jobs *)

(** The three asynchronous functions suspend at an [await] each:
    [playSteps] at [await playStep(...)], [runAction] at
    [await playSteps(...)] and [play] at [await runAction(...)], the last
    two also when the function they await returned or threw without
    awaiting anything itself.  What follows an [await] runs as a job of
    its own once the awaited promise is settled: after the code that is
    running, and after the jobs queued before it.  A call of [play()] or
    [stop()] made right after another one therefore finds the
    continuations of the first still queued, and they run after it.

    The promise of a step is special in that [playStep] may resolve it
    before it returns (no live part, or no part with a numeric change):
    aborting the signal later cannot reject it any more, and the
    continuation of [playSteps] runs although the call was cancelled.  A
    promise that is still pending when the signal is aborted is rejected;
    the continuations that receive the [AbortError] change nothing and
    notify nothing, so the call is dropped at once.

    The steps of a page are the calls of [play()] and [stop()], the
    settlement of the awaited step (at once or when its animations
    complete) and the run of the oldest queued job.  [play], [resume] and
    [react] above put the jobs of one call together as they run when no
    other call comes between them; [react_is_history] below states it. *)

(** The instance as [play] leaves it when it calls [runAction]: the call
    before it stopped, a new controller in place, the action recorded and
    its start notified. *)
Definition started (i : instance) (actionName : string) : instance :=
  let i1 := stop i in
  let c := fresh (dom (signals i1)) in
  emit (ActionStart actionName)
    {| abortController := Some c;
       signals := <[c := false]> (signals i1);
       currentActionName := Some actionName;
       currentState := currentState i1;
       emitted := emitted i1 |}.

(** A continuation whose promise is settled: [playSteps] after the step of
    [t] resolved, [runAction] after [playSteps] returned [v] or threw [x],
    [play] after [runAction] returned [v] or threw [x]. *)
Inductive job :=
| StepsJob (t : task)
| ActionJob (t : task) (v : jsname)
| ActionThrow (name : string) (x : exn)
| PlayJob (name : string) (v : jsname)
| PlayThrow (name : string) (x : exn).

(** The instance, the call that awaits a step whose promise is not
    settled, and the queued jobs, oldest first.  [frozen] is set when a
    synchronous loop never ends. *)
Record page := {
  vf : instance;
  awaited : option task;
  jobs : list job;
  frozen : bool;
}.

Inductive occurrence :=
| CallPlay (name : string)
| CallStop
| StepDone
| NextJob.

(** In a synchronous stretch of [runAction] the check of the snapshots is
    the one exception that [playSteps] throws: its check of the signal
    follows that of [runAction], or the creation of the signal, with
    nothing in between.  [runAction] receives it a job later. *)
Definition thrown_by_playSteps (x : exn) : bool :=
  match x with
  | Failure (NoSnapshots _) => true
  | _ => false
  end.

Section Page.
Context (cfg : config).

(** What becomes of the call of action [name] after a synchronous stretch
    of [runAction] with outcome [o]. *)
Definition continue_with (i : instance) (waiting : option task)
    (queue : list job) (name : string) (o : outcome) : page :=
  match o with
  | Awaiting t =>
      {| vf := i; awaited := Some t; jobs := queue; frozen := false |}
  | Returned v =>
      {| vf := i; awaited := waiting; jobs := queue ++ [PlayJob name v];
         frozen := false |}
  | Thrown x =>
      {| vf := i; awaited := waiting;
         jobs := queue ++ [if thrown_by_playSteps x then ActionThrow name x
                           else PlayThrow name x];
         frozen := false |}
  | Hangs => {| vf := i; awaited := waiting; jobs := queue; frozen := true |}
  end.

Definition call_play (p : page) (actionName : string) : page :=
  match cfg_actions cfg !! actionName with
  | None =>
      if inherited actionName then p
      else {| vf := emit (ErrorEvent (UnknownAction actionName)) (vf p);
              awaited := awaited p; jobs := jobs p; frozen := false |}
  | Some a =>
      match action_order a with
      | [] => p
      | _ =>
          let i2 := started (vf p) actionName in
          let c := fresh (dom (signals (stop (vf p)))) in
          continue_with i2 (after_call i2 (awaited p)) (jobs p) actionName
            (runAction cfg i2 actionName a c (currentState i2))
      end
  end.

Definition run_job (i : instance) (waiting : option task) (queue : list job)
    (j : job) : page :=
  match j with
  | StepsJob t =>
      let lastState := state (task_step t) in
      let i1 := onStateChange i lastState in
      match playSteps cfg i1 (task_name t) (task_action t) (task_signal t)
              (task_frame t) lastState (task_rest t) with
      | Awaiting t' =>
          {| vf := i1; awaited := Some t'; jobs := queue; frozen := false |}
      | Returned v =>
          {| vf := i1; awaited := waiting; jobs := queue ++ [ActionJob t v];
             frozen := false |}
      | Thrown x =>
          {| vf := i1; awaited := waiting;
             jobs := queue ++ [ActionThrow (task_name t) x]; frozen := false |}
      | Hangs =>
          {| vf := i1; awaited := waiting; jobs := queue; frozen := true |}
      end
  | ActionJob t v =>
      continue_with i waiting queue (task_name t)
        (after_playSteps cfg i (task_name t) (task_action t) (task_signal t)
           (task_frame t) v)
  | ActionThrow name x =>
      {| vf := i; awaited := waiting; jobs := queue ++ [PlayThrow name x];
         frozen := false |}
  | PlayJob name v =>
      {| vf := (settle i name (Returned v)).1; awaited := waiting;
         jobs := queue; frozen := false |}
  | PlayThrow name x =>
      {| vf := (settle i name (Thrown x)).1; awaited := waiting;
         jobs := queue; frozen := false |}
  end.

Definition happen (p : page) (h : occurrence) : page :=
  if frozen p then p
  else
    match h with
    | CallPlay name => call_play p name
    | CallStop =>
        let i := stop (vf p) in
        {| vf := i; awaited := after_call i (awaited p); jobs := jobs p;
           frozen := false |}
    | StepDone =>
        match awaited p with
        | Some t =>
            {| vf := vf p; awaited := None; jobs := jobs p ++ [StepsJob t];
               frozen := false |}
        | None => p
        end
    | NextJob =>
        match jobs p with
        | j :: queue => run_job (vf p) (awaited p) queue j
        | [] => p
        end
    end.

Definition history (p : page) (hs : list occurrence) : page :=
  foldl happen p hs.

(** The calls and completions come one per task: none of them finds a job
    queued. *)
Fixpoint orderly (p : page) (hs : list occurrence) : Prop :=
  match hs with
  | [] => True
  | h :: rest => (h ≠ NextJob → jobs p = []) ∧ orderly (happen p h) rest
  end.

End Page.

(** The page of a new instance. *)
Definition new_page (initial_state : string) : page :=
  {| vf := new_instance initial_state; awaited := None; jobs := [];
     frozen := false |}.

(** The page a machine stands for, and the occurrences an input of the
    machine stands for: the call or the settlement, followed by the jobs
    it leaves, of which there are at most four. *)
Definition page_of (m : machine) : page :=
  {| vf := inst m; awaited := inflight m; jobs := []; frozen := hung m |}.

Definition occurrences (inp : input) : list occurrence :=
  match inp with
  | Tick => StepDone :: repeat NextJob 4
  | Stop => [CallStop]
  | Play name => CallPlay name :: repeat NextJob 2
  end.

(** ** Configurations of the examples *)

Module Demo.

Definition sequence_of (order : list string) : action :=
  {| action_type := Some "sequence"; action_order := order;
     action_ms := JUndef; action_count := None; action_mode := None |}.

Definition loop_of (order : list string) (count : number)
    (mode : option string) : action :=
  {| action_type := Some "loop"; action_order := order;
     action_ms := JUndef; action_count := Some count; action_mode := mode |}.

(** The tables of the scenario, with one action per state, a Direct loop
    and a loop that walks the states. *)
Definition shapes : config :=
  {| cfg_routes := Scenario.routes;
     cfg_ms := JNum n120;
     cfg_actions :=
       {[ "left" := sequence_of ["left"];
          "right" := sequence_of ["right"];
          "center" := sequence_of ["center"];
          "shuffle" := loop_of ["left"; "right"] n2 (Some "direct");
          "patrol" := loop_of ["left"; "center"] n3 None ]};
     cfg_validStates := Scenario.states |}.

(** A loop whose route depends on the pointer: from [c] the key [a] leads
    to [b], from [b] it leads to a state the SVG does not have. *)
Definition trap : config :=
  {| cfg_routes := {[ "a" := {[ "*" := JArr ["b"]; "b" := JArr ["ghost"] ]} ]};
     cfg_ms := JNum n120;
     cfg_actions := {[ "go" := loop_of ["a"] n2 None;
                       "lost" := sequence_of ["ghost"] ]};
     cfg_validStates := {[ "b"; "c" ]} |}.

(** The tables of the scenario with an action registered under the empty
    name, the only key of the action table, with
    [{ type: "sequence", order: ["left"] }]. *)
Definition unnamed : config :=
  {| cfg_routes := Scenario.routes;
     cfg_ms := JNum n120;
     cfg_actions := {[ EmptyString := sequence_of ["left"] ]};
     cfg_validStates := Scenario.states |}.

End Demo.

(** A play call whose awaited animations complete one after the other,
    [k] of them, with no other call in between. *)
Fixpoint ticks (cfg : config) (k : nat) (s : instance * play_result)
  : instance * play_result :=
  match k with
  | O => s
  | S k' =>
      match s.2 with
      | Pending t => ticks cfg k' (resume cfg s.1 t Resolved)
      | _ => s
      end
  end.


(** The instance after the steps [sts] completed one after the other. *)
Definition advance (i : instance) (sts : list step) : instance :=
  foldl onStateChange i (state <$> sts).


(** ** utils.js: transform strings *)

Module Utils.

(** JavaScript strings, as the list of their characters. *)
Abbreviation jsstring := (list ascii).

Definition str (s : string) : jsstring := list_ascii_of_string s.

(** *** Numbers as text *)

Definition digits_text (ds : list digit) : jsstring := char_of_digit <$> ds.

Definition digit_of_nat (n : nat) : digit :=
  match n with
  | 0 => d0 | 1 => d1 | 2 => d2 | 3 => d3 | 4 => d4
  | 5 => d5 | 6 => d6 | 7 => d7 | 8 => d8 | _ => d9
  end%nat.

Fixpoint digits_of_nat_fuel (fuel n : nat) (acc : list digit) : list digit :=
  match fuel with
  | O => acc
  | S fuel' =>
      let acc' := digit_of_nat (n mod 10) :: acc in
      if (n <? 10)%nat then acc' else digits_of_nat_fuel fuel' (n / 10) acc'
  end.

Definition digits_of_nat (n : nat) : list digit := digits_of_nat_fuel (S n) n [].

(** The zeros right after the decimal point. *)
Fixpoint leading_zeros (ds : list digit) : nat :=
  match ds with
  | d0 :: ds' => S (leading_zeros ds')
  | _ => O
  end.

(** Whether [Number.prototype.toString] prints a numeral in normal form
    as plain decimal digits: at most 21 digits before the point, and
    fewer than six zeros after it when the integer part is zero. *)
Definition prints_plain (ip fp : list digit) : bool :=
  if bool_decide (ip = [d0])
  then bool_decide (leading_zeros fp < 6)%nat
  else bool_decide (length ip ≤ 21)%nat.

(** The exponent form [d.ddde±n] of a numeral in normal form that is not
    printed plain. *)
Definition exponent_text (ip fp : list digit) : jsstring :=
  let big := negb (bool_decide (ip = [d0])) in
  let sig := if big then strip_trailing (ip ++ fp) else strip_leading fp in
  let e := if big then (length ip - 1)%nat else S (leading_zeros fp) in
  let mantissa :=
    match sig with
    | [] => []
    | [d] => [char_of_digit d]
    | d :: ds => char_of_digit d :: "."%char :: digits_text ds
    end in
  mantissa ++ ["e"%char; if big then "+"%char else "-"%char]
    ++ digits_text (digits_of_nat e).

(** [String(x)], as template literals apply it. *)
Definition toString (x : number) : jsstring :=
  match norm x with
  | NaN => str "NaN"
  | PosInf => str "Infinity"
  | NegInf => str "-Infinity"
  | Fin neg ip fp =>
      (if neg then ["-"%char] else []) ++
      (if prints_plain ip fp
       then digits_text ip ++
            match fp with
            | [] => []
            | _ => "."%char :: digits_text fp
            end
       else exponent_text ip fp)
  end.

(** A number whose text is a plain decimal numeral: finite, and printed
    without an exponent. *)
Definition plain_decimal (x : number) : bool :=
  match x with
  | Fin neg ip fp => canonical x && prints_plain ip fp
  | _ => false
  end.

(** The longest run of digits a text starts with, and the rest. *)
Fixpoint take_digits (s : jsstring) : list digit * jsstring :=
  match s with
  | c :: s' =>
      match digit_of_char c with
      | Some d => let r := take_digits s' in (d :: r.1, r.2)
      | None => ([], s)
      end
  | [] => ([], [])
  end.

(** [parseFloat] on texts over [-], [.] and the digits, the only ones the
    patterns below capture: an optional minus sign, digits, and digits
    after a point, of which the longest prefix is read; [NaN] when that
    prefix has no digit. *)
Definition parseFloat (s : jsstring) : number :=
  let signed :=
    match s with
    | c :: r => if bool_decide (c = "-"%char) then (true, r) else (false, s)
    | [] => (false, s)
    end in
  let int := take_digits signed.2 in
  let frac :=
    match int.2 with
    | c :: r => if bool_decide (c = "."%char) then (take_digits r).1 else []
    | [] => []
    end in
  match int.1, frac with
  | [], [] => NaN
  | ip, fp => norm (Fin signed.1 ip fp)
  end.

(** *** Regular expressions *)

(** The fragment of JavaScript's patterns the transform parser uses:
    literal text, one character of a class, greedy repetition of a class,
    a capturing group, a greedy optional part, and sequencing. *)
Inductive regex :=
| Lit (s : jsstring)
| Class (p : ascii → bool)
| Star (p : ascii → bool)
| Plus (p : ascii → bool)
| Group (r : regex)
| Opt (r : regex)
| Seq (r1 r2 : regex).

(** The captures of a match, by group number; [None] is [undefined]. *)
Abbreviation captures := (list (option jsstring)).

Fixpoint strip_prefix (l s : jsstring) : option jsstring :=
  match l with
  | [] => Some s
  | a :: l' =>
      match s with
      | c :: s' => if bool_decide (a = c) then strip_prefix l' s' else None
      | [] => None
      end
  end.

(** Greedy repetition with backtracking: as many characters of the class
    as the rest of the pattern allows. *)
Fixpoint star {R} (p : ascii → bool) (k : jsstring → option R) (s : jsstring)
  : option R :=
  match s with
  | c :: s' =>
      if p c then
        match star p k s' with
        | Some r => Some r
        | None => k s
        end
      else k s
  | [] => k []
  end.

Fixpoint groups (r : regex) : nat :=
  match r with
  | Group r' => S (groups r')
  | Opt r' => groups r'
  | Seq r1 r2 => (groups r1 + groups r2)%nat
  | _ => O
  end.

(** Backtracking matcher: [k] is the rest of the pattern. *)
Fixpoint match_re {R} (r : regex) (s : jsstring) (caps : captures)
    (k : jsstring → captures → option R) : option R :=
  match r with
  | Lit l =>
      match strip_prefix l s with
      | Some s' => k s' caps
      | None => None
      end
  | Class p =>
      match s with
      | c :: s' => if p c then k s' caps else None
      | [] => None
      end
  | Star p => star p (λ s', k s' caps) s
  | Plus p =>
      match s with
      | c :: s' => if p c then star p (λ s'', k s'' caps) s' else None
      | [] => None
      end
  | Group r' =>
      let slot := length caps in
      match_re r' s (caps ++ [None]) (λ s' caps',
        k s' (<[slot := Some (take (length s - length s') s)]> caps'))
  | Opt r' =>
      match match_re r' s caps k with
      | Some res => Some res
      | None => k s (caps ++ replicate (groups r') None)
      end
  | Seq r1 r2 => match_re r1 s caps (λ s' caps', match_re r2 s' caps' k)
  end.

(** The pattern matched where the text starts. *)
Definition exec_at (r : regex) (s : jsstring) : option captures :=
  match_re r s [] (λ _ caps, Some caps).

(** [text.match(pattern)]: the captures of the leftmost match. *)
Fixpoint search (r : regex) (s : jsstring) : option captures :=
  match exec_at r s with
  | Some caps => Some caps
  | None =>
      match s with
      | _ :: s' => search r s'
      | [] => None
      end
  end.

Definition cat (rs : list regex) : regex := foldr Seq (Lit []) rs.

(** [\s], on the characters below 256. *)
Definition is_space (c : ascii) : bool :=
  let n := nat_of_ascii c in
  ((9 <=? n) && (n <=? 13) || (n =? 32) || (n =? 160))%nat.

(** [[-\d.]] *)
Definition is_numeric (c : ascii) : bool :=
  bool_decide (c = "-"%char) || bool_decide (c = "."%char)
  || bool_decide (is_Some (digit_of_char c)).

(** [[,\s]] *)
Definition is_separator (c : ascii) : bool :=
  bool_decide (c = ","%char) || is_space c.

(** [/translate\(\s*([-\d.]+)\s*[,\s]\s*([-\d.]+)\s*\)/] *)
Definition translate_re : regex :=
  cat [Lit (str "translate("); Star is_space; Group (Plus is_numeric);
       Star is_space; Class is_separator; Star is_space;
       Group (Plus is_numeric); Star is_space; Lit (str ")")].

(** [/scale\(\s*([-\d.]+)(?:\s*[,\s]\s*([-\d.]+))?\s*\)/] *)
Definition scale_re : regex :=
  cat [Lit (str "scale("); Star is_space; Group (Plus is_numeric);
       Opt (cat [Star is_space; Class is_separator; Star is_space;
                 Group (Plus is_numeric)]);
       Star is_space; Lit (str ")")].

(** [/rotate\(\s*([-\d.]+)/] *)
Definition rotate_re : regex :=
  cat [Lit (str "rotate("); Star is_space; Group (Plus is_numeric)].

(** *** Transforms *)

Record components := {
  translateX : number;
  translateY : number;
  scaleX : number;
  scaleY : number;
  rotate : number;
}.

Definition identity : components :=
  {| translateX := zero; translateY := zero;
     scaleX := one; scaleY := one; rotate := zero |}.

(** [match[n]] and [parseFloat(match[n])]. *)
Definition group (caps : captures) (n : nat) : option jsstring :=
  mjoin (caps !! (n - 1)%nat).

Definition parseFloat_of (g : option jsstring) : number :=
  match g with
  | Some s => parseFloat s
  | None => NaN
  end.

(** The body of [parseTransform] past its guard. *)
Definition parse_text (s : jsstring) : components :=
  let r0 := identity in
  let r1 :=
    match search translate_re s with
    | Some m =>
        {| translateX := parseFloat_of (group m 1);
           translateY := parseFloat_of (group m 2);
           scaleX := scaleX r0; scaleY := scaleY r0; rotate := rotate r0 |}
    | None => r0
    end in
  let r2 :=
    match search scale_re s with
    | Some m =>
        let sx := parseFloat_of (group m 1) in
        {| translateX := translateX r1; translateY := translateY r1;
           scaleX := sx;
           scaleY := match group m 2 with
                     | Some g => parseFloat g
                     | None => sx
                     end;
           rotate := rotate r1 |}
    | None => r1
    end in
  match search rotate_re s with
  | Some m =>
      {| translateX := translateX r2; translateY := translateY r2;
         scaleX := scaleX r2; scaleY := scaleY r2;
         rotate := parseFloat_of (group m 1) |}
  | None => r2
  end.

(** [parseTransform]; the argument is [None] for [null] and [undefined],
    and the guard [!transformStr] also catches the empty text. *)
Definition parseTransform (transformStr : option jsstring) : components :=
  match transformStr with
  | None => identity
  | Some s => if bool_decide (s = []) then identity else parse_text s
  end.

(** [parts.join(' ')] *)
Fixpoint join (parts : list jsstring) : jsstring :=
  match parts with
  | [] => []
  | [p] => p
  | p :: ps => p ++ " "%char :: join ps
  end.

(** The template literals of [buildTransform]. *)
Definition translate_text (x y : jsstring) : jsstring :=
  str "translate(" ++ x ++ str "," ++ y ++ str ")".

Definition rotate_text (x : jsstring) : jsstring :=
  str "rotate(" ++ x ++ str ")".

Definition scale_text (x y : jsstring) : jsstring :=
  str "scale(" ++ x ++ str "," ++ y ++ str ")".

Definition translate_part (c : components) : list jsstring :=
  if negb (strict_eq (translateX c) zero) || negb (strict_eq (translateY c) zero)
  then [translate_text (toString (translateX c)) (toString (translateY c))]
  else [].

Definition rotate_part (c : components) : list jsstring :=
  if negb (strict_eq (rotate c) zero)
  then [rotate_text (toString (rotate c))]
  else [].

Definition scale_part (c : components) : list jsstring :=
  if negb (strict_eq (scaleX c) one) || negb (strict_eq (scaleY c) one)
  then [scale_text (toString (scaleX c)) (toString (scaleY c))]
  else [].

(** [buildTransform]; [None] is the [null] it returns for no part. *)
Definition buildTransform (c : components) : option jsstring :=
  let parts := translate_part c ++ rotate_part c ++ scale_part c in
  match parts with
  | [] => None
  | _ => Some (join parts)
  end.

(** The components whose five values print as plain decimal numerals. *)
Definition plain_components (c : components) : Prop :=
  plain_decimal (translateX c) = true ∧ plain_decimal (translateY c) = true ∧
  plain_decimal (scaleX c) = true ∧ plain_decimal (scaleY c) = true ∧
  plain_decimal (rotate c) = true.

End Utils.

(** ** parser.js: the configuration *)

Module Parser.

(** The values a configuration is made of.  An object is the list of its
    own entries in the order [Object.entries] lists them, with distinct
    keys.  Properties are looked up among the own entries: the members of
    [Object.prototype] are left aside. *)
#[warnings="-register-all"]
Inductive json :=
| JsNull
| JsBool (b : bool)
| JsNum (x : number)
| JsStr (s : string)
| JsArr (xs : list json)
| JsObj (fields : list (string * json)).

(** ToBoolean. *)
Definition truthy (v : json) : bool :=
  match v with
  | JsNull => false
  | JsBool b => b
  | JsNum x => Js.truthy (JNum x)
  | JsStr s => negb (bool_decide (s = EmptyString))
  | JsArr _ | JsObj _ => true
  end.

(** [v[key]] for the keys the parser reads ([initial_state], [routes],
    [actions], [ms], [name], [type], [order], [count], [mode]), none of
    which an array or a primitive value has; [None] is [undefined].  The
    value read must not be [null]. *)
Definition get (v : json) (key : string) : option json :=
  match v with
  | JsObj fields => snd <$> List.find (λ kv, bool_decide (kv.1 = key)) fields
  | _ => None
  end.

(** The key of an array index. *)
Definition index_key (n : nat) : string :=
  string_of_list_ascii (Utils.digits_text (Utils.digits_of_nat n)).

(** [Object.entries(v)], which the parser applies to objects and arrays
    only. *)
Definition entries (v : json) : list (string * json) :=
  match v with
  | JsObj fields => fields
  | JsArr xs => imap (λ n x, (index_key n, x)) xs
  | _ => []
  end.

(** [v.every(s => typeof s === 'string')], with the strings. *)
Fixpoint strings_of (xs : list json) : option (list string) :=
  match xs with
  | [] => Some []
  | JsStr s :: rest => cons s <$> strings_of rest
  | _ => None
  end.

(** [typeof v === 'number' && v > 0], with the number. *)
Definition positive (v : option json) : option number :=
  match v with
  | Some (JsNum x) => if gt0 x then Some x else None
  | _ => None
  end.

Inductive error :=
| InvalidJSON
| NotStringOrObject
| NoInitialState
| NoRoutes
| NoActions
| RouteNotObject (target : string)
| RouteMsNotNumber (target : string)
| RouteNotStrings (target key : string)
| TypeError.

(** A normalized action; [order] is kept as it was given. *)
Record normalized := {
  na_type : string;
  na_order : list json;
  na_ms : jsval;
  na_count : option number;
  na_mode : option string;
}.

Record parsed := {
  p_name : json;
  p_initial_state : string;
  p_ms : number;
  p_routes : routeTable;
  p_actions : gmap string normalized;
}.

(** Body of the loop over the entries of a route block. *)
Definition route_entry (target : string) (block : gmap string jsval)
    (kv : string * json) : result error (gmap string jsval) :=
  if bool_decide (kv.1 = "ms") then
    match kv.2 with
    | JsNum x => Ok (<["ms" := JNum x]> block)
    | _ => Throw (RouteMsNotNumber target)
    end
  else
    match kv.2 with
    | JsArr xs =>
        match strings_of xs with
        | Some p => Ok (<[kv.1 := JArr p]> block)
        | None => Throw (RouteNotStrings target kv.1)
        end
    | _ => Throw (RouteNotStrings target kv.1)
    end.

(** Body of the loop over the entries of [json.routes]. *)
Definition route_block (routes : routeTable) (tb : string * json)
  : result error routeTable :=
  match tb.2 with
  | JsArr _ | JsObj _ =>
      bind (for_of (route_entry tb.1) ∅ (entries tb.2))
           (λ block, Ok (<[tb.1 := block]> routes))
  | _ => Throw (RouteNotObject tb.1)
  end.

(** The normalized form of an action that is not [null]. *)
Definition normalize (action : json) : normalized :=
  let type :=
    match get action "type" with
    | Some (JsStr s) => if bool_decide (s = "loop") then "loop" else "sequence"
    | _ => "sequence"
    end in
  match get action "order" with
  | Some (JsArr (x :: xs)) =>
      let ms :=
        match positive (get action "ms") with
        | Some n => JNum n
        | None => JUndef
        end in
      let count :=
        if bool_decide (type = "loop")
        then Some (default n99999 (positive (get action "count")))
        else None in
      let mode :=
        if bool_decide (type = "loop")
        then match get action "mode" with
             | Some (JsStr s) => Some s
             | _ => None
             end
        else None in
      {| na_type := type; na_order := x :: xs; na_ms := ms;
         na_count := count; na_mode := mode |}
  | _ =>
      {| na_type := type; na_order := []; na_ms := JUndef;
         na_count := None; na_mode := None |}
  end.

(** Body of the loop over the entries of [json.actions]: reading a
    property of [null] throws.  The warning logged for an action without
    a valid order is left out. *)
Definition action_entry (actions : gmap string normalized)
    (na : string * json) : result error (gmap string normalized) :=
  match na.2 with
  | JsNull => Throw TypeError
  | action => Ok (<[na.1 := normalize action]> actions)
  end.

(** The part of [parseAndValidateJSON] that follows the reading of the
    input. *)
Definition validate (json : json) : result error parsed :=
  match json with
  | JsNull => Throw TypeError
  | _ =>
      match get json "initial_state" with
      | Some (JsStr initial) =>
          if bool_decide (initial = EmptyString) then Throw NoInitialState
          else
            match get json "routes" with
            | Some ((JsArr _ | JsObj _) as routes) =>
                match get json "actions" with
                | Some ((JsArr _ | JsObj _) as actions) =>
                    let globalMs := default n120 (positive (get json "ms")) in
                    bind (for_of route_block ∅ (entries routes)) (λ rs,
                      bind (for_of action_entry ∅ (entries actions)) (λ acts,
                        Ok {| p_name :=
                                match get json "name" with
                                | Some n => if truthy n then n else JsStr "untitled"
                                | None => JsStr "untitled"
                                end;
                              p_initial_state := initial;
                              p_ms := globalMs;
                              p_routes := rs;
                              p_actions := acts |}))
                | _ => Throw NoActions
                end
            | _ => Throw NoRoutes
            end
      | _ => Throw NoInitialState
      end
  end.

Section Parse.
(** [JSON.parse]; [None] when it throws. *)
Context (JSON_parse : string → option json).

Definition parseAndValidateJSON (input : json) : result error parsed :=
  match input with
  | JsStr s =>
      match JSON_parse s with
      | Some json => validate json
      | None => Throw InvalidJSON
      end
  | JsArr _ | JsObj _ => validate input
  | _ => Throw NotStringOrObject
  end.
End Parse.

End Parser.

(** ** parser.js: states and parts of the SVG *)

Module Discovery.

(** What the parser reads of the SVG: the groups the selector
    [g[id^="state_"]] finds, in document order, each with its [id] and
    with the values of the [data-part] attribute of the elements below it
    that carry the attribute, in document order.  An element with a
    [data-part] attribute is identified by its position among those of
    its group. *)
Record group := { group_id : string; data_parts : list string }.

(** A [Map] with string keys, as the list of its entries in insertion
    order; [map_set] is [Map.prototype.set]. *)
Fixpoint map_set {A} (k : string) (v : A) (m : list (string * A))
  : list (string * A) :=
  match m with
  | [] => [(k, v)]
  | (k', v') :: rest =>
      if bool_decide (k' = k) then (k, v) :: rest
      else (k', v') :: map_set k v rest
  end.

(** [id.replace(/^state_/, '')] *)
Definition state_name (id : string) : string :=
  match Utils.strip_prefix (Utils.str "state_") (Utils.str id) with
  | Some rest => string_of_list_ascii rest
  | None => id
  end.

Inductive error :=
| NoStateGroups
| NoValidStateGroups
| NoParts (stateName : string)
| PartMismatch (referenceStateName referencePartNames
                stateName currentPartNames : string).

(** Body of the loop of [discoverStates]. *)
Definition state_entry (stateMap : list (string * group)) (g : group)
  : list (string * group) :=
  let stateName := state_name (group_id g) in
  if bool_decide (stateName = EmptyString) then stateMap
  else map_set stateName g stateMap.

Definition discoverStates (stateGroups : list group)
  : result error (list (string * group)) :=
  match stateGroups with
  | [] => Throw NoStateGroups
  | _ =>
      match foldl state_entry [] stateGroups with
      | [] => Throw NoValidStateGroups
      | stateMap => Ok stateMap
      end
  end.

(** The order of [Array.prototype.sort] without a comparator: strings by
    their code units. *)
Definition str_le (a b : string) : Prop := String.leb a b = true.

#[global] Instance str_le_dec a b : Decision (str_le a b).
Proof. unfold str_le. apply _. Defined.

Definition sort (xs : list string) : list string := merge_sort str_le xs.

(** [xs.join(',')] *)
Fixpoint join (xs : list string) : string :=
  match xs with
  | [] => EmptyString
  | [x] => x
  | x :: rest => String.append x (String "," (join rest))
  end.

(** Body of the loop over the elements of a group, each given with its
    position. *)
Definition part_entry (parts : list (string * nat)) (el : nat * string)
  : list (string * nat) :=
  if bool_decide (el.2 = EmptyString) then parts
  else map_set el.2 el.1 parts.

(** The map from part name to element that [discoverParts] builds for a
    group. *)
Definition part_map (g : group) : list (string * nat) :=
  foldl part_entry [] (imap pair (data_parts g)).

(** [Array.from(parts.keys()).sort().join(',')] *)
Definition part_names (parts : list (string * nat)) : string :=
  join (sort parts.*1).

(** The loop state of [discoverParts]: [stateParts] and the reference,
    [None] while [referencePartNames] is [null]. *)
Definition acc : Type :=
  list (string * list (string * nat)) * option (string * string).

Definition parts_entry (a : acc) (sg : string * group) : result error acc :=
  let parts := part_map sg.2 in
  match parts with
  | [] => Throw (NoParts sg.1)
  | _ =>
      let currentPartNames := part_names parts in
      match a.2 with
      | None =>
          Ok (map_set sg.1 parts a.1, Some (currentPartNames, sg.1))
      | Some (referencePartNames, referenceStateName) =>
          if bool_decide (currentPartNames = referencePartNames)
          then Ok (map_set sg.1 parts a.1, a.2)
          else Throw (PartMismatch referenceStateName referencePartNames
                        sg.1 currentPartNames)
      end
  end.

Definition discoverParts (stateMap : list (string * group))
  : result error (list (string * list (string * nat))) :=
  bind (for_of parts_entry ([], None) stateMap) (λ a, Ok a.1).

Section Snapshots.
(** [readSnapshot] reads the DOM; it is applied to an element of a
    group. *)
Context {snapshot : Type} (readSnapshot : string → nat → snapshot).

Definition buildStateSnapshots
    (stateParts : list (string * list (string * nat)))
  : list (string * list (string * snapshot)) :=
  foldl (λ snapshots sp,
           map_set sp.1
             (foldl (λ partSnapshots pe,
                       map_set pe.1 (readSnapshot sp.1 pe.2) partSnapshots)
                    [] sp.2)
             snapshots)
        [] stateParts.
End Snapshots.

End Discovery.

(** ** utils.js: colors *)

Module Colors.

(** [s.trim()], on the characters below 256. *)
Fixpoint trim_start (s : Utils.jsstring) : Utils.jsstring :=
  match s with
  | c :: rest => if Utils.is_space c then trim_start rest else s
  | [] => []
  end.

Definition trim (s : Utils.jsstring) : Utils.jsstring :=
  rev (trim_start (rev (trim_start s))).

(** [s.replace(a, '')] for a one-character pattern: its first occurrence
    is removed. *)
Fixpoint remove_first (a : ascii) (s : Utils.jsstring) : Utils.jsstring :=
  match s with
  | c :: rest => if bool_decide (c = a) then rest else c :: remove_first a rest
  | [] => []
  end.

(** [s.startsWith(a)] for a one-character prefix. *)
Definition starts_with (a : ascii) (s : Utils.jsstring) : bool :=
  match s with
  | c :: _ => bool_decide (c = a)
  | [] => false
  end.

(** The value of a digit of radix 16. *)
Definition hex_val (c : ascii) : option Z :=
  let code := Z.of_N (N_of_ascii c) in
  if (48 <=? code)%Z && (code <=? 57)%Z then Some (code - 48)%Z
  else if (97 <=? code)%Z && (code <=? 102)%Z then Some (code - 87)%Z
  else if (65 <=? code)%Z && (code <=? 70)%Z then Some (code - 55)%Z
  else None.

(** The values of the longest run of hex digits a text starts with. *)
Fixpoint take_hex (s : Utils.jsstring) : list Z :=
  match s with
  | c :: rest =>
      match hex_val c with
      | Some d => d :: take_hex rest
      | None => []
      end
  | [] => []
  end.

Definition hex_value (ds : list Z) : Z := foldl (λ acc d, 16 * acc + d)%Z 0%Z ds.

(** What [parseInt] returns. *)
Inductive parsed_int :=
| PNaN
| PInf
| PInt (z : Z).

(** The Number value of a non-negative mathematical integer: itself up to
    53 bits, beyond that the nearest multiple of the power of two that
    leaves 53 bits, ties to the even one, and infinity from 2^1024 on. *)
Definition to_double (z : Z) : parsed_int :=
  let bits := (Z.log2 z + 1)%Z in
  if (bits <=? 53)%Z then PInt z
  else
    let shift := (bits - 53)%Z in
    let q := Z.shiftr z shift in
    let rest := (z - Z.shiftl q shift)%Z in
    let half := Z.shiftl 1 (shift - 1) in
    let q' := if (half <? rest)%Z || ((rest =? half)%Z && Z.odd q)
              then (q + 1)%Z else q in
    let rounded := Z.shiftl q' shift in
    if (1024 <=? Z.log2 rounded)%Z then PInf else PInt rounded.

Definition strip_sign (s : Utils.jsstring) : bool * Utils.jsstring :=
  match s with
  | c :: rest =>
      if bool_decide (c = "-"%char) then (true, rest)
      else if bool_decide (c = "+"%char) then (false, rest)
      else (false, s)
  | [] => (false, s)
  end.

Definition strip_0x (s : Utils.jsstring) : Utils.jsstring :=
  match s with
  | c1 :: c2 :: rest =>
      if bool_decide (c1 = "0"%char)
         && (bool_decide (c2 = "x"%char) || bool_decide (c2 = "X"%char))
      then rest else s
  | _ => s
  end.

(** [parseInt(s, 16)]: leading white space, a sign and a prefix [0x] are
    passed over, and the longest run of hex digits is read. *)
Definition parseInt16 (s : Utils.jsstring) : parsed_int :=
  let signed := strip_sign (trim_start s) in
  let ds := take_hex (strip_0x signed.2) in
  match ds with
  | [] => PNaN
  | _ =>
      match to_double (hex_value ds) with
      | PInt z => PInt (if signed.1 then - z else z)
      | other => other
      end
  end.

(** ToInt32, which the bit operators apply to their operand. *)
Definition ToInt32 (n : parsed_int) : Z :=
  match n with
  | PInt z =>
      let m := (z mod 2 ^ 32)%Z in
      if (2 ^ 31 <=? m)%Z then (m - 2 ^ 32)%Z else m
  | _ => 0%Z
  end.

Record rgb := { r : number; g : number; b : number }.

(** The number of an integer that is not negative. *)
Definition of_Z (z : Z) : number :=
  Fin false (Utils.digits_of_nat (Z.to_nat z)) [].

(** [hexToRgb]; the argument is [None] for [null] and [undefined], the
    result [None] for [null]. *)
Definition hexToRgb (hex : option Utils.jsstring) : option rgb :=
  match hex with
  | None => None
  | Some h =>
      if bool_decide (h = []) || bool_decide (h = Utils.str "none") then None
      else
        let h1 := remove_first "#"%char (trim h) in
        let h2 :=
          match h1 with
          | [x; y; z] => [x; x; y; y; z; z]
          | _ => h1
          end in
        match parseInt16 h2 with
        | PNaN => None
        | num =>
            let i := ToInt32 num in
            Some {| r := of_Z (Z.land (Z.shiftr i 16) 255);
                    g := of_Z (Z.land (Z.shiftr i 8) 255);
                    b := of_Z (Z.land i 255) |}
        end
  end.

(** [Math.round(Math.max(0, Math.min(255, n)))]; [None] is [NaN]. *)
Definition clamp_round (n : number) : option nat :=
  match n with
  | NaN => None
  | PosInf => Some 255%nat
  | NegInf => Some 0%nat
  | Fin true _ _ => Some 0%nat
  | Fin false ip fp =>
      let whole := nat_of_digits ip in
      if (255 <=? whole)%nat then Some 255%nat
      else Some (whole + match fp with
                         | d :: _ => if (5 <=? digit_val d)%nat then 1 else 0
                         | [] => 0
                         end)%nat
  end.

Definition hex_digit (n : nat) : ascii :=
  match n with
  | 0 => "0" | 1 => "1" | 2 => "2" | 3 => "3" | 4 => "4" | 5 => "5"
  | 6 => "6" | 7 => "7" | 8 => "8" | 9 => "9" | 10 => "a" | 11 => "b"
  | 12 => "c" | 13 => "d" | 14 => "e" | _ => "f"
  end%char%nat.

(** [toHex]: [.toString(16).padStart(2, '0')] of the rounded value. *)
Definition toHex (n : number) : Utils.jsstring :=
  match clamp_round n with
  | None => Utils.str "NaN"
  | Some k => [hex_digit (k / 16); hex_digit (k mod 16)]
  end.

Definition rgbToHex (c : rgb) : Utils.jsstring :=
  "#"%char :: toHex (r c) ++ toHex (g c) ++ toHex (b c).

(** [lerp] and [lerpColor] over the arithmetic of doubles. *)
Section Interpolation.
Context (add sub mul : number → number → number).

Definition lerp (a b t : number) : number := add a (mul (sub b a) t).

(** [colorB || colorA || '#000000'] *)
Definition first_truthy (colorB colorA : option Utils.jsstring)
  : Utils.jsstring :=
  match colorB with
  | Some (c :: s) => c :: s
  | _ =>
      match colorA with
      | Some (c :: s) => c :: s
      | _ => Utils.str "#000000"
      end
  end.

Definition lerpColor (colorA colorB : option Utils.jsstring) (t : number)
  : Utils.jsstring :=
  match hexToRgb colorA, hexToRgb colorB with
  | Some ca, Some cb =>
      rgbToHex {| r := lerp (r ca) (r cb) t;
                  g := lerp (g ca) (g cb) t;
                  b := lerp (b ca) (b cb) t |}
  | _, _ => first_truthy colorB colorA
  end.
End Interpolation.

(** [\d] *)
Definition is_digit (c : ascii) : bool :=
  bool_decide (is_Some (digit_of_char c)).

Definition either (a b : ascii) (c : ascii) : bool :=
  bool_decide (c = a) || bool_decide (c = b).

(** [/^rgb\s*\(\s*(\d+)\s*,\s*(\d+)\s*,\s*(\d+)\s*\)/i], matched where the
    text starts. *)
Definition rgb_re : Utils.regex :=
  Utils.cat
    [Utils.Class (either "r" "R"); Utils.Class (either "g" "G");
     Utils.Class (either "b" "B"); Utils.Star Utils.is_space;
     Utils.Lit (Utils.str "("); Utils.Star Utils.is_space;
     Utils.Group (Utils.Plus is_digit); Utils.Star Utils.is_space;
     Utils.Lit (Utils.str ","); Utils.Star Utils.is_space;
     Utils.Group (Utils.Plus is_digit); Utils.Star Utils.is_space;
     Utils.Lit (Utils.str ","); Utils.Star Utils.is_space;
     Utils.Group (Utils.Plus is_digit); Utils.Star Utils.is_space;
     Utils.Lit (Utils.str ")")].

(** [parseInt(s, 10)] on a run of digits [\d+] captured: the integer the
    digits write.  Beyond 2^53 the double is the one nearest to it, which
    [toHex] clamps to 255 alike. *)
Definition parseInt10 (s : option Utils.jsstring) : number :=
  match s with
  | Some ds => Fin false (norm_int (Utils.take_digits ds).1) []
  | None => NaN
  end.

Section Normalize.
(** What the 2d context of a canvas gives back as [fillStyle] after the
    text was assigned to it; [None] where there is no [document]. *)
Context (fillStyle : option (Utils.jsstring → Utils.jsstring)).

Definition normalizeColor (val : option Utils.jsstring)
  : option Utils.jsstring :=
  match val with
  | None => None
  | Some v =>
      if bool_decide (v = []) || bool_decide (v = Utils.str "none") then None
      else
        let v1 := trim v in
        if starts_with "#" v1 then Some v1
        else
          match Utils.exec_at rgb_re v1 with
          | Some m =>
              Some (rgbToHex {| r := parseInt10 (Utils.group m 1);
                                g := parseInt10 (Utils.group m 2);
                                b := parseInt10 (Utils.group m 3) |})
          | None =>
              match fillStyle with
              | Some resolve =>
                  if starts_with "#" (resolve v1) then Some (resolve v1)
                  else Some v1
              | None => Some v1
              end
          end
  end.
End Normalize.

End Colors.

(** ** index.js: listeners *)

Module Listeners.

(** Callbacks are functions compared by identity; they are named by
    numbers.  [_listeners] maps an event to an array, and arrays are
    objects: [on] pushes into the array it finds, [off] installs a
    filtered copy.  The store keeps the arrays apart from the references
    to them. *)
Record store := {
  listeners : gmap string nat;
  arrays : gmap nat (list nat);
}.

Definition array (st : store) (ref : nat) : list nat :=
  default [] (arrays st !! ref).

(** The store the constructor and [destroy] set up. *)
Definition initial : store :=
  {| listeners := {[ "stateChange" := 0; "actionStart" := 1;
                     "actionEnd" := 2; "error" := 3 ]}%nat;
     arrays := {[ 0 := []; 1 := []; 2 := []; 3 := [] ]}%nat |}.

Definition on (st : store) (event : string) (callback : nat) : store :=
  match listeners st !! event with
  | Some ref =>
      {| listeners := listeners st;
         arrays := <[ref := array st ref ++ [callback]]> (arrays st) |}
  | None =>
      let ref := fresh (dom (arrays st)) in
      {| listeners := <[event := ref]> (listeners st);
         arrays := <[ref := [callback]]> (arrays st) |}
  end.

Definition off (st : store) (event : string) (callback : nat) : store :=
  match listeners st !! event with
  | Some ref =>
      let copy := fresh (dom (arrays st)) in
      {| listeners := <[event := copy]> (listeners st);
         arrays :=
           <[copy := List.filter (λ cb, negb (bool_decide (cb = callback)))
                       (array st ref)]> (arrays st) |}
  | None => st
  end.

(** What a callback does to the listeners when it is called: it registers
    or removes callbacks, and it may throw. *)
Inductive command :=
| On (event : string) (callback : nat)
| Off (event : string) (callback : nat)
| Throw.

#[global] Instance command_eq_dec : EqDecision command.
Proof. solve_decision. Defined.

(** A call of a callback with the given body: the store it leaves and
    whether it threw. *)
Fixpoint call (body : list command) (st : store) : store * bool :=
  match body with
  | [] => (st, false)
  | On event callback :: rest => call rest (on st event callback)
  | Off event callback :: rest => call rest (off st event callback)
  | Throw :: _ => (st, true)
  end.

(** What a delivery did: the store it leaves, the callbacks it called, in
    order, and those whose exception it caught and logged. *)
Record delivery := {
  final : store;
  called : list nat;
  logged : list nat;
}.

Section Emit.
Context (body : nat → list command).

(** The [for ... of] loop of [_emit] over the array [ref], at index
    [idx]: the iterator reads the array anew at every step.  [None] when
    the loop is not over after [fuel] steps. *)
Fixpoint deliver (fuel : nat) (ref idx : nat) (st : store) : option delivery :=
  match fuel with
  | O => None
  | S fuel' =>
      match array st ref !! idx with
      | None => Some {| final := st; called := []; logged := [] |}
      | Some cb =>
          let r := call (body cb) st in
          match deliver fuel' ref (S idx) r.1 with
          | Some d =>
              Some {| final := final d; called := cb :: called d;
                      logged := if r.2 then cb :: logged d else logged d |}
          | None => None
          end
      end
  end.

Definition _emit (fuel : nat) (st : store) (event : string) : option delivery :=
  match listeners st !! event with
  | Some ref => deliver fuel ref 0 st
  | None => Some {| final := st; called := []; logged := [] |}
  end.

End Emit.

End Listeners.

(** ** Notions the properties are stated with *)

Import Utils.

(** The pointer of an expansion is the state of the last step pushed so
    far, or the start state while nothing was pushed. *)
Definition pointer_agrees (start : jsname) (a : list step * jsname) : Prop :=
  a.2 = landing start a.1.

(** What a play call keeps true while its animations complete: its
    controller is the current one and is not aborted; since its "action
    started" it emitted one state change per completed step, closed by one
    "action ended" once it is fulfilled or by one error once it is
    rejected; and the recorded state is that of the last completed step,
    [start] while none completed. *)
Definition in_session (base : list event) (start : jsname) (c : nat)
    (name : string) (s : instance * play_result) : Prop :=
  abortController s.1 = Some c ∧ signal_aborted s.1 c = false ∧
  match s.2 with
  | Pending t =>
      task_name t = name ∧ currentActionName s.1 = Some name ∧
      ∃ sts, emitted s.1 = base ++ (StateChange <$> sts) ∧
             currentState s.1 = default start (last sts)
  | Fulfilled =>
      currentActionName s.1 = None ∧
      ∃ sts, emitted s.1 = base ++ (StateChange <$> sts) ++ [ActionEnd name]
  | Rejected f =>
      currentActionName s.1 = None ∧
      ∃ sts, emitted s.1 = base ++ (StateChange <$> sts) ++ [ErrorEvent f] ∧
             currentState s.1 = default start (last sts)
  | _ => True
  end.



(** The text of a plain decimal numeral: a sign, the digits of the integer
    part and, after a point, those of the fraction. *)
Definition numeral_text (neg : bool) (ip fp : list digit) : jsstring :=
  (if neg then ["-"%char] else []) ++ digits_text ip ++
  match fp with
  | [] => []
  | _ => "."%char :: digits_text fp
  end.

(** A text the class [[-\d.]] accepts throughout, and not empty. *)
Definition numeral (s : jsstring) : Prop :=
  s ≠ [] ∧ Forall (λ c, is_numeric c = true) s.

(** [join] with every part followed by what comes after it. *)
Fixpoint glue (parts : list jsstring) : jsstring :=
  match parts with
  | [] => []
  | p :: ps => p ++ match ps with [] => [] | _ => " "%char :: glue ps end
  end.

(** A list of states in which no state repeats the one before it, the
    first one being compared with [cur]. *)
Fixpoint moving (cur : jsname) (sts : list jsname) : Prop :=
  match sts with
  | [] => True
  | s :: rest => s ≠ cur ∧ moving s rest
  end.

(** The first visit of a walk that leads to an unknown state, and the
    first hop whose destination is unknown. *)
Definition first_unknown_visit (validStates : option (gset string))
    (walk : list (string * string)) : option (string * string) :=
  List.find (λ v, unknown_state validStates (Some v.2)) walk.

Definition first_unknown_hop (validStates : option (gset string))
    (walk : list hop) : option hop :=
  List.find (λ h, unknown_state validStates (hop_to h)) walk.

(** An expansion run after another one: the second starts where the first
    ended and its steps follow those of the first. *)
Definition then_expand {E} (first : result E expansion)
    (second : jsname → result E expansion) : result E expansion :=
  bind first (λ r1,
    bind (second (finalState r1)) (λ r2,
      Ok {| steps := steps r1 ++ steps r2; finalState := finalState r2 |})).

(** The error of the second copy of engine.js for an error of the first:
    it names the state only. *)
Definition by_state_error (e : Engine.error) : EngineByState.error :=
  match e with
  | Engine.UnknownState _ st => EngineByState.StateNotFound st
  end.

Definition by_state_result {A} (r : result Engine.error A)
  : result EngineByState.error A :=
  match r with
  | Ok a => Ok a
  | Throw e => Throw (by_state_error e)
  end.

(** An entry's own block does not override the duration of the state a
    visit leads to. *)
Definition own_duration (routes : routeTable) (v : string * string) : Prop :=
  nullish (route_ms routes v.1) (route_ms routes v.2) = route_ms routes v.2.

(** The steps pushed so far all last longer than zero. *)
Definition positive_steps (a : list step * jsname) : Prop :=
  Forall (λ s, gt0 (ms s) = true) a.1.

(** ** Notions for runs of the instance *)

(** The queries of an instance agree: a recorded action with a name that
    is not empty means a live controller, the current controller is one
    of those created, and every other controller has been aborted. *)
Definition instance_ok (i : instance) : Prop :=
  (∀ n, currentActionName i = Some n → n ≠ EmptyString → isPlaying i = true) ∧
  (∀ c, abortController i = Some c → c ∈ dom (signals i)) ∧
  (∀ c, c ∈ dom (signals i) → abortController i ≠ Some c →
        signal_aborted i c = true).

(** The play call of task [t] is the one the instance records. *)
Definition task_current (i : instance) (t : task) : Prop :=
  abortController i = Some (task_signal t) ∧
  currentActionName i = Some (task_name t) ∧
  signal_aborted i (task_signal t) = false.

(** The steps a task awaits and still has to play lead to states of the
    SVG. *)
Definition task_known (cfg : config) (t : task) : Prop :=
  Forall (λ s, known (Some (cfg_validStates cfg)) (state s))
         (task_step t :: task_rest t).

Definition session_ok (cfg : config) (m : machine) : Prop :=
  instance_ok (inst m) ∧
  ∀ t, inflight m = Some t → task_current (inst m) t ∧ task_known cfg t.

(** Synchronous code of the player that awaits known steps only and fails
    with expansion errors only. *)
Definition expands_only (cfg : config) (o : outcome) : Prop :=
  match o with
  | Awaiting t => task_known cfg t
  | Thrown (Failure f) => ∃ e, f = ExpansionFailed e
  | _ => True
  end.

(** The notifications read from the oldest on, with the action that is
    running: an action starts when none runs, a state change belongs to
    the running action, and the running action is closed by its own
    "action ended" or by an error of its expansion or playback.  The error
    of an unknown action name leaves the running action as it is.  The
    result is the action running at the end, [None] when the list is not
    of this shape. *)
Fixpoint bracketed (running : option string) (evs : list event)
  : option (option string) :=
  match evs with
  | [] => Some running
  | ev :: rest =>
      match ev, running with
      | ActionStart n, None => bracketed (Some n) rest
      | StateChange _, Some _ => bracketed running rest
      | ActionEnd n, Some n' =>
          if bool_decide (n = n') then bracketed None rest else None
      | ErrorEvent (UnknownAction _), _ => bracketed running rest
      | ErrorEvent _, Some _ => bracketed None rest
      | _, _ => None
      end
  end.

Definition log_ok (i : instance) : Prop :=
  bracketed None (emitted i) = Some (currentActionName i) ∧
  ∀ n, currentActionName i = Some n → n ≠ EmptyString.

(** A notification the playback can give: a state change to a state of
    the SVG, a start, an end, or an error other than missing snapshots. *)
Definition event_ok (cfg : config) (ev : event) : Prop :=
  match ev with
  | StateChange st => known (Some (cfg_validStates cfg)) st
  | ErrorEvent (NoSnapshots _) => False
  | _ => True
  end.

Definition frame_known (cfg : config) (fr : frame) : Prop :=
  match fr with
  | SequenceFrame cs => known (Some (cfg_validStates cfg)) cs
  | LoopFrame cur _ => known (Some (cfg_validStates cfg)) cur
  end.

(** Synchronous code of the player that keeps to states of the SVG. *)
Definition keeps_known (cfg : config) (o : outcome) : Prop :=
  match o with
  | Awaiting t => frame_known cfg (task_frame t)
  | Returned v => known (Some (cfg_validStates cfg)) v
  | _ => True
  end.

Definition states_ok (cfg : config) (m : machine) : Prop :=
  known (Some (cfg_validStates cfg)) (currentState (inst m)) ∧
  ∀ t, inflight m = Some t → frame_known cfg (task_frame t).

(** The outcome of the stretch of a play call that follows a completed
    step: the rest of [playSteps] and, when it returns, of [runAction]. *)
Definition after_step (cfg : config) (i : instance) (t : task) : outcome :=
  let i1 := onStateChange i (state (task_step t)) in
  match playSteps cfg i1 (task_name t) (task_action t) (task_signal t)
          (task_frame t) (state (task_step t)) (task_rest t) with
  | Returned v =>
      after_playSteps cfg i1 (task_name t) (task_action t) (task_signal t)
        (task_frame t) v
  | o => o
  end.

(** The tables of the scenario with an action whose order is empty. *)
Definition resting : config :=
  {| cfg_routes := Scenario.routes;
     cfg_ms := JNum n120;
     cfg_actions := {[ "right" := Demo.sequence_of ["right"];
                       "rest" := Demo.sequence_of [] ]};
     cfg_validStates := Scenario.states |}.

(** ** Notions for the configuration *)

(** The normal form of an action: its type is one of the two, its
    duration is absent or a positive number, an action without order
    carries nothing else, a loop with an order carries a positive count
    and a sequence no count and no mode. *)
Definition normal_action (a : Parser.normalized) : Prop :=
  (Parser.na_type a = "loop" ∨ Parser.na_type a = "sequence") ∧
  (Parser.na_ms a = JUndef
   ∨ ∃ x, Parser.na_ms a = JNum x ∧ gt0 x = true) ∧
  match Parser.na_order a with
  | [] => Parser.na_ms a = JUndef ∧ Parser.na_count a = None
          ∧ Parser.na_mode a = None
  | _ =>
      if bool_decide (Parser.na_type a = "loop")
      then ∃ x, Parser.na_count a = Some x ∧ gt0 x = true
      else Parser.na_count a = None ∧ Parser.na_mode a = None
  end.

(** A route block as the engine reads it: a number under ["ms"], an array
    of strings under every other key. *)
Definition route_value (key : string) (v : jsval) : Prop :=
  if bool_decide (key = "ms") then ∃ x, v = JNum x else ∃ p, v = JArr p.

(** A configuration given as an object: a global duration that is not
    usable, a route with a duration of its own, a loop whose count is
    zero, an action without order and one of an unknown type. *)
Definition sample_actions : Parser.json :=
  Parser.JsObj
    [("go", Parser.JsObj [("type", Parser.JsStr "loop");
                          ("order", Parser.JsArr [Parser.JsStr "right"]);
                          ("count", Parser.JsNum zero)]);
     ("idle", Parser.JsObj [("type", Parser.JsStr "loop");
                            ("ms", Parser.JsNum n50)]);
     ("walk", Parser.JsObj [("type", Parser.JsStr "stroll");
                            ("order", Parser.JsArr [Parser.JsStr "right"]);
                            ("ms", Parser.JsNum n70);
                            ("count", Parser.JsNum n3)])].

Definition sample_fields : list (string * Parser.json) :=
  [("initial_state", Parser.JsStr "center");
   ("ms", Parser.JsNum zero);
   ("routes",
    Parser.JsObj
      [("right",
        Parser.JsObj
          [("*", Parser.JsArr [Parser.JsStr "center"; Parser.JsStr "right"]);
           ("ms", Parser.JsNum n50)])]);
   ("actions", sample_actions)].

Definition sample_input : Parser.json := Parser.JsObj sample_fields.

Definition sample_parsed : Parser.parsed :=
  {| Parser.p_name := Parser.JsStr "untitled";
     Parser.p_initial_state := "center";
     Parser.p_ms := n120;
     Parser.p_routes :=
       {[ "right" := {[ "*" := JArr ["center"; "right"]; "ms" := JNum n50 ]} ]};
     Parser.p_actions :=
       {[ "go" := {| Parser.na_type := "loop";
                     Parser.na_order := [Parser.JsStr "right"];
                     Parser.na_ms := JUndef;
                     Parser.na_count := Some n99999;
                     Parser.na_mode := None |};
          "idle" := {| Parser.na_type := "loop"; Parser.na_order := [];
                       Parser.na_ms := JUndef; Parser.na_count := None;
                       Parser.na_mode := None |};
          "walk" := {| Parser.na_type := "sequence";
                       Parser.na_order := [Parser.JsStr "right"];
                       Parser.na_ms := JNum n70;
                       Parser.na_count := None;
                       Parser.na_mode := None |} ]} |}.

(** ** Notions for the discovery of states and parts *)

(** The part names of a group that count: the values of [data-part] that
    are not empty. *)
Definition named_parts (g : Discovery.group) : list string :=
  List.filter (λ p, negb (bool_decide (p = EmptyString))) (Discovery.data_parts g).

Fixpoint has_comma (s : string) : bool :=
  match s with
  | EmptyString => false
  | String c rest => bool_decide (c = ","%char) || has_comma rest
  end.

Definition comma_free (s : string) : Prop := has_comma s = false.

(** Two groups with the same set of part names. *)
Definition same_parts (g1 g2 : Discovery.group) : Prop :=
  ∀ p, p ∈ named_parts g1 ↔ p ∈ named_parts g2.

(** The joined names of the groups agree with the reference of the loop
    of [discoverParts], or with each other while there is none. *)
Definition agrees (ref : option (string * string))
    (stateMap : list (string * Discovery.group)) : Prop :=
  match ref with
  | Some (names, _) =>
      Forall (λ sg, Discovery.part_names (Discovery.part_map sg.2) = names)
             stateMap
  | None =>
      ∀ sg1 sg2, sg1 ∈ stateMap → sg2 ∈ stateMap →
        Discovery.part_names (Discovery.part_map sg1.2)
        = Discovery.part_names (Discovery.part_map sg2.2)
  end.

(** Two state groups with the parts [arm] and [head], in different
    orders, one of them with an unnamed part. *)
Definition two_poses : list Discovery.group :=
  [{| Discovery.group_id := "state_up";
      Discovery.data_parts := ["arm"; "head"] |};
   {| Discovery.group_id := "state_down";
      Discovery.data_parts := ["head"; EmptyString; "arm"] |}].

Definition two_poses_map : list (string * Discovery.group) :=
  [("up", {| Discovery.group_id := "state_up";
             Discovery.data_parts := ["arm"; "head"] |});
   ("down", {| Discovery.group_id := "state_down";
               Discovery.data_parts := ["head"; EmptyString; "arm"] |})].

(** Two state groups whose part names differ but join to the same
    text. *)
Definition comma_poses : list (string * Discovery.group) :=
  [("up", {| Discovery.group_id := "state_up";
             Discovery.data_parts := ["arm,head"] |});
   ("down", {| Discovery.group_id := "state_down";
               Discovery.data_parts := ["arm"; "head"] |})].

(** What [buildStateSnapshots] holds for a state map: for every state, in
    order, one snapshot per named part of its group. *)
Definition snapshots_of {snapshot} (readSnapshot : string → nat → snapshot)
    (stateMap : list (string * Discovery.group))
  : list (string * list (string * snapshot)) :=
  (λ sg, (sg.1, (λ pe, (pe.1, readSnapshot sg.1 pe.2))
                  <$> Discovery.part_map sg.2)) <$> stateMap.

(** ** Notions for transforms *)

(** Components that are the identity for [buildTransform]: strictly equal
    to 0, 0, 1, 1 and 0. *)
Definition at_identity (c : components) : Prop :=
  strict_eq (translateX c) zero = true ∧ strict_eq (translateY c) zero = true ∧
  strict_eq (rotate c) zero = true ∧
  strict_eq (scaleX c) one = true ∧ strict_eq (scaleY c) one = true.

(** ** Notions for colors *)

(** A color whose channels are the integers [x], [y], [z]. *)
Definition channels (x y z : nat) : Colors.rgb :=
  {| Colors.r := Colors.of_Z (Z.of_nat x);
     Colors.g := Colors.of_Z (Z.of_nat y);
     Colors.b := Colors.of_Z (Z.of_nat z) |}.

(** A character that is a digit of radix 16. *)
Definition is_hex (c : ascii) : Prop := is_Some (Colors.hex_val c).


(** The parts of a text of the form [rgb ( r , g , b ) ...]: the three
    letters, the seven gaps, the three runs of digits and what follows
    the closing parenthesis. *)
Record rgb_call := {
  letters : ascii * ascii * ascii;
  gap1 : jsstring; gap2 : jsstring; gap3 : jsstring; gap4 : jsstring;
  gap5 : jsstring; gap6 : jsstring; gap7 : jsstring;
  red_digits : jsstring; green_digits : jsstring; blue_digits : jsstring;
  after_call_text : jsstring;
}.

Definition rgb_text (p : rgb_call) : jsstring :=
  [(letters p).1.1; (letters p).1.2; (letters p).2]
  ++ gap1 p ++ str "(" ++ gap2 p ++ red_digits p ++ gap3 p ++ str ","
  ++ gap4 p ++ green_digits p ++ gap5 p ++ str ","
  ++ gap6 p ++ blue_digits p ++ gap7 p ++ str ")" ++ after_call_text p.

Definition blank (w : jsstring) : Prop := Forall (λ c, is_space c = true) w.

Definition digit_run (ds : jsstring) : Prop :=
  ds ≠ [] ∧ Forall (λ c, Colors.is_digit c = true) ds.

(** The letters are [rgb] in either case, the gaps hold white space only
    and the runs of digits are not empty. *)
Definition rgb_form (p : rgb_call) : Prop :=
  Colors.either "r" "R" (letters p).1.1 = true ∧
  Colors.either "g" "G" (letters p).1.2 = true ∧
  Colors.either "b" "B" (letters p).2 = true ∧
  Forall blank [gap1 p; gap2 p; gap3 p; gap4 p; gap5 p; gap6 p; gap7 p] ∧
  Forall digit_run [red_digits p; green_digits p; blue_digits p].

(** The integer a run of digits writes. *)
Definition decimal (ds : jsstring) : nat := nat_of_digits (take_digits ds).1.

(** [ rGb( 255 ,0 , 300 ) and more ], with white space around it. *)
Definition sample_rgb : rgb_call :=
  {| letters := ("r", "G", "b")%char;
     gap1 := []; gap2 := str " "; gap3 := str " "; gap4 := [];
     gap5 := str " "; gap6 := str " "; gap7 := str " ";
     red_digits := str "255"; green_digits := str "0";
     blue_digits := str "300"; after_call_text := str " and more" |}.

(** ** Notions for the listeners *)

(** The callbacks registered for an event. *)
Definition registered (st : Listeners.store) (event : string) : list nat :=
  match Listeners.listeners st !! event with
  | Some ref => Listeners.array st ref
  | None => []
  end.

(** Every array [_listeners] refers to exists. *)
Definition arrays_exist (st : Listeners.store) : Prop :=
  ∀ event ref, Listeners.listeners st !! event = Some ref →
               ref ∈ dom (Listeners.arrays st).

(** The removals a call with this body performs: those before it throws. *)
Fixpoint removals (body : list Listeners.command) : list (string * nat) :=
  match body with
  | Listeners.Off event cb :: rest => (event, cb) :: removals rest
  | Listeners.On _ _ :: rest => removals rest
  | Listeners.Throw :: _ => []
  | [] => []
  end.

Definition registers (body : list Listeners.command) : bool :=
  existsb (λ c, match c with Listeners.On _ _ => true | _ => false end) body.

Definition throws (body : list Listeners.command) : bool :=
  bool_decide (Listeners.Throw ∈ body).

(** Callback 1 removes callback 2 from [actionEnd] and throws; callback 2
    does nothing. *)
Definition sample_body (cb : nat) : list Listeners.command :=
  if bool_decide (cb = 1%nat)
  then [Listeners.Off "actionEnd" 2%nat; Listeners.Throw]
  else [].

Definition sample_store : Listeners.store :=
  Listeners.on (Listeners.on Listeners.initial "actionEnd" 1%nat)
    "actionEnd" 2%nat.

(** ** Notions for the pages *)

(** The signal of a queued continuation that can still await a step. *)
Definition job_signal (j : job) : option nat :=
  match j with
  | StepsJob t | ActionJob t _ => Some (task_signal t)
  | _ => None
  end.

(** The signals of the calls that await a step or can still come to: that
    of the awaited call and those of the queued continuations of
    [playSteps] and [runAction]. *)
Definition live_signals (p : page) : list nat :=
  option_list (task_signal <$> awaited p) ++ omap job_signal (jobs p).

(** What every page keeps: the queries of the instance agree, the awaited
    call holds the current controller, which is not aborted, and no two
    of the continuations that can still await a step belong to the same
    call. *)
Definition page_ok (p : page) : Prop :=
  instance_ok (vf p) ∧
  (∀ t, awaited p = Some t →
        abortController (vf p) = Some (task_signal t) ∧
        signal_aborted (vf p) (task_signal t) = false) ∧
  (∀ c, c ∈ live_signals p → c ∈ dom (signals (vf p))) ∧
  NoDup (live_signals p).

(** The job continues the call the instance records, and the steps it
    still has to play are steps of an expansion. *)
Definition job_of_session (cfg : config) (i : instance) (j : job) : Prop :=
  match j with
  | StepsJob t => task_current i t ∧ task_known cfg t
  | ActionJob t _ => task_current i t
  | ActionThrow name x | PlayThrow name x =>
      currentActionName i = Some name ∧ expands_only cfg (Thrown x)
  | PlayJob name _ => currentActionName i = Some name
  end.

(** At most one call is under way: it awaits a step, or one continuation
    of it is queued. *)
Definition single_session (cfg : config) (p : page) : Prop :=
  match awaited p, jobs p with
  | None, [] => True
  | Some t, [] => task_current (vf p) t ∧ task_known cfg t
  | None, [j] => job_of_session cfg (vf p) j
  | _, _ => False
  end.

(** The steps a queued continuation still plays, and the states it hands
    on, are states of the SVG; the exceptions it hands on are those of an
    expansion or of an abort. *)
Definition job_known (cfg : config) (j : job) : Prop :=
  match j with
  | StepsJob t => task_known cfg t ∧ frame_known cfg (task_frame t)
  | ActionJob t v =>
      frame_known cfg (task_frame t) ∧ known (Some (cfg_validStates cfg)) v
  | ActionThrow _ x | PlayThrow _ x => expands_only cfg (Thrown x)
  | PlayJob _ v => known (Some (cfg_validStates cfg)) v
  end.

Definition page_known (cfg : config) (p : page) : Prop :=
  known (Some (cfg_validStates cfg)) (currentState (vf p)) ∧
  Forall (event_ok cfg) (emitted (vf p)) ∧
  (∀ t, awaited p = Some t →
        task_known cfg t ∧ frame_known cfg (task_frame t)) ∧
  Forall (job_known cfg) (jobs p).

(** * Properties *)

(** ** Route resolution *)

(** C3. [resolvePath] falls back to [[target]] when the route table has no
    block for the target; otherwise it returns the path declared for the
    source, whatever the block declares under the wildcard; otherwise the
    wildcard path; otherwise [[target]]. *)
Theorem resolvePath_lookup_order :
  (∀ (routes : routeTable) target source,
      routes !! target = None →
      Engine.resolvePath target source routes = [target]) ∧
  (∀ (routes : routeTable) target source (block : gmap string jsval) p,
      routes !! target = Some block →
      block !! prop_key source = Some (JArr p) →
      Engine.resolvePath target source routes = p) ∧
  (∀ (routes : routeTable) target source (block : gmap string jsval) p,
      routes !! target = Some block →
      (∀ q, block !! prop_key source ≠ Some (JArr q)) →
      block !! "*" = Some (JArr p) →
      Engine.resolvePath target source routes = p) ∧
  (∀ (routes : routeTable) target source (block : gmap string jsval),
      routes !! target = Some block →
      (∀ q, block !! prop_key source ≠ Some (JArr q)) →
      (∀ q, block !! "*" ≠ Some (JArr q)) →
      Engine.resolvePath target source routes = [target]).
Proof.
  repeat split.
  - intros routes target source Hno. unfold Engine.resolvePath. by rewrite Hno.
  - intros routes target source block p Hb Hp.
    unfold Engine.resolvePath. by rewrite Hb, Hp.
  - intros routes target source block p Hb Hno Hw.
    unfold Engine.resolvePath. rewrite Hb, Hw.
    destruct (block !! prop_key source) as [[]|] eqn:E; try done.
    by destruct (Hno xs).
  - intros routes target source block Hb Hno Hnw.
    unfold Engine.resolvePath. rewrite Hb.
    destruct (block !! prop_key source) as [[]|] eqn:E;
      try (by destruct (Hno xs));
      destruct (block !! "*") as [[]|] eqn:E'; try done;
      by destruct (Hnw xs).
Qed.

Lemma resolvePath_lookup_order_witness :
  Engine.resolvePath "right" (Some "left") Scenario.routes = ["center"; "right"] ∧
  Engine.resolvePath "right" (Some "center") Scenario.routes = ["right"] ∧
  Engine.resolvePath "up" (Some "center") Scenario.routes = ["up"].
Proof.
  destruct resolvePath_lookup_order as (Habsent & Hsource & Hwild & _).
  split; [|split].
  - apply (Hsource Scenario.routes "right" (Some "left")
             {[ "*" := JArr ["right"]; "left" := JArr ["center"; "right"] ]});
      reflexivity.
  - apply (Hwild Scenario.routes "right" (Some "center")
             {[ "*" := JArr ["right"]; "left" := JArr ["center"; "right"] ]});
      [reflexivity | intros q; vm_compute; discriminate | reflexivity].
  - apply Habsent. reflexivity.
Defined.

(** ** Duration precedence *)

Lemma is_positive_number_usable v x :
  Engine.is_positive_number v = Some x ↔ usable v x.
Proof.
  unfold usable. destruct v; simpl; try (split; [done | by intros [? _]]).
  destruct (gt0 x0) eqn:E; split.
  - intros [= ->]. done.
  - intros [[= ->] _]. done.
  - done.
  - intros [[= ->] ?]. congruence.
Qed.

Lemma is_positive_number_absent v :
  Engine.is_positive_number v = None ↔ absent v.
Proof.
  unfold absent. split.
  - intros H x Hu. apply is_positive_number_usable in Hu. congruence.
  - intros H. destruct (Engine.is_positive_number v) as [x|] eqn:E; [|done].
    apply is_positive_number_usable in E. by destruct (H x).
Qed.

(** C4, as the code has it.  [resolveMs] returns the first of its three
    candidates that is a number strictly greater than zero, and 120 when
    none is.  Values that are not numbers, NaN and numbers that are zero
    or negative count as absent; a positive number counts whether it is
    finite or not. *)
Theorem resolveMs_precedence :
  (∀ a r g x, usable a x → Engine.resolveMs a r g = x) ∧
  (∀ a r g x, absent a → usable r x → Engine.resolveMs a r g = x) ∧
  (∀ a r g x, absent a → absent r → usable g x → Engine.resolveMs a r g = x) ∧
  (∀ a r g, absent a → absent r → absent g → Engine.resolveMs a r g = n120) ∧
  (∀ v, (∀ x, v ≠ JNum x) → absent v) ∧
  absent (JNum NaN) ∧
  (∀ x, le0 x = true → absent (JNum x)) ∧
  (∀ x, gt0 x = true → usable (JNum x) x) ∧
  usable (JNum PosInf) PosInf ∧
  Engine.resolveMs (JNum n5) (JNum n10) (JNum n20) = n5 ∧
  Engine.resolveMs JUndef (JNum n10) (JNum n20) = n10 ∧
  Engine.resolveMs JUndef JUndef (JNum n20) = n20 ∧
  Engine.resolveMs JUndef JUndef JUndef = n120 ∧
  Engine.resolveMs (JNum zero) (JNum n10) (JNum n20) = n10.
Proof.
  repeat split; try done.
  - intros a r g x Ha. unfold Engine.resolveMs.
    apply is_positive_number_usable in Ha. by rewrite Ha.
  - intros a r g x Ha Hr. unfold Engine.resolveMs.
    apply is_positive_number_absent in Ha.
    apply is_positive_number_usable in Hr. by rewrite Ha, Hr.
  - intros a r g x Ha Hr Hg. unfold Engine.resolveMs.
    apply is_positive_number_absent in Ha, Hr.
    apply is_positive_number_usable in Hg. by rewrite Ha, Hr, Hg.
  - intros a r g Ha Hr Hg. unfold Engine.resolveMs.
    apply is_positive_number_absent in Ha, Hr, Hg. by rewrite Ha, Hr, Hg.
  - intros v Hv x [-> _]. by destruct (Hv x).
  - intros x [[= <-] Hx]. done.
  - intros x Hle y [[= <-] Hx].
    destruct x as [| | |[] ip fp]; simpl in *; try done.
    destruct (all_zero ip && all_zero fp); done.
Qed.

(** C4, as stated, fails on a candidate that is not finite: the code
    returns [Infinity] where the specification's reading skips it and
    returns the route's 10. *)
Lemma resolveMs_infinity_not_skipped :
  Engine.resolveMs (JNum PosInf) (JNum n10) (JNum n20) = PosInf ∧
  spec_resolveMs (JNum PosInf) (JNum n10) (JNum n20) = n10 ∧
  Engine.resolveMs (JNum PosInf) (JNum n10) (JNum n20)
    ≠ spec_resolveMs (JNum PosInf) (JNum n10) (JNum n20).
Proof. repeat split; done. Qed.

(** ** Step expansion *)

Lemma for_of_invariant {E A S} (P : S → Prop) (body : S → A → result E S) :
  (∀ s x s', P s → body s x = Ok s' → P s') →
  ∀ xs s s', P s → for_of body s xs = Ok s' → P s'.
Proof.
  intros Hbody xs. induction xs as [|x xs IH]; intros s s' Hs; simpl.
  - by intros [= <-].
  - destruct (body s x) as [s1|e] eqn:Hx; simpl; [|done].
    apply IH. by eapply Hbody.
Qed.

Lemma landing_snoc start sts st :
  landing start (sts ++ [st]) = state st.
Proof. unfold landing. rewrite fmap_app. simpl. by rewrite last_snoc. Qed.

Section ExpandFacts.
Context (routes : routeTable) (actionMs jsonMs : jsval)
        (validStates : option (gset string)).

Lemma sequence_visit_agrees start k a s a' :
  Engine.sequence_visit routes actionMs jsonMs validStates k a s = Ok a' →
  pointer_agrees start a'.
Proof.
  unfold Engine.sequence_visit, pointer_agrees.
  destruct (unknown_state _ _); [done|]. intros [= <-]. simpl.
  by rewrite landing_snoc.
Qed.

Lemma sequence_entry_agrees start a k a' :
  pointer_agrees start a →
  Engine.sequence_entry routes actionMs jsonMs validStates a k = Ok a' →
  pointer_agrees start a'.
Proof.
  unfold Engine.sequence_entry. intros Ha.
  destruct (Engine.normalizePath _ _) as [|s p]; [by intros [= <-]|].
  apply for_of_invariant; [|done].
  intros ???? H. by eapply sequence_visit_agrees.
Qed.

Lemma direct_entry_agrees start a k a' :
  pointer_agrees start a →
  Engine.direct_entry routes actionMs jsonMs validStates a k = Ok a' →
  pointer_agrees start a'.
Proof.
  unfold Engine.direct_entry, pointer_agrees. intros Ha.
  destruct (unknown_state _ _); [done|].
  case_bool_decide; intros [= <-]; [done|]. simpl.
  by rewrite landing_snoc.
Qed.

Lemma by_state_sequence_entry_agrees start a k a' :
  pointer_agrees start a →
  EngineByState.sequence_entry routes actionMs jsonMs validStates a k = Ok a' →
  pointer_agrees start a'.
Proof.
  unfold EngineByState.sequence_entry. intros Ha.
  destruct (unknown_state _ _); [done|].
  apply for_of_invariant; [|done].
  intros s x s' Hs. unfold EngineByState.sequence_visit, pointer_agrees.
  destruct (unknown_state _ _); [done|]. intros [= <-]. simpl.
  by rewrite landing_snoc.
Qed.

Lemma by_state_direct_entry_agrees start a k a' :
  pointer_agrees start a →
  EngineByState.direct_entry routes actionMs jsonMs validStates a k = Ok a' →
  pointer_agrees start a'.
Proof.
  unfold EngineByState.direct_entry, pointer_agrees. intros Ha.
  destruct (unknown_state _ _); [done|].
  case_bool_decide; intros [= <-]; [done|]. simpl.
  by rewrite landing_snoc.
Qed.
End ExpandFacts.

Lemma finalState_landing
    (routes : routeTable) (actionMs jsonMs : jsval)
    (validStates : option (gset string)) (order : list string)
    (currentState : jsname) (e : expansion) :
  Engine.expandSequence routes actionMs jsonMs validStates order currentState = Ok e
  ∨ Engine.expandDirect routes actionMs jsonMs validStates order currentState = Ok e
  ∨ EngineByState.expandSequence routes actionMs jsonMs validStates order currentState = Ok e
  ∨ EngineByState.expandDirect routes actionMs jsonMs validStates order currentState = Ok e →
  finalState e = landing currentState (steps e).
Proof.
  intros H.
  destruct H as [H|[H|[H|H]]];
    unfold Engine.expandSequence, Engine.expandDirect,
      EngineByState.expandSequence, EngineByState.expandDirect in H;
    match type of H with
    | bind (for_of ?body ?s ?xs) _ = _ =>
        destruct (for_of body s xs) as [a|] eqn:Hloop; [|done]
    end; simpl in H; injection H as <-; simpl;
    change (pointer_agrees currentState a);
    revert Hloop; apply for_of_invariant; try done; intros s x s' Hs.
  - by apply sequence_entry_agrees.
  - by apply direct_entry_agrees.
  - by apply by_state_sequence_entry_agrees.
  - by apply by_state_direct_entry_agrees.
Qed.

(** C10. Whenever an expansion returns, its [finalState] is the state of
    the last step of the returned list, and the given start state when the
    list is empty.  This holds for [expandSequence] and [expandDirect] of
    both copies of engine.js. *)
Theorem finalState_agrees_with_steps
    (routes : routeTable) (actionMs jsonMs : jsval)
    (validStates : option (gset string)) (order : list string)
    (currentState : jsname) (e : expansion) :
  Engine.expandSequence routes actionMs jsonMs validStates order currentState = Ok e
  ∨ Engine.expandDirect routes actionMs jsonMs validStates order currentState = Ok e
  ∨ EngineByState.expandSequence routes actionMs jsonMs validStates order currentState = Ok e
  ∨ EngineByState.expandDirect routes actionMs jsonMs validStates order currentState = Ok e →
  finalState e = landing currentState (steps e) ∧
  (steps e = [] → finalState e = currentState) ∧
  (∀ st, last (steps e) = Some st → finalState e = state st).
Proof.
  intros H. apply finalState_landing in H as Hland.
  split; [done|]. split.
  - intros Hnil. by rewrite Hland, Hnil.
  - intros st Hst. rewrite Hland. unfold landing.
    by rewrite fmap_last, Hst.
Qed.

Lemma finalState_agrees_with_steps_witness :
  finalState {| steps := [{| state := Some "center"; ms := n120 |};
                          {| state := Some "right"; ms := n120 |}];
                finalState := Some "right" |}
  = landing (Some "left") [{| state := Some "center"; ms := n120 |};
                           {| state := Some "right"; ms := n120 |}].
Proof.
  refine (proj1 (finalState_agrees_with_steps Scenario.via_center JUndef
                   (JNum n120) (Some Scenario.states) ["right"] (Some "left")
                   _ _)).
  left. reflexivity.
Defined.

Section Walks.
Context (routes : routeTable) (actionMs jsonMs : jsval)
        (validStates : option (gset string)).

Lemma path_end_cons s p cur : path_end (s :: p) cur = path_end p (Some s).
Proof. unfold path_end. rewrite last_cons. by destruct (last p). Qed.

Lemma sequence_visits k p st cur :
  Forall (λ s, known validStates (Some s)) p →
  for_of (Engine.sequence_visit routes actionMs jsonMs validStates k) (st, cur) p
  = Ok (st ++ (sequence_step routes actionMs jsonMs <$> ((λ s, (k, s)) <$> p)),
        path_end p cur).
Proof.
  revert st cur. induction p as [|s p IH]; intros st cur Hp; simpl.
  - by rewrite app_nil_r.
  - inversion Hp as [|? ? Hs Hp']; subst.
    unfold Engine.sequence_visit at 1. unfold known in Hs. rewrite Hs. simpl.
    rewrite IH by done. rewrite path_end_cons, <- app_assoc. done.
Qed.

Lemma sequence_entries order st cur :
  Forall (λ v, known validStates (Some v.2)) (sequence_walk routes order cur) →
  for_of (Engine.sequence_entry routes actionMs jsonMs validStates) (st, cur) order
  = Ok (st ++ (sequence_step routes actionMs jsonMs <$> sequence_walk routes order cur),
        sequence_end routes order cur).
Proof.
  revert st cur. induction order as [|k rest IH]; intros st cur Hw; simpl.
  - by rewrite app_nil_r.
  - simpl in Hw. apply Forall_app in Hw as [Hp Hrest].
    rewrite Forall_fmap in Hp.
    unfold Engine.sequence_entry at 1. simpl.
    set (p := Engine.normalizePath (Engine.resolvePath k cur routes) cur) in *.
    assert (for_of (Engine.sequence_visit routes actionMs jsonMs validStates k)
              (st, cur) p
            = Ok (st ++ (sequence_step routes actionMs jsonMs <$> ((λ s, (k, s)) <$> p)),
                  path_end p cur)) as Hvisit.
    { apply sequence_visits. eapply Forall_impl; [exact Hp|]. done. }
    destruct p as [|s p'] eqn:Ep.
    + simpl. rewrite IH by done. done.
    + rewrite Hvisit. simpl. rewrite IH by done.
      rewrite fmap_app, <- !app_assoc. done.
Qed.

Lemma last_hop_cons {A} (c d : A) l :
  default c (last (d :: l)) = default d (last l).
Proof. rewrite last_cons. by destruct (last l). Qed.

Lemma direct_entries order st cur :
  Forall (λ h, known validStates (hop_to h)) (direct_walk routes order cur) →
  for_of (Engine.direct_entry routes actionMs jsonMs validStates) (st, cur) order
  = Ok (st ++ (direct_step routes actionMs jsonMs
                 <$> List.filter moves (direct_walk routes order cur)),
        default cur (last (hop_to <$> direct_walk routes order cur))).
Proof.
  revert st cur. induction order as [|k rest IH]; intros st cur Hw.
  - simpl. by rewrite app_nil_r.
  - cbn [direct_walk] in *. inversion Hw as [|? ? Hd Hrest]; subst.
    cbn [for_of]. unfold Engine.direct_entry at 1. cbn [fst snd].
    unfold known in Hd. cbn [hop_to] in Hd. rewrite Hd.
    cbn [List.filter fmap list_fmap]. unfold moves at 1. cbn [hop_to hop_from].
    rewrite last_hop_cons.
    destruct (decide (last (Engine.resolvePath k cur routes) = cur)) as [Heq|Hne].
    + rewrite !(bool_decide_eq_true_2 _ Heq). cbn [negb bind].
      rewrite Heq in Hrest |- *. by apply IH.
    + rewrite !(bool_decide_eq_false_2 _ Hne). cbn [negb bind].
      rewrite IH by done. cbn [fmap list_fmap].
      rewrite <- app_assoc. done.
Qed.
End Walks.

(** [expandSequence] returns only when every visited State is known. *)
Lemma expandSequence_returns_known
    (routes : routeTable) (actionMs jsonMs : jsval)
    (validStates : option (gset string)) (order : list string)
    (currentState : jsname) (e : expansion) :
  Engine.expandSequence routes actionMs jsonMs validStates order currentState
  = Ok e →
  Forall (λ v, known validStates (Some v.2))
         (sequence_walk routes order currentState).
Proof.
  unfold Engine.expandSequence.
  destruct (for_of _ _ order) as [a|] eqn:Hloop; [|done]. intros _.
  revert Hloop. generalize (@nil step). revert currentState a.
  induction order as [|k rest IH]; intros cur a st; simpl; [done|].
  unfold Engine.sequence_entry at 1. cbn [fst snd].
  set (p := Engine.normalizePath (Engine.resolvePath k cur routes) cur).
  assert (∀ st c a',
    for_of (Engine.sequence_visit routes actionMs jsonMs validStates k) (st, c) p
    = Ok a' →
    Forall (λ s, known validStates (Some s)) p ∧ a'.2 = path_end p c) as Hvisit.
  { clear. induction p as [|s p IHp]; intros st c a'; simpl.
    - by intros [= <-].
    - unfold Engine.sequence_visit at 1.
      destruct (unknown_state validStates (Some s)) eqn:Hs; [done|]. simpl.
      intros [Hp ->]%IHp. split; [by constructor|].
      by rewrite path_end_cons. }
  destruct p as [|s p'] eqn:Ep.
  - simpl. apply IH.
  - destruct (for_of (Engine.sequence_visit routes actionMs jsonMs validStates k)
                (st, cur) (s :: p')) as [[st1 c1]|] eqn:Hin; [|done].
    cbn [bind]. intros Hrest. apply Hvisit in Hin as [Hp Hc1].
    cbn [snd] in Hc1. subst c1.
    apply Forall_app. split.
    + by rewrite Forall_fmap.
    + by eapply IH.
Qed.

(** C1, as the code has it.  When every visited State is known,
    [expandSequence] returns one step per visited State of every entry's
    normalized path, and the duration of that step is resolved from the
    action's override first, then from the entry's own route block when it
    sets a duration and otherwise from the visited State's block, then from
    the global default. *)
Theorem expandSequence_durations
    (routes : routeTable) (actionMs jsonMs : jsval)
    (validStates : option (gset string)) (order : list string)
    (currentState : jsname) :
  Forall (λ v, known validStates (Some v.2))
         (sequence_walk routes order currentState) →
  Engine.expandSequence routes actionMs jsonMs validStates order currentState
  = Ok {| steps := sequence_step routes actionMs jsonMs
                     <$> sequence_walk routes order currentState;
          finalState := sequence_end routes order currentState |}
  ∧ ∀ key visited,
      ms (sequence_step routes actionMs jsonMs (key, visited))
      = Engine.resolveMs actionMs
          (match route_ms routes key with
           | JUndef | JNull => route_ms routes visited
           | own => own
           end) jsonMs.
Proof.
  intros Hw. split.
  - unfold Engine.expandSequence. by rewrite sequence_entries.
  - intros key visited. unfold sequence_step, nullish. simpl.
    by destruct (route_ms routes key).
Qed.

Lemma expandSequence_durations_witness :
  Engine.expandSequence Scenario.routes JUndef (JNum n120)
    (Some Scenario.states) ["right"] (Some "left")
  = Ok {| steps := [{| state := Some "center"; ms := n120 |};
                    {| state := Some "right"; ms := n120 |}];
          finalState := Some "right" |}.
Proof.
  refine (proj1 (expandSequence_durations Scenario.routes JUndef (JNum n120)
                   (Some Scenario.states) ["right"] (Some "left") _)).
  repeat constructor.
Defined.

(** C1, as stated, fails where an entry is a route key with a duration of
    its own: the step to [left] reached through [alias] lasts the 50 of
    [alias], not the 70 of [left]. *)
Lemma expandSequence_entry_duration_wins :
  Engine.expandSequence Scenario.aliased JUndef (JNum n120)
    (Some Scenario.states) ["alias"] (Some "center")
  = Ok {| steps := [{| state := Some "left"; ms := n50 |}];
          finalState := Some "left" |}
  ∧ own_step Scenario.aliased JUndef (JNum n120) ("alias", "left")
    = {| state := Some "left"; ms := n70 |}
  ∧ Engine.expandSequence Scenario.aliased JUndef (JNum n120)
      (Some Scenario.states) ["alias"] (Some "center")
    ≠ Ok {| steps := own_step Scenario.aliased JUndef (JNum n120)
                       <$> sequence_walk Scenario.aliased ["alias"] (Some "center");
            finalState := Some "left" |}.
Proof. repeat split; done. Qed.

(** The second copy of engine.js does resolve the duration from the
    visited State's own block alone. *)
Lemma by_state_expandSequence_durations
    (routes : routeTable) (actionMs jsonMs : jsval)
    (validStates : option (gset string)) (order : list string)
    (currentState : jsname) :
  Forall (λ k, known validStates (Some k)) order →
  Forall (λ v, known validStates (Some v.2))
         (sequence_walk routes order currentState) →
  EngineByState.expandSequence routes actionMs jsonMs validStates order currentState
  = Ok {| steps := own_step routes actionMs jsonMs
                     <$> sequence_walk routes order currentState;
          finalState := sequence_end routes order currentState |}.
Proof.
  intros Hk Hw. unfold EngineByState.expandSequence.
  enough (∀ st cur,
    Forall (λ v, known validStates (Some v.2)) (sequence_walk routes order cur) →
    for_of (EngineByState.sequence_entry routes actionMs jsonMs validStates)
      (st, cur) order
    = Ok (st ++ (own_step routes actionMs jsonMs <$> sequence_walk routes order cur),
          sequence_end routes order cur)) as Hloop.
  { by rewrite Hloop. }
  clear Hw currentState.
  induction order as [|k rest IH]; intros st cur Hw; simpl.
  - by rewrite app_nil_r.
  - inversion Hk as [|? ? Hk1 Hk']; subst.
    simpl in Hw. apply Forall_app in Hw as [Hp Hrest]. rewrite Forall_fmap in Hp.
    unfold EngineByState.sequence_entry at 1. unfold known in Hk1. rewrite Hk1.
    simpl.
    set (p := Engine.normalizePath (Engine.resolvePath k cur routes) cur) in *.
    assert (∀ st c,
      for_of (EngineByState.sequence_visit routes actionMs jsonMs validStates)
        (st, c) p
      = Ok (st ++ (own_step routes actionMs jsonMs <$> ((λ s, (k, s)) <$> p)),
            path_end p c)) as ->.
    { clear -Hp. induction p as [|s p IHp]; intros st c; simpl.
      - by rewrite app_nil_r.
      - inversion Hp as [|? ? Hs Hp']; subst. simpl in Hs.
        unfold EngineByState.sequence_visit at 1. unfold known in Hs.
        rewrite Hs. simpl. rewrite IHp by done.
        rewrite path_end_cons, <- app_assoc. done. }
    simpl. rewrite IH by done. rewrite fmap_app, <- !app_assoc. done.
Qed.

(** The second copy of engine.js takes every entry as the destination; on
    the example it emits the same single step. *)
Lemma by_state_expandDirect_example :
  EngineByState.expandDirect Scenario.via_center JUndef (JNum n120)
    (Some Scenario.states) ["right"] (Some "left")
  = Ok {| steps := [{| state := Some "right"; ms := n120 |}];
          finalState := Some "right" |}.
Proof. reflexivity. Qed.

(** C5. Direct expansion resolves every entry against the pointer, keeps
    the last element of the path as its destination and emits a step only
    for the entries whose destination is not the pointer; so it emits at
    most one step per entry.  With [via_center] and the pointer on [left],
    Direct-expanding [["right"]] gives the one step to [right] where
    Sequence expansion gives the two steps [center], [right]. *)
Theorem expandDirect_keeps_destinations :
  (∀ (routes : routeTable) actionMs jsonMs validStates order currentState,
      Forall (λ h, known validStates (hop_to h))
             (direct_walk routes order currentState) →
      Engine.expandDirect routes actionMs jsonMs validStates order currentState
      = Ok {| steps := direct_step routes actionMs jsonMs
                         <$> List.filter moves (direct_walk routes order currentState);
              finalState :=
                default currentState
                  (last (hop_to <$> direct_walk routes order currentState)) |}) ∧
  (∀ (routes : routeTable) actionMs jsonMs validStates order currentState e,
      Engine.expandDirect routes actionMs jsonMs validStates order currentState = Ok e →
      (length (steps e) ≤ length order)%nat) ∧
  (∀ (routes : routeTable) order currentState,
      length (direct_walk routes order currentState) = length order ∧
      ∀ i h, direct_walk routes order currentState !! i = Some h →
             ∃ key, order !! i = Some key ∧ hop_key h = key ∧
                    hop_to h = last (Engine.resolvePath key (hop_from h) routes)) ∧
  Engine.expandDirect Scenario.via_center JUndef (JNum n120)
    (Some Scenario.states) ["right"] (Some "left")
  = Ok {| steps := [{| state := Some "right"; ms := n120 |}];
          finalState := Some "right" |} ∧
  Engine.expandSequence Scenario.via_center JUndef (JNum n120)
    (Some Scenario.states) ["right"] (Some "left")
  = Ok {| steps := [{| state := Some "center"; ms := n120 |};
                    {| state := Some "right"; ms := n120 |}];
          finalState := Some "right" |}.
Proof.
  split; [|split; [|split; [|split]]]; try reflexivity.
  - intros routes actionMs jsonMs validStates order currentState Hw.
    unfold Engine.expandDirect. by rewrite direct_entries.
  - intros routes actionMs jsonMs validStates order currentState e.
    unfold Engine.expandDirect.
    destruct (for_of _ _ _) as [a|] eqn:Hloop; [|done]. intros [= <-]. simpl.
    enough (∀ st cur a',
      for_of (Engine.direct_entry routes actionMs jsonMs validStates) (st, cur) order
      = Ok a' → (length a'.1 ≤ length st + length order)%nat) as Hlen.
    { apply Hlen in Hloop. simpl in Hloop. lia. }
    clear. induction order as [|k rest IH]; intros st cur a'; simpl.
    + intros [= <-]. simpl. lia.
    + unfold Engine.direct_entry at 1. simpl.
      destruct (unknown_state _ _); [done|].
      case_bool_decide; simpl; intros Hrest; apply IH in Hrest.
      * lia.
      * rewrite length_app in Hrest. simpl in Hrest. lia.
  - intros routes order. induction order as [|k rest IH]; intros cur.
    + split; [done|]. intros i h. by rewrite lookup_nil.
    + destruct (IH (last (Engine.resolvePath k cur routes))) as [Hlen Hhops].
      split; [simpl; by rewrite Hlen|].
      intros [|i] h; simpl.
      * intros [= <-]. by exists k.
      * apply Hhops.
Qed.

Lemma expandDirect_keeps_destinations_witness :
  Engine.expandDirect Scenario.routes JUndef (JNum n120)
    (Some Scenario.states) ["left"; "left"; "right"] (Some "center")
  = Ok {| steps := [{| state := Some "left"; ms := n120 |};
                    {| state := Some "right"; ms := n120 |}];
          finalState := Some "right" |}.
Proof.
  refine (proj1 expandDirect_keeps_destinations Scenario.routes JUndef
            (JNum n120) (Some Scenario.states) ["left"; "left"; "right"]
            (Some "center") _).
  repeat constructor.
Defined.

(** ** Playback *)

Arguments playSteps : simpl never.
Arguments expand_loop : simpl never.
Arguments signal_aborted : simpl never.

Section PlayerFacts.
Context (cfg : config).

Lemma emitted_emit ev i : emitted (emit ev i) = emitted i ++ [ev].
Proof. done. Qed.

Lemma playSteps_name i name a c fr v sts t :
  playSteps cfg i name a c fr v sts = Awaiting t →
  task_name t = name ∧ task_action t = a ∧ task_signal t = c.
Proof.
  unfold playSteps. destruct sts as [|st rest]; [done|].
  destruct (signal_aborted i c); [done|].
  destruct (unknown_state _ _); [done|]. by intros [= <-].
Qed.

Lemma run_loop_name i name a c n cur t :
  run_loop cfg i name a c n cur = Awaiting t →
  task_name t = name ∧ task_action t = a ∧ task_signal t = c.
Proof.
  induction n as [|n IH]; simpl; [done|].
  destruct (signal_aborted i c); [done|].
  destruct (expand_loop cfg a cur) as [r|]; [|done].
  destruct (steps r) as [|st rest] eqn:Hsteps; [done|].
  apply playSteps_name.
Qed.

Lemma run_loop_from_name i name a c rem cur t :
  run_loop_from cfg i name a c rem cur = Awaiting t →
  task_name t = name ∧ task_action t = a ∧ task_signal t = c.
Proof.
  destruct rem as [n|]; simpl; [apply run_loop_name|].
  unfold run_loop_unbounded.
  destruct (signal_aborted i c); [done|].
  destruct (expand_loop cfg a cur) as [r|]; [|done].
  destruct (steps r) as [|st rest] eqn:Hsteps; [done|].
  apply playSteps_name.
Qed.

Lemma runAction_name i name a c cur t :
  runAction cfg i name a c cur = Awaiting t →
  task_name t = name ∧ task_action t = a ∧ task_signal t = c.
Proof.
  unfold runAction. case_bool_decide; [apply run_loop_from_name|].
  destruct (Engine.expandSequence _ _ _ _ _ _) as [r|]; [|done].
  destruct (steps r) as [|st rest] eqn:Hsteps; [done|].
  apply playSteps_name.
Qed.

Lemma settle_in_session base start c name i o (sts : list jsname) :
  abortController i = Some c → signal_aborted i c = false →
  currentActionName i = Some name →
  emitted i = base ++ (StateChange <$> sts) →
  currentState i = default start (last sts) →
  (∀ t, o = Awaiting t → task_name t = name) →
  in_session base start c name (settle i name o).
Proof.
  intros Hc Hs Hn He Hst Ho. unfold in_session.
  destruct o as [t|v|[|f]|]; simpl; try done.
  - repeat split; try done; eauto.
  - repeat split; try done. exists sts. by rewrite He, <- app_assoc.
  - repeat split; try done. exists sts. by rewrite He, <- app_assoc.
Qed.

Lemma resume_in_session base start c name i t :
  in_session base start c name (i, Pending t) →
  in_session base start c name (resume cfg i t Resolved).
Proof.
  intros (Hc & Hs & Hname & Hn & sts & He & Hst). simpl in *. subst name.
  unfold resume.
  apply settle_in_session with (sts := sts ++ [state (task_step t)]);
    try done.
  - simpl. rewrite He, fmap_app, <- app_assoc. done.
  - simpl. by rewrite last_snoc.
  - intros t'.
    destruct (playSteps cfg _ _ _ _ _ _ (task_rest t)) as [t1|v| |] eqn:Hp;
      try done.
    + intros [= <-]. by apply playSteps_name in Hp as (? & _).
    + unfold after_playSteps. destruct (task_frame t); [done|].
      intros H. by apply run_loop_from_name in H as (? & _).
Qed.

Lemma ticks_in_session base start c name k s :
  in_session base start c name s → in_session base start c name (ticks cfg k s).
Proof.
  revert s. induction k as [|k IH]; intros [i pr] Hs; simpl; [done|].
  destruct pr as [t| | | |]; try done.
  apply IH. by apply resume_in_session.
Qed.

End PlayerFacts.

Lemma stop_currentState i : currentState (stop i) = currentState i.
Proof.
  unfold stop. destruct (abortController i); [|done]. simpl.
  by destruct (name_truthy (currentActionName i)).
Qed.

Lemma play_in_session cfg i name a :
  cfg_actions cfg !! name = Some a → action_order a ≠ [] →
  ∃ c, in_session (emitted (stop i) ++ [ActionStart name]) (currentState i)
         c name (play cfg i name).
Proof.
  intros Ha Hord. unfold play. rewrite Ha.
  destruct (action_order a) as [|k rest] eqn:Ho; [done|].
  eexists. apply settle_in_session with (sts := []).
  - done.
  - unfold signal_aborted. simpl. by rewrite lookup_insert_eq.
  - done.
  - simpl. by rewrite app_nil_r.
  - simpl. apply stop_currentState.
  - intros t Ht. by apply runAction_name in Ht as (? & _).
Qed.

(** C2. A play call that completes naturally emits, after its "action
    started", state changes only and then exactly one "action ended", and
    the current-action query reports null; but the abort controller of the
    call stays in place, not aborted, so the is-playing query goes on
    reporting true. *)
Theorem natural_completion_leaves_isPlaying cfg i name a k i' :
  cfg_actions cfg !! name = Some a → action_order a ≠ [] →
  ticks cfg k (play cfg i name) = (i', Fulfilled) →
  (∃ sts, emitted i' = emitted (stop i) ++ [ActionStart name]
                         ++ (StateChange <$> sts) ++ [ActionEnd name]) ∧
  currentAction i' = None ∧
  isPlaying i' = true.
Proof.
  intros Ha Hord Hrun.
  destruct (play_in_session cfg i name a Ha Hord) as [c Hs].
  apply (ticks_in_session cfg _ _ _ _ k) in Hs. rewrite Hrun in Hs.
  destruct Hs as (Hc & Hsig & Hnone & sts & He). simpl in *.
  split; [|split].
  - exists sts. by rewrite He, <- app_assoc.
  - done.
  - unfold isPlaying. by rewrite Hc, Hsig.
Qed.

Lemma natural_completion_leaves_isPlaying_witness :
  (∃ sts, [ActionStart "left"; StateChange (Some "left"); ActionEnd "left"]
          = emitted (stop (new_instance "center")) ++ [ActionStart "left"]
              ++ (StateChange <$> sts) ++ [ActionEnd "left"]) ∧
  currentAction (inst (run Demo.shapes (idle (new_instance "center"))
                         [Play "left"; Tick])) = None ∧
  isPlaying (inst (run Demo.shapes (idle (new_instance "center"))
                     [Play "left"; Tick])) = true.
Proof.
  exact (natural_completion_leaves_isPlaying Demo.shapes
           (new_instance "center") "left" (Demo.sequence_of ["left"]) 1
           (inst (run Demo.shapes (idle (new_instance "center"))
                    [Play "left"; Tick]))
           eq_refl ltac:(discriminate) eq_refl).
Defined.

Section LoopFacts.
Context (cfg : config).


Lemma advance_app i xs ys : advance (advance i xs) ys = advance i (xs ++ ys).
Proof. unfold advance. by rewrite fmap_app, foldl_app. Qed.

Lemma advance_fields i sts :
  abortController (advance i sts) = abortController i ∧
  signals (advance i sts) = signals i ∧
  currentActionName (advance i sts) = currentActionName i ∧
  currentState (advance i sts) = landing (currentState i) sts ∧
  emitted (advance i sts) = emitted i ++ (StateChange ∘ state <$> sts).
Proof.
  revert i. induction sts as [|st sts IH] using rev_ind; intros i.
  - unfold advance, landing. simpl. by rewrite app_nil_r.
  - rewrite <- advance_app. unfold advance at 1 3 5 7 9. simpl.
    destruct (IH i) as (Hc & Hs & Hn & _ & He).
    rewrite Hc, Hs, Hn, He, landing_snoc, fmap_app, <- app_assoc. done.
Qed.


(** The steps of a list complete one after the other, and [runAction]
    goes on from the state of the last one. *)
Lemma ticks_play_steps name a c fr rest st i :
  signal_aborted i c = false →
  Forall (λ s, known (Some (cfg_validStates cfg)) (state s)) rest →
  ticks cfg (S (length rest))
    (i, Pending {| task_name := name; task_action := a; task_signal := c;
                   task_step := st; task_rest := rest; task_frame := fr |})
  = settle (advance i (st :: rest)) name
      (after_playSteps cfg (advance i (st :: rest)) name a c fr
         (landing None (st :: rest))).
Proof.
  revert st i. induction rest as [|st' rest IH]; intros st i Hsig Hk.
  - reflexivity.
  - inversion Hk as [|? ? Hst' Hrest]; subst.
    change (ticks cfg (S (length (st' :: rest))) ?s)
      with (ticks cfg (S (length rest))
              (resume cfg i {| task_name := name; task_action := a;
                               task_signal := c; task_step := st;
                               task_rest := st' :: rest; task_frame := fr |}
                 Resolved)).
    unfold resume. cbn [task_step task_rest task_name task_action
                        task_signal task_frame].
    unfold playSteps.
    change (signal_aborted (onStateChange i (state st)) c)
      with (signal_aborted i c).
    rewrite Hsig. unfold known in Hst'. rewrite Hst'.
    cbn [settle]. rewrite IH; [|done|done].
    unfold advance, landing. cbn [fmap list_fmap foldl].
    by rewrite !last_cons_cons.
Qed.

(** Every step an expansion of the player returns leads to a discovered
    state. *)
Lemma expand_loop_known a cur r :
  expand_loop cfg a cur = Ok r →
  Forall (λ s, known (Some (cfg_validStates cfg)) (state s)) (steps r).
Proof.
  unfold expand_loop, Engine.expandDirect, Engine.expandSequence.
  set (P := λ acc : list step * jsname,
         Forall (λ s, known (Some (cfg_validStates cfg)) (state s)) acc.1).
  case_bool_decide;
    match goal with
    | |- bind (for_of ?body ?s ?xs) _ = _ → _ =>
        destruct (for_of body s xs) as [acc|] eqn:Hloop; [|done]
    end; intros [= <-]; simpl; change (P acc); revert Hloop;
    apply for_of_invariant; try (by constructor).
  - intros s k s' Hs. unfold Engine.direct_entry.
    destruct (unknown_state _ _) eqn:Hk; [done|].
    case_bool_decide; intros [= <-]; [done|].
    unfold P. simpl. apply Forall_app. split; [done|]. by constructor.
  - intros s k s' Hs. unfold Engine.sequence_entry.
    destruct (Engine.normalizePath _ _) as [|x p]; [by intros [= <-]|].
    apply for_of_invariant; [|done].
    intros s1 y s2 Hs1. unfold Engine.sequence_visit.
    destruct (unknown_state _ _) eqn:Hk; [done|]. intros [= <-].
    unfold P. simpl. apply Forall_app. split; [done|]. by constructor.
Qed.


Lemma known_truthy st :
  EmptyString ∉ cfg_validStates cfg →
  known (Some (cfg_validStates cfg)) st → name_truthy st = true.
Proof.
  unfold known, unknown_state, name_truthy. intros Hne.
  destruct st as [s|]; [|done].
  rewrite negb_false_iff, bool_decide_eq_true. intros Hs.
  rewrite negb_true_iff, bool_decide_eq_false. by intros ->.
Qed.

Lemma landing_known_truthy start sts st rest :
  EmptyString ∉ cfg_validStates cfg →
  sts = st :: rest →
  Forall (λ s, known (Some (cfg_validStates cfg)) (state s)) sts →
  name_truthy (landing start sts) = true ∧
  landing start sts = landing None sts.
Proof.
  intros Hne -> Hk. unfold landing.
  destruct (last (state <$> st :: rest)) as [v|] eqn:Hlast.
  - split; [|done]. simpl.
    rewrite fmap_last in Hlast.
    destruct (last (st :: rest)) as [x|] eqn:Hx; [|done].
    simplify_eq/=. apply known_truthy; [done|].
    rewrite Forall_forall in Hk. apply Hk. by apply last_Some_elem_of.
  - by rewrite fmap_cons, last_cons in Hlast; destruct (last _).
Qed.



End LoopFacts.

Lemma trips_whole_count ip :
  all_zero ip = false →
  trips (loop_count (Some (Fin false ip []))) = Some (nat_of_digits ip).
Proof.
  intros Hz. unfold loop_count, truthy. rewrite Hz. simpl.
  by rewrite Nat.add_0_r.
Qed.


(** The Direct loop of the scenario: two iterations over [left], [right]
    from [center] play four steps and end on [right]. *)
Lemma direct_loop_example :
  let m := run Demo.shapes (idle (new_instance "center"))
             (Play "shuffle" :: repeat Tick 4) in
  emitted (inst m)
  = [ActionStart "shuffle"; StateChange (Some "left");
     StateChange (Some "right"); StateChange (Some "left");
     StateChange (Some "right"); ActionEnd "shuffle"] ∧
  currentState (inst m) = Some "right" ∧ inflight m = None.
Proof. by vm_compute. Qed.


(** ** Stopping *)

Lemma settle_pending i name o i' t :
  settle i name o = (i', Pending t) → i' = i ∧ o = Awaiting t.
Proof. destruct o as [?|?|[|?]|]; simpl; intros [= <- <-]; done || by intros. Qed.

Lemma stop_active i c name :
  abortController i = Some c → currentActionName i = Some name →
  name ≠ EmptyString →
  stop i = {| abortController := None; signals := <[c := true]> (signals i);
              currentActionName := None; currentState := currentState i;
              emitted := emitted i ++ [ActionEnd name] |}.
Proof.
  intros Hc Hn Hne. unfold stop. rewrite Hc. cbn [currentActionName].
  rewrite Hn. unfold name_truthy.
  by rewrite (bool_decide_eq_false_2 _ Hne).
Qed.

Lemma stop_aborts i c :
  abortController i = Some c → signal_aborted (stop i) c = true.
Proof.
  intros Hc. unfold stop. rewrite Hc. cbn [currentActionName].
  unfold signal_aborted.
  destruct (name_truthy (currentActionName i)); simpl;
    by rewrite lookup_insert_eq.
Qed.

Lemma stop_without_controller i : abortController i = None → stop i = i.
Proof. intros Hc. unfold stop. by rewrite Hc. Qed.

(** A page on which no call is under way changes only when [play] is
    called. *)
Lemma history_at_rest cfg p hs :
  abortController (vf p) = None → awaited p = None → jobs p = [] →
  Forall (λ h, ∀ n, h ≠ CallPlay n) hs →
  history cfg p hs = p.
Proof.
  intros Hc Haw Hq Hhs. unfold history.
  induction Hhs as [|h hs Hh _ IH]; [done|]. cbn [foldl].
  replace (happen cfg p h) with p; [done|].
  unfold happen. destruct (frozen p) eqn:Hf; [done|].
  destruct h as [n| | |].
  - by destruct (Hh n).
  - cbv zeta. rewrite (stop_without_controller _ Hc), Haw. cbn [after_call].
    destruct p. simpl in *. by subst.
  - by rewrite Haw.
  - by rewrite Hq.
Qed.

(** C7. [stop()] on an instance that holds a controller and records an
    action with a non-empty name emits exactly one "action ended" for that
    action and clears the session, leaving the recorded state as it is.
    When the call it stops awaits a step whose promise is still pending,
    the call is dropped: whatever completes later, nothing changes until
    the next [play], so the recorded state stays that of the last step
    whose continuation ran.  Without a controller [stop()] changes
    nothing, and without a recorded action name it emits nothing.

    The code departs from the claim in three places.  For an action
    registered under the empty name [stop()] emits no "action ended" and
    the current-action query keeps reporting the name.  When the promise
    of the awaited step was resolved before [stop()] is called, as
    [playStep] does at once for a step without a numeric change, the
    continuation still runs: it records the destination of the
    interrupted step and notifies the state change after the "action
    ended", and after the last step of the action it notifies a second
    "action ended".  And after a natural completion, when no session is
    active, [stop()] still clears the controller that was left in
    place. *)
Theorem stop_ends_session :
  (∀ i c name,
      abortController i = Some c → currentActionName i = Some name →
      name ≠ EmptyString →
      emitted (stop i) = emitted i ++ [ActionEnd name] ∧
      currentAction (stop i) = None ∧
      isPlaying (stop i) = false ∧
      currentState (stop i) = currentState i) ∧
  (∀ cfg p t,
      frozen p = false → awaited p = Some t → jobs p = [] →
      abortController (vf p) = Some (task_signal t) →
      let p' := happen cfg p CallStop in
      vf p' = stop (vf p) ∧ awaited p' = None ∧ jobs p' = [] ∧
      ∀ hs, Forall (λ h, ∀ n, h ≠ CallPlay n) hs → history cfg p' hs = p') ∧
  (∀ cfg p t queue,
      frozen p = false → jobs p = StepsJob t :: queue →
      let p1 := happen cfg p NextJob in
      currentState (vf p1) = state (task_step t) ∧
      currentState (vf (happen cfg p1 CallStop)) = state (task_step t)) ∧
  (∀ i, abortController i = None → stop i = i) ∧
  (∀ cfg p, abortController (vf p) = None → awaited p = None →
            happen cfg p CallStop = p) ∧
  (∀ i, name_truthy (currentActionName i) = false →
        emitted (stop i) = emitted i ∧
        currentState (stop i) = currentState i ∧
        currentActionName (stop i) = currentActionName i) ∧
  (let p := history Demo.shapes (new_page "left")
              [CallPlay "right"; StepDone; NextJob] in
   let p' := happen Demo.shapes p CallStop in
   (∃ t, awaited p = Some t ∧ state (task_step t) = Some "right") ∧
   jobs p = [] ∧
   emitted (vf p')
   = [ActionStart "right"; StateChange (Some "center"); ActionEnd "right"] ∧
   currentState (vf p') = Some "center" ∧
   history Demo.shapes p' [StepDone; NextJob; NextJob; NextJob] = p') ∧
  (let p := history Demo.unnamed (new_page "center") [CallPlay EmptyString] in
   let p' := happen Demo.unnamed p CallStop in
   (∃ t, awaited p = Some t ∧ task_name t = EmptyString) ∧
   emitted (vf p') = [ActionStart EmptyString] ∧
   currentAction (vf p') = Some EmptyString) ∧
  (let p := history Demo.shapes (new_page "left")
              [CallPlay "right"; StepDone; CallStop; NextJob; NextJob; NextJob] in
   emitted (vf p)
   = [ActionStart "right"; ActionEnd "right"; StateChange (Some "center")] ∧
   currentState (vf p) = Some "center" ∧ jobs p = [] ∧ awaited p = None) ∧
  (let p := history Demo.shapes (new_page "center")
              [CallPlay "left"; StepDone; CallStop; NextJob; NextJob; NextJob] in
   emitted (vf p)
   = [ActionStart "left"; ActionEnd "left"; StateChange (Some "left");
      ActionEnd "left"] ∧
   currentState (vf p) = Some "left" ∧ jobs p = [] ∧ awaited p = None) ∧
  (let p := history Demo.shapes (new_page "center")
              [CallPlay "left"; StepDone; NextJob; NextJob; NextJob] in
   awaited p = None ∧ jobs p = [] ∧ currentAction (vf p) = None ∧
   isPlaying (vf p) = true ∧
   emitted (vf (happen Demo.shapes p CallStop)) = emitted (vf p) ∧
   isPlaying (vf (happen Demo.shapes p CallStop)) = false).
Proof.
  split; [|split; [|split; [|split; [|split; [|split; [|split;
    [|split; [|split; [|split]]]]]]]]].
  - intros i c name Hc Hn Hne. by rewrite (stop_active _ _ _ Hc Hn Hne).
  - intros cfg p t Hf Ht Hq Hc. cbv zeta. unfold happen. rewrite Hf.
    cbv zeta. cbn [vf awaited jobs]. rewrite Ht. unfold after_call.
    rewrite (stop_aborts _ _ Hc). split; [done|]. split; [done|].
    split; [done|]. intros hs Hhs. apply history_at_rest; try done.
    cbn [vf]. unfold stop. rewrite Hc. cbn [currentActionName].
    by destruct (name_truthy _).
  - intros cfg p t queue Hf Hq. cbv zeta.
    assert (currentState (vf (happen cfg p NextJob)) = state (task_step t))
      as Hst.
    { unfold happen. rewrite Hf, Hq. cbn [run_job].
      by destruct (playSteps cfg _ _ _ _ _ _ _). }
    split; [done|]. set (p1 := happen cfg p NextJob) in *.
    unfold happen. destruct (frozen p1); [done|]. cbn [vf].
    by rewrite stop_currentState.
  - apply stop_without_controller.
  - intros cfg p Hc Haw. unfold happen. destruct (frozen p) eqn:Hf; [done|].
    cbv zeta. rewrite (stop_without_controller _ Hc), Haw. cbn [after_call].
    destruct p. simpl in *. by subst.
  - intros i Hn. unfold stop. destruct (abortController i); [|done].
    cbn [currentActionName]. by rewrite Hn.
  - cbv zeta. split; [by eexists|]. repeat split.
  - cbv zeta. split; [by eexists|]. repeat split.
  - cbv zeta. repeat split.
  - cbv zeta. repeat split.
  - cbv zeta. repeat split.
Qed.

(** ** Failing play calls *)

Section FailureFacts.
Context (cfg : config).

Lemma expandSequence_known routes actionMs jsonMs order cur r :
  Engine.expandSequence routes actionMs jsonMs (Some (cfg_validStates cfg))
    order cur = Ok r →
  Forall (λ s, known (Some (cfg_validStates cfg)) (state s)) (steps r).
Proof.
  intros Hr. apply (expand_loop_known
    {| cfg_routes := routes; cfg_ms := jsonMs; cfg_actions := ∅;
       cfg_validStates := cfg_validStates cfg |}
    {| action_type := None; action_order := order; action_ms := actionMs;
       action_count := None; action_mode := None |} cur r).
  unfold expand_loop. simpl. exact Hr.
Qed.





End FailureFacts.




(** A name that every object inherits is found by the lookup of [play]
    although no action is registered under it: the call is rejected by
    the [TypeError] of [action.order.length] and nothing is notified. *)
Lemma play_of_inherited_name cfg i name :
  cfg_actions cfg !! name = None → inherited name = true →
  play cfg i name = (i, Rejected (OrderMissing name)).
Proof. intros Hno Hin. unfold play. by rewrite Hno, Hin. Qed.

Lemma play_of_constructor :
  play Demo.shapes (new_instance "center") "constructor"
  = (new_instance "center", Rejected (OrderMissing "constructor")).
Proof. reflexivity. Qed.


(** ** Transform strings *)

Arguments str : simpl never.

Lemma digit_of_char_of_digit d : digit_of_char (char_of_digit d) = Some d.
Proof. by destruct d. Qed.

Lemma char_of_digit_numeric d : is_numeric (char_of_digit d) = true.
Proof. by destruct d. Qed.

Lemma digits_text_numeric ds : Forall (λ c, is_numeric c = true) (digits_text ds).
Proof.
  induction ds as [|d ds IH]; constructor; [apply char_of_digit_numeric|done].
Qed.

Lemma take_digits_text ds s :
  (∀ c s', s = c :: s' → digit_of_char c = None) →
  take_digits (digits_text ds ++ s) = (ds, s).
Proof.
  intros Hs. induction ds as [|d ds IH]; simpl.
  - destruct s as [|c s']; [done|]. simpl. by rewrite (Hs c s' eq_refl).
  - rewrite digit_of_char_of_digit.
    change (char_of_digit <$> ds) with (digits_text ds). by rewrite IH.
Qed.

Lemma norm_int_nonempty ds : norm_int ds ≠ [].
Proof. unfold norm_int. by destruct (strip_leading ds). Qed.

Lemma plain_decimal_text x :
  plain_decimal x = true →
  ∃ neg ip fp, x = Fin neg ip fp ∧ norm x = x ∧ ip ≠ [] ∧
               toString x = numeral_text neg ip fp.
Proof.
  destruct x as [| | |neg ip fp]; try done. unfold plain_decimal.
  intros [Hcanon Hplain]%andb_true_iff.
  unfold canonical in Hcanon. apply bool_decide_eq_true in Hcanon.
  exists neg, ip, fp. repeat split; try done.
  - injection Hcanon as _ Hip _. rewrite <- Hip. apply norm_int_nonempty.
  - unfold toString. rewrite Hcanon, Hplain. done.
Qed.

Lemma numeral_text_numeral neg ip fp :
  ip ≠ [] → numeral (numeral_text neg ip fp).
Proof.
  intros Hip. unfold numeral, numeral_text. split.
  - destruct neg; [done|]. destruct ip; [done|]. done.
  - apply Forall_app. split; [by destruct neg; repeat constructor|].
    apply Forall_app. split; [apply digits_text_numeric|].
    destruct fp; [done|]. constructor; [done|]. apply digits_text_numeric.
Qed.

(** [parseFloat] reads the text of a plain numeral back. *)
Lemma parseFloat_numeral_text neg ip fp :
  ip ≠ [] → norm (Fin neg ip fp) = Fin neg ip fp →
  parseFloat (numeral_text neg ip fp) = Fin neg ip fp.
Proof.
  intros Hip Hnorm. unfold parseFloat, numeral_text.
  assert (∀ s, (∀ c s', s = c :: s' → digit_of_char c = None) →
    match digits_text ip ++ s with
    | c :: r => if bool_decide (c = "-"%char) then (true, r)
                else (false, digits_text ip ++ s)
    | [] => (false, digits_text ip ++ s)
    end = (false, digits_text ip ++ s)) as Hunsigned.
  { intros s _. destruct ip as [|d ip']; [done|]. by destruct d. }
  set (frac := match fp with [] => [] | _ => "."%char :: digits_text fp end).
  assert (∀ c s', frac = c :: s' → digit_of_char c = None) as Hfrac.
  { unfold frac. destruct fp; [done|]. by intros c s' [= <- _]. }
  assert (match frac with
          | c :: r => if bool_decide (c = "."%char) then (take_digits r).1 else []
          | [] => []
          end = fp) as Hfp.
  { unfold frac. destruct fp as [|d fp']; [done|].
    rewrite bool_decide_eq_true_2 by done.
    rewrite <- (app_nil_r (digits_text (d :: fp'))).
    by rewrite take_digits_text. }
  destruct neg; cbn [app].
  - rewrite bool_decide_eq_true_2 by done. cbn [fst snd].
    rewrite take_digits_text by done. cbn [fst snd]. rewrite Hfp.
    destruct ip; [done|exact Hnorm].
  - rewrite Hunsigned by done. cbn [fst snd].
    rewrite take_digits_text by done. cbn [fst snd]. rewrite Hfp.
    destruct ip; [done|exact Hnorm].
Qed.

Lemma parseFloat_toString x :
  plain_decimal x = true → parseFloat (toString x) = x ∧ numeral (toString x).
Proof.
  intros Hx. destruct (plain_decimal_text x Hx) as (neg & ip & fp & -> & Hn & Hip & ->).
  split; [by apply parseFloat_numeral_text | by apply numeral_text_numeral].
Qed.

(** *** The matcher on the texts [buildTransform] writes *)

Lemma strip_prefix_app l s : strip_prefix l (l ++ s) = Some s.
Proof.
  induction l as [|a l IH]; simpl; [done|].
  by rewrite bool_decide_eq_true_2.
Qed.

Lemma star_stop {R} p (k : jsstring → option R) s :
  (∀ c s', s = c :: s' → p c = false) → star p k s = k s.
Proof.
  intros Hs. destruct s as [|c s']; [done|]. simpl.
  by rewrite (Hs c s' eq_refl).
Qed.

Lemma star_run {R} p (k : jsstring → option R) xs tail r :
  Forall (λ c, p c = true) xs →
  star p k tail = Some r → star p k (xs ++ tail) = Some r.
Proof.
  intros Hxs Htail. induction Hxs as [|x xs Hx _ IH]; [done|].
  simpl. by rewrite Hx, IH.
Qed.

Lemma numeric_cases c :
  is_numeric c = true →
  c = "-"%char ∨ c = "."%char ∨ ∃ d, c = char_of_digit d.
Proof.
  unfold is_numeric. rewrite !orb_true_iff, !bool_decide_eq_true.
  intros [[->| ->]|[d Hd]]; [by left|by right; left|].
  right; right. exists d.
  destruct c as [[] [] [] [] [] [] [] []]; simpl in Hd; try done;
    by injection Hd as <-.
Qed.

Lemma numeric_not_space c : is_numeric c = true → is_space c = false.
Proof. intros [->|[->|[d ->]]]%numeric_cases; [done..|by destruct d]. Qed.

Lemma numeric_not_separator c : is_numeric c = true → is_separator c = false.
Proof. intros [->|[->|[d ->]]]%numeric_cases; [done..|by destruct d]. Qed.

Lemma numeral_head_not_space X s c s' :
  numeral X → X ++ s = c :: s' → is_space c = false.
Proof.
  intros [Hne Hall]. destruct X as [|x X']; [done|].
  intros [= <- _]. inversion Hall; subst. by apply numeric_not_space.
Qed.

(** A group of one or more characters of a class takes the whole run when
    the rest of the pattern accepts what follows the run. *)
Lemma match_group_plus {R} p xs tail caps
    (k : jsstring → captures → option R) r :
  xs ≠ [] → Forall (λ c, p c = true) xs →
  (∀ c s', tail = c :: s' → p c = false) →
  k tail (caps ++ [Some xs]) = Some r →
  match_re (Group (Plus p)) (xs ++ tail) caps k = Some r.
Proof.
  intros Hne Hxs Htail Hk. cbn [match_re].
  destruct xs as [|x xs']; [done|]. inversion Hxs as [|? ? Hx Hxs']; subst.
  cbn [app]. rewrite Hx. apply star_run; [done|].
  rewrite star_stop by done.
  replace (length (x :: xs' ++ tail) - length tail)%nat
    with (length (x :: xs')) by (simpl; rewrite length_app; lia).
  change (x :: xs' ++ tail) with ((x :: xs') ++ tail).
  rewrite (take_app_length (x :: xs') tail).
  rewrite insert_app_r_alt by done.
  rewrite Nat.sub_diag. done.
Qed.

Section MatchSteps.
Context {R : Type}.
Implicit Types (k : jsstring → captures → option R).

Lemma match_seq r1 r2 s caps k :
  match_re (Seq r1 r2) s caps k
  = match_re r1 s caps (λ s' caps', match_re r2 s' caps' k).
Proof. done. Qed.

Lemma match_lit l s caps k : match_re (Lit l) (l ++ s) caps k = k s caps.
Proof. cbn [match_re]. by rewrite strip_prefix_app. Qed.

Lemma match_end s caps k : match_re (Lit []) s caps k = k s caps.
Proof. done. Qed.

Lemma match_star_stop p s caps k :
  (∀ c s', s = c :: s' → p c = false) →
  match_re (Star p) s caps k = k s caps.
Proof. intros Hs. cbn [match_re]. by rewrite star_stop. Qed.

Lemma match_class p c s caps k :
  p c = true → match_re (Class p) (c :: s) caps k = k s caps.
Proof. intros Hc. cbn [match_re]. by rewrite Hc. Qed.

Lemma match_opt_taken r s caps k res :
  match_re r s caps k = Some res → match_re (Opt r) s caps k = Some res.
Proof. intros Hr. cbn [match_re]. by rewrite Hr. Qed.

End MatchSteps.

Ltac head_not p :=
  lazymatch goal with
  | HX : numeral ?X |- ∀ c s', ?X ++ _ = c :: s' → is_space c = false =>
      intros ? ?; apply (numeral_head_not_space X); exact HX
  | |- ∀ c s', str _ ++ _ = c :: s' → _ = false =>
      intros ? ? [= <- _]; reflexivity
  | |- ∀ c s', [] = c :: s' → _ = false => intros ? ? [=]
  | |- ∀ c s', _ :: _ = c :: s' → _ = false =>
      intros ? ? [= <- _]; reflexivity
  end.

Ltac match_group H :=
  apply match_group_plus; [apply H | apply H | head_not is_numeric | ].

Lemma exec_translate X Y s :
  numeral X → numeral Y →
  exec_at translate_re
    (str "translate(" ++ X ++ str "," ++ Y ++ str ")" ++ s)
  = Some [Some X; Some Y].
Proof.
  intros HX HY. unfold exec_at, translate_re, cat. cbn [foldr].
  rewrite match_seq, match_lit, match_seq, match_star_stop by head_not is_space.
  rewrite match_seq. match_group HX.
  rewrite match_seq, match_star_stop by head_not is_space.
  rewrite match_seq. change (str "," ++ ?t) with (","%char :: t).
  rewrite match_class by done.
  rewrite match_seq, match_star_stop by head_not is_space.
  rewrite match_seq. match_group HY.
  rewrite match_seq, match_star_stop by head_not is_space.
  rewrite match_seq, match_lit, match_end. done.
Qed.

Lemma exec_scale X Y s :
  numeral X → numeral Y →
  exec_at scale_re (str "scale(" ++ X ++ str "," ++ Y ++ str ")" ++ s)
  = Some [Some X; Some Y].
Proof.
  intros HX HY. unfold exec_at, scale_re, cat. cbn [foldr].
  rewrite match_seq, match_lit, match_seq, match_star_stop by head_not is_space.
  rewrite match_seq. match_group HX.
  rewrite match_seq. apply match_opt_taken.
  rewrite match_seq, match_star_stop by head_not is_space.
  rewrite match_seq. change (str "," ++ ?t) with (","%char :: t).
  rewrite match_class by done.
  rewrite match_seq, match_star_stop by head_not is_space.
  rewrite match_seq. match_group HY.
  rewrite match_end.
  rewrite match_seq, match_star_stop by head_not is_space.
  rewrite match_seq, match_lit, match_end. done.
Qed.

Lemma exec_rotate X s :
  numeral X →
  exec_at rotate_re (str "rotate(" ++ X ++ str ")" ++ s) = Some [Some X].
Proof.
  intros HX. unfold exec_at, rotate_re, cat. cbn [foldr].
  rewrite match_seq, match_lit, match_seq, match_star_stop by head_not is_space.
  rewrite match_seq. match_group HX.
  rewrite match_end. done.
Qed.

Lemma search_found r s m : exec_at r s = Some m → search r s = Some m.
Proof. intros Hm. destruct s; simpl; by rewrite Hm. Qed.

Lemma search_skip_run a l rs X s :
  is_numeric a = false → Forall (λ c, is_numeric c = true) X →
  search (cat (Lit (a :: l) :: rs)) (X ++ s) = search (cat (Lit (a :: l) :: rs)) s.
Proof.
  intros Ha HX. induction HX as [|x X Hx _ IH]; [done|].
  cbn [app search]. rewrite <- IH.
  replace (exec_at _ (x :: X ++ s)) with (@None captures); [done|].
  unfold exec_at, cat. cbn [foldr match_re strip_prefix].
  rewrite bool_decide_eq_false_2; [done|]. intros ->. congruence.
Qed.

Lemma translate_run X s :
  numeral X → search translate_re (X ++ s) = search translate_re s.
Proof. intros HX. apply (search_skip_run "t"%char); [done|apply HX]. Qed.

Lemma rotate_run X s :
  numeral X → search rotate_re (X ++ s) = search rotate_re s.
Proof. intros HX. apply (search_skip_run "r"%char); [done|apply HX]. Qed.

Lemma scale_run X s :
  numeral X → search scale_re (X ++ s) = search scale_re s.
Proof. intros HX. apply (search_skip_run "s"%char); [done|apply HX]. Qed.

Section SearchParts.
Context (X Y : jsstring) (HX : numeral X) (HY : numeral Y).

Lemma translate_in_translate s :
  search translate_re (translate_text X Y ++ s) = Some [Some X; Some Y].
Proof.
  apply search_found. unfold translate_text. rewrite <- !app_assoc.
  by apply exec_translate.
Qed.

Lemma rotate_in_rotate s :
  search rotate_re (rotate_text X ++ s) = Some [Some X].
Proof.
  apply search_found. unfold rotate_text. rewrite <- !app_assoc.
  by apply exec_rotate.
Qed.

Lemma scale_in_scale s :
  search scale_re (scale_text X Y ++ s) = Some [Some X; Some Y].
Proof.
  apply search_found. unfold scale_text. rewrite <- !app_assoc.
  by apply exec_scale.
Qed.

(** No pattern matches inside the text of another part. *)
Lemma translate_in_rotate s :
  search translate_re (rotate_text X ++ s) = search translate_re s.
Proof.
  unfold rotate_text. rewrite <- !app_assoc.
  change (search translate_re (str "rotate(" ++ ?t)) with (search translate_re t).
  rewrite translate_run by done. reflexivity.
Qed.

Lemma translate_in_scale s :
  search translate_re (scale_text X Y ++ s) = search translate_re s.
Proof.
  unfold scale_text. rewrite <- !app_assoc.
  change (search translate_re (str "scale(" ++ ?t)) with (search translate_re t).
  rewrite translate_run by done.
  change (search translate_re (str "," ++ ?t)) with (search translate_re t).
  rewrite translate_run by done. reflexivity.
Qed.

Lemma rotate_in_translate s :
  search rotate_re (translate_text X Y ++ s) = search rotate_re s.
Proof.
  unfold translate_text. rewrite <- !app_assoc.
  change (search rotate_re (str "translate(" ++ ?t)) with (search rotate_re t).
  rewrite rotate_run by done.
  change (search rotate_re (str "," ++ ?t)) with (search rotate_re t).
  rewrite rotate_run by done. reflexivity.
Qed.

Lemma rotate_in_scale s :
  search rotate_re (scale_text X Y ++ s) = search rotate_re s.
Proof.
  unfold scale_text. rewrite <- !app_assoc.
  change (search rotate_re (str "scale(" ++ ?t)) with (search rotate_re t).
  rewrite rotate_run by done.
  change (search rotate_re (str "," ++ ?t)) with (search rotate_re t).
  rewrite rotate_run by done. reflexivity.
Qed.

Lemma scale_in_translate s :
  search scale_re (translate_text X Y ++ s) = search scale_re s.
Proof.
  unfold translate_text. rewrite <- !app_assoc.
  change (search scale_re (str "translate(" ++ ?t)) with (search scale_re t).
  rewrite scale_run by done.
  change (search scale_re (str "," ++ ?t)) with (search scale_re t).
  rewrite scale_run by done. reflexivity.
Qed.

Lemma scale_in_rotate s :
  search scale_re (rotate_text X ++ s) = search scale_re s.
Proof.
  unfold rotate_text. rewrite <- !app_assoc.
  change (search scale_re (str "rotate(" ++ ?t)) with (search scale_re t).
  rewrite scale_run by done. reflexivity.
Qed.

End SearchParts.

Create Rewrite HintDb transform.
#[local] Hint Rewrite translate_in_translate rotate_in_rotate scale_in_scale
  translate_in_rotate translate_in_scale rotate_in_translate rotate_in_scale
  scale_in_translate scale_in_rotate using assumption : transform.

Lemma translate_past_space s :
  search translate_re (" "%char :: s) = search translate_re s.
Proof. reflexivity. Qed.

Lemma rotate_past_space s :
  search rotate_re (" "%char :: s) = search rotate_re s.
Proof. reflexivity. Qed.

Lemma scale_past_space s :
  search scale_re (" "%char :: s) = search scale_re s.
Proof. reflexivity. Qed.

Lemma search_at_end :
  search translate_re [] = None ∧ search rotate_re [] = None ∧
  search scale_re [] = None.
Proof. done. Qed.

#[local] Hint Rewrite translate_past_space rotate_past_space scale_past_space
  (proj1 search_at_end) (proj1 (proj2 search_at_end))
  (proj2 (proj2 search_at_end)) : transform.

Lemma join_glue parts : join parts = glue parts.
Proof.
  induction parts as [|p [|q ps] IH]; [done|by cbn; rewrite app_nil_r|].
  cbn [join glue] in *. by rewrite IH.
Qed.

Lemma strict_eq_plain x y :
  plain_decimal x = true → plain_decimal y = true →
  strict_eq x y = bool_decide (x = y).
Proof.
  intros Hx Hy.
  destruct (plain_decimal_text x Hx) as (? & ? & ? & -> & Hnx & _).
  destruct (plain_decimal_text y Hy) as (? & ? & ? & -> & Hny & _).
  unfold strict_eq. by rewrite Hnx, Hny.
Qed.

Lemma orb_negb_false a b : negb a || negb b = false → a = true ∧ b = true.
Proof. by destruct a, b. Qed.

Lemma parseTransform_text s :
  s ≠ [] → parseTransform (Some s) = parse_text s.
Proof. intros Hs. unfold parseTransform. by rewrite bool_decide_eq_false_2. Qed.

Lemma transform_round_trip_plain c :
  plain_components c → parseTransform (buildTransform c) = c.
Proof.
  destruct c as [tx ty sx sy r].
  intros (Htx & Hty & Hsx & Hsy & Hr).
  cbn [translateX translateY scaleX scaleY rotate] in *.
  destruct (parseFloat_toString _ Htx) as [Ptx Ntx].
  destruct (parseFloat_toString _ Hty) as [Pty Nty].
  destruct (parseFloat_toString _ Hsx) as [Psx Nsx].
  destruct (parseFloat_toString _ Hsy) as [Psy Nsy].
  destruct (parseFloat_toString _ Hr) as [Pr Nr].
  unfold buildTransform, translate_part, rotate_part, scale_part.
  cbn [translateX translateY scaleX scaleY rotate].
  rewrite !strict_eq_plain by done.
  destruct (negb (bool_decide (tx = zero)) || negb (bool_decide (ty = zero)))
    eqn:Et;
  destruct (negb (bool_decide (r = zero))) eqn:Er;
  destruct (negb (bool_decide (sx = one)) || negb (bool_decide (sy = one)))
    eqn:Es;
  try (apply orb_negb_false in Et as [->%bool_decide_eq_true ->%bool_decide_eq_true]);
  try (apply negb_false_iff in Er as ->%bool_decide_eq_true);
  try (apply orb_negb_false in Es as [->%bool_decide_eq_true ->%bool_decide_eq_true]);
  cbn [app]; try reflexivity;
  (rewrite parseTransform_text by
     (rewrite join_glue; unfold glue, translate_text, rotate_text, scale_text;
      discriminate));
  rewrite join_glue; cbn [glue]; unfold parse_text;
  autorewrite with transform;
  cbn [group mjoin lookup list_lookup Nat.sub parseFloat_of option_join
       translateX translateY scaleX scaleY rotate identity];
  rewrite ?Ptx, ?Pty, ?Psx, ?Psy, ?Pr; reflexivity.
Qed.

Lemma buildTransform_groups c :
  plain_components c →
  buildTransform c =
  match (if decide (translateX c = zero ∧ translateY c = zero) then []
         else [translate_text (toString (translateX c)) (toString (translateY c))])
        ++ (if decide (rotate c = zero) then []
            else [rotate_text (toString (rotate c))])
        ++ (if decide (scaleX c = one ∧ scaleY c = one) then []
            else [scale_text (toString (scaleX c)) (toString (scaleY c))]) with
  | [] => None
  | parts => Some (join parts)
  end.
Proof.
  intros (Htx & Hty & Hsx & Hsy & Hr).
  unfold buildTransform, translate_part, rotate_part, scale_part.
  rewrite !strict_eq_plain by done.
  repeat case_bool_decide; repeat case_decide; simpl; try done; tauto.
Qed.

(** C9. [parseTransform] reads an absent transform as the identity
    (0,0,1,1,0); [buildTransform] writes the translate group, then the
    rotate group, then the scale group, leaving out each group that is at
    its identity, and writes nothing at all for the identity; and for
    components whose five values print as plain decimal numerals, parsing
    what [buildTransform] wrote gives the components back. *)
Theorem transform_round_trip :
  parseTransform None = identity ∧
  parseTransform (Some []) = identity ∧
  identity = {| translateX := zero; translateY := zero;
                scaleX := one; scaleY := one; rotate := zero |} ∧
  parseTransform (Some (str "translate(10, 20) rotate(45) scale(2)"))
  = {| translateX := n10; translateY := n20; scaleX := n2;
       scaleY := n2; rotate := n45 |} ∧
  (∀ c, plain_components c →
        buildTransform c =
        match (if decide (translateX c = zero ∧ translateY c = zero) then []
               else [translate_text (toString (translateX c))
                       (toString (translateY c))])
              ++ (if decide (rotate c = zero) then []
                  else [rotate_text (toString (rotate c))])
              ++ (if decide (scaleX c = one ∧ scaleY c = one) then []
                  else [scale_text (toString (scaleX c)) (toString (scaleY c))])
        with
        | [] => None
        | parts => Some (join parts)
        end) ∧
  (∀ c, plain_components c → parseTransform (buildTransform c) = c) ∧
  buildTransform identity = None.
Proof.
  split; [done|]. split; [done|]. split; [done|]. split; [by vm_compute|].
  split; [apply buildTransform_groups|].
  split; [apply transform_round_trip_plain|done].
Qed.

Lemma transform_round_trip_witness :
  parseTransform
    (Some (str "translate(10,-0.5) rotate(45) scale(2,1)"))
  = {| translateX := n10; translateY := Fin true [d0] [d5];
       scaleX := n2; scaleY := one; rotate := n45 |}.
Proof.
  destruct transform_round_trip as (_ & _ & _ & _ & _ & Hround & _).
  exact (Hround {| translateX := n10; translateY := Fin true [d0] [d5];
                   scaleX := n2; scaleY := one;
                   rotate := n45 |}
           (conj eq_refl (conj eq_refl (conj eq_refl (conj eq_refl eq_refl))))).
Defined.

(** A value printed with an exponent is not read back: the digits stop at
    the [e]. *)
Lemma round_trip_needs_plain_numerals :
  let big := Fin false (d1 :: replicate 21 d0) [] in
  let c := {| translateX := big; translateY := zero;
              scaleX := one; scaleY := one; rotate := zero |} in
  buildTransform c = Some (str "translate(1e+21,0)") ∧
  parseTransform (buildTransform c) = identity.
Proof. by vm_compute. Qed.

(** * Further properties of the engine *)

(** ** Durations of the steps *)

(** X1. [resolveMs] returns a number greater than zero whatever its three
    candidates are: a candidate that is not a number, is [NaN], zero or
    negative is passed over, and the fallback 120 is positive. *)
Theorem resolveMs_positive actionMs routeMs jsonMs :
  gt0 (Engine.resolveMs actionMs routeMs jsonMs) = true.
Proof.
  unfold Engine.resolveMs, Engine.is_positive_number.
  destruct actionMs as [| | |x| |]; try destruct (gt0 x) eqn:Hx; try done;
    destruct routeMs as [| | |y| |]; try destruct (gt0 y) eqn:Hy; try done;
    destruct jsonMs as [| | |z| |]; try destruct (gt0 z) eqn:Hz; done.
Qed.

Section StepFacts.
Context (routes : routeTable) (actionMs jsonMs : jsval)
        (validStates : option (gset string)).

Lemma positive_steps_snoc a st c x :
  positive_steps a →
  positive_steps (a.1 ++ [{| state := st; ms := Engine.resolveMs actionMs x jsonMs |}], c).
Proof.
  intros Ha. apply Forall_app. split; [done|].
  constructor; [apply resolveMs_positive|done].
Qed.

Lemma sequence_entry_positive a k a' :
  positive_steps a →
  Engine.sequence_entry routes actionMs jsonMs validStates a k = Ok a' →
  positive_steps a'.
Proof.
  unfold Engine.sequence_entry. intros Ha.
  destruct (Engine.normalizePath _ _) as [|s p]; [by intros [= <-]|].
  apply for_of_invariant; [|done].
  intros s1 y s2 Hs1. unfold Engine.sequence_visit.
  destruct (unknown_state _ _); [done|]. intros [= <-].
  by apply positive_steps_snoc.
Qed.

Lemma direct_entry_positive a k a' :
  positive_steps a →
  Engine.direct_entry routes actionMs jsonMs validStates a k = Ok a' →
  positive_steps a'.
Proof.
  unfold Engine.direct_entry. intros Ha.
  destruct (unknown_state _ _); [done|].
  case_bool_decide; intros [= <-]; [done|]. by apply positive_steps_snoc.
Qed.

Lemma by_state_sequence_entry_positive a k a' :
  positive_steps a →
  EngineByState.sequence_entry routes actionMs jsonMs validStates a k = Ok a' →
  positive_steps a'.
Proof.
  unfold EngineByState.sequence_entry. intros Ha.
  destruct (unknown_state _ _); [done|].
  apply for_of_invariant; [|done].
  intros s1 y s2 Hs1. unfold EngineByState.sequence_visit.
  destruct (unknown_state _ _); [done|]. intros [= <-].
  by apply positive_steps_snoc.
Qed.

Lemma by_state_direct_entry_positive a k a' :
  positive_steps a →
  EngineByState.direct_entry routes actionMs jsonMs validStates a k = Ok a' →
  positive_steps a'.
Proof.
  unfold EngineByState.direct_entry. intros Ha.
  destruct (unknown_state _ _); [done|].
  case_bool_decide; intros [= <-]; [done|]. by apply positive_steps_snoc.
Qed.
End StepFacts.

(** X2. Every step of every expansion that returns, in both copies of
    engine.js, has a duration greater than zero. *)
Theorem expansion_durations_positive
    (routes : routeTable) (actionMs jsonMs : jsval)
    (validStates : option (gset string)) (order : list string)
    (currentState : jsname) (e : expansion) :
  Engine.expandSequence routes actionMs jsonMs validStates order currentState = Ok e
  ∨ Engine.expandDirect routes actionMs jsonMs validStates order currentState = Ok e
  ∨ EngineByState.expandSequence routes actionMs jsonMs validStates order currentState = Ok e
  ∨ EngineByState.expandDirect routes actionMs jsonMs validStates order currentState = Ok e →
  Forall (λ s, gt0 (ms s) = true) (steps e).
Proof.
  intros H.
  destruct H as [H|[H|[H|H]]];
    unfold Engine.expandSequence, Engine.expandDirect,
      EngineByState.expandSequence, EngineByState.expandDirect in H;
    match type of H with
    | bind (for_of ?body ?s ?xs) _ = _ =>
        destruct (for_of body s xs) as [a|] eqn:Hloop; [|done]
    end; simpl in H; injection H as <-; simpl;
    change (positive_steps a);
    revert Hloop; apply for_of_invariant; try (by constructor);
    intros s x s' Hs.
  - by apply sequence_entry_positive.
  - by apply direct_entry_positive.
  - by apply by_state_sequence_entry_positive.
  - by apply by_state_direct_entry_positive.
Qed.

Lemma expansion_durations_positive_witness :
  Forall (λ s, gt0 (ms s) = true)
    [{| state := Some "left"; ms := n50 |}].
Proof.
  refine (expansion_durations_positive Scenario.aliased JUndef (JNum n120)
            (Some Scenario.states) ["alias"] (Some "center")
            {| steps := [{| state := Some "left"; ms := n50 |}];
               finalState := Some "left" |} _).
  left. reflexivity.
Defined.

(** ** Expansions of concatenated orders *)

Lemma for_of_app {E A S} (body : S → A → result E S) s xs ys :
  for_of body s (xs ++ ys) = bind (for_of body s xs) (λ s', for_of body s' ys).
Proof.
  revert s. induction xs as [|x xs IH]; intros s; simpl; [done|].
  destruct (body s x) as [s1|e]; simpl; [apply IH|done].
Qed.

(** A loop body that only appends to the steps behaves the same behind any
    steps pushed before. *)
Lemma for_of_prefix {E A}
    (body : list step * jsname → A → result E (list step * jsname)) :
  (∀ pre a x, body (pre ++ a.1, a.2) x
              = bind (body a x) (λ a', Ok (pre ++ a'.1, a'.2))) →
  ∀ xs pre a, for_of body (pre ++ a.1, a.2) xs
              = bind (for_of body a xs) (λ a', Ok (pre ++ a'.1, a'.2)).
Proof.
  intros Hbody xs. induction xs as [|x xs IH]; intros pre a; simpl; [done|].
  rewrite Hbody. destruct (body a x) as [a1|e]; simpl; [apply IH|done].
Qed.

Section Prefixes.
Context (routes : routeTable) (actionMs jsonMs : jsval)
        (validStates : option (gset string)).

Lemma sequence_visit_prefix k pre a s :
  Engine.sequence_visit routes actionMs jsonMs validStates k (pre ++ a.1, a.2) s
  = bind (Engine.sequence_visit routes actionMs jsonMs validStates k a s)
         (λ a', Ok (pre ++ a'.1, a'.2)).
Proof.
  unfold Engine.sequence_visit. destruct (unknown_state _ _); [done|].
  simpl. by rewrite app_assoc.
Qed.

Lemma sequence_entry_prefix pre a k :
  Engine.sequence_entry routes actionMs jsonMs validStates (pre ++ a.1, a.2) k
  = bind (Engine.sequence_entry routes actionMs jsonMs validStates a k)
         (λ a', Ok (pre ++ a'.1, a'.2)).
Proof.
  unfold Engine.sequence_entry. cbn [fst snd].
  destruct (Engine.normalizePath _ _) as [|s p]; [done|].
  apply (for_of_prefix (Engine.sequence_visit routes actionMs jsonMs
                          validStates k)).
  intros. apply sequence_visit_prefix.
Qed.

Lemma direct_entry_prefix pre a k :
  Engine.direct_entry routes actionMs jsonMs validStates (pre ++ a.1, a.2) k
  = bind (Engine.direct_entry routes actionMs jsonMs validStates a k)
         (λ a', Ok (pre ++ a'.1, a'.2)).
Proof.
  unfold Engine.direct_entry. cbn [fst snd].
  destruct (unknown_state _ _); [done|].
  case_bool_decide; [done|]. simpl. by rewrite app_assoc.
Qed.

Lemma expansion_of_app
    (body : list step * jsname → string → result Engine.error (list step * jsname))
    order1 order2 cur :
  (∀ pre a x, body (pre ++ a.1, a.2) x
              = bind (body a x) (λ a', Ok (pre ++ a'.1, a'.2))) →
  bind (for_of body ([], cur) (order1 ++ order2))
       (λ a, Ok {| steps := a.1; finalState := a.2 |})
  = then_expand
      (bind (for_of body ([], cur) order1)
            (λ a, Ok {| steps := a.1; finalState := a.2 |}))
      (λ c, bind (for_of body ([], c) order2)
              (λ a, Ok {| steps := a.1; finalState := a.2 |})).
Proof.
  intros Hbody. rewrite for_of_app. unfold then_expand.
  destruct (for_of body ([], cur) order1) as [[st1 c1]|e]; [|done].
  cbn [bind finalState steps fst snd].
  replace (st1, c1) with (st1 ++ (@nil step, c1).1, (@nil step, c1).2)
    by (simpl; by rewrite app_nil_r).
  rewrite (for_of_prefix body Hbody order2 st1 ([], c1)).
  by destruct (for_of body ([], c1) order2) as [[st2 c2]|e].
Qed.
End Prefixes.

(** X3. Expanding an order made of two parts is expanding the first part
    and then, from the state it ended on, the second: the steps are those
    of the first expansion followed by those of the second, the final
    state is that of the second, and an error of either part is the error
    of the whole.  This holds for the Sequence and the Direct expansion. *)
Theorem expansions_compose
    (routes : routeTable) (actionMs jsonMs : jsval)
    (validStates : option (gset string)) (order1 order2 : list string)
    (currentState : jsname) :
  Engine.expandSequence routes actionMs jsonMs validStates
    (order1 ++ order2) currentState
  = then_expand
      (Engine.expandSequence routes actionMs jsonMs validStates order1 currentState)
      (Engine.expandSequence routes actionMs jsonMs validStates order2)
  ∧ Engine.expandDirect routes actionMs jsonMs validStates
      (order1 ++ order2) currentState
    = then_expand
        (Engine.expandDirect routes actionMs jsonMs validStates order1 currentState)
        (Engine.expandDirect routes actionMs jsonMs validStates order2).
Proof.
  split.
  - apply expansion_of_app. intros. apply sequence_entry_prefix.
  - apply expansion_of_app. intros. apply direct_entry_prefix.
Qed.

(** ** Direct expansion never steps in place *)

Lemma moving_snoc cur l s :
  moving cur l → s ≠ default cur (last l) → moving cur (l ++ [s]).
Proof.
  revert cur. induction l as [|x l IH]; intros cur; simpl.
  - done.
  - intros [Hx Hl] Hs. split; [done|]. apply IH; [done|].
    by rewrite last_hop_cons in Hs.
Qed.

(** X4. In the steps of a Direct expansion no step leads to the state the
    step before it led to, and the first step does not lead to the start
    state: an entry whose destination is where the pointer already stands
    is left out.  This holds in both copies of engine.js. *)
Theorem expandDirect_never_steps_in_place
    (routes : routeTable) (actionMs jsonMs : jsval)
    (validStates : option (gset string)) (order : list string)
    (currentState : jsname) (e : expansion) :
  Engine.expandDirect routes actionMs jsonMs validStates order currentState = Ok e
  ∨ EngineByState.expandDirect routes actionMs jsonMs validStates order currentState = Ok e →
  moving currentState (state <$> steps e).
Proof.
  set (P := λ a : list step * jsname,
         moving currentState (state <$> a.1) ∧ a.2 = landing currentState a.1).
  intros H.
  destruct H as [H|H];
    unfold Engine.expandDirect, EngineByState.expandDirect in H;
    match type of H with
    | bind (for_of ?body ?s ?xs) _ = _ =>
        destruct (for_of body s xs) as [a|] eqn:Hloop; [|done]
    end; simpl in H; injection H as <-; simpl;
    enough (P a) as [? _] by done;
    revert Hloop; apply for_of_invariant; try done;
    intros s k s' [Hmov Hptr].
  - unfold Engine.direct_entry. destruct (unknown_state _ _); [done|].
    case_bool_decide as Hsame; intros [= <-]; [done|]. split; simpl.
    + rewrite fmap_app. apply moving_snoc; [done|].
      cbn [state].
      change (default currentState (last (state <$> s.1)))
        with (landing currentState s.1).
      by rewrite <- Hptr.
    + by rewrite landing_snoc.
  - unfold EngineByState.direct_entry. destruct (unknown_state _ _); [done|].
    case_bool_decide as Hsame; intros [= <-]; [done|]. split; simpl.
    + rewrite fmap_app. apply moving_snoc; [done|].
      cbn [state].
      change (default currentState (last (state <$> s.1)))
        with (landing currentState s.1).
      by rewrite <- Hptr.
    + by rewrite landing_snoc.
Qed.

Lemma expandDirect_never_steps_in_place_witness :
  moving (Some "center") [Some "left"; Some "right"].
Proof.
  refine (expandDirect_never_steps_in_place Scenario.routes JUndef (JNum n120)
            (Some Scenario.states) ["left"; "left"; "right"] (Some "center")
            {| steps := [{| state := Some "left"; ms := n120 |};
                         {| state := Some "right"; ms := n120 |}];
               finalState := Some "right" |} _).
  left. reflexivity.
Defined.

(** ** Failing expansions *)

Lemma find_in_app {A} (f : A → bool) l1 l2 :
  List.find f (l1 ++ l2)
  = match List.find f l1 with
    | Some x => Some x
    | None => List.find f l2
    end.
Proof.
  induction l1 as [|x l1 IH]; simpl; [done|]. by destruct (f x).
Qed.

Lemma find_fmap {A B} (f : B → bool) (g : A → B) l :
  List.find f (g <$> l) = g <$> List.find (λ x, f (g x)) l.
Proof.
  induction l as [|x l IH]; simpl; [done|]. by destruct (f (g x)).
Qed.

Section Failing.
Context (routes : routeTable) (actionMs jsonMs : jsval)
        (validStates : option (gset string)).

Lemma sequence_visits_total k p st cur :
  for_of (Engine.sequence_visit routes actionMs jsonMs validStates k) (st, cur) p
  = match List.find (λ s, unknown_state validStates (Some s)) p with
    | Some s => Throw (Engine.UnknownState k (Some s))
    | None =>
        Ok (st ++ (sequence_step routes actionMs jsonMs <$> ((λ s, (k, s)) <$> p)),
            path_end p cur)
    end.
Proof.
  revert st cur. induction p as [|s p IH]; intros st cur; simpl.
  - by rewrite app_nil_r.
  - unfold Engine.sequence_visit at 1.
    destruct (unknown_state validStates (Some s)); [done|]. simpl.
    rewrite IH. destruct (List.find _ p); [done|].
    by rewrite path_end_cons, <- app_assoc.
Qed.

Lemma sequence_entries_total order st cur :
  for_of (Engine.sequence_entry routes actionMs jsonMs validStates) (st, cur) order
  = match first_unknown_visit validStates (sequence_walk routes order cur) with
    | Some v => Throw (Engine.UnknownState v.1 (Some v.2))
    | None =>
        Ok (st ++ (sequence_step routes actionMs jsonMs
                     <$> sequence_walk routes order cur),
            sequence_end routes order cur)
    end.
Proof.
  unfold first_unknown_visit.
  revert st cur. induction order as [|k rest IH]; intros st cur; simpl.
  - by rewrite app_nil_r.
  - set (p := Engine.normalizePath (Engine.resolvePath k cur routes) cur).
    assert (Engine.sequence_entry routes actionMs jsonMs validStates (st, cur) k
            = for_of (Engine.sequence_visit routes actionMs jsonMs validStates k)
                (st, cur) p) as ->.
    { unfold Engine.sequence_entry. cbn [fst snd]. subst p.
      by destruct (Engine.normalizePath _ _). }
    rewrite sequence_visits_total, find_in_app, find_fmap. cbn [snd].
    destruct (List.find _ p) as [s|]; [done|]. cbn [bind fmap option_fmap option_map].
    rewrite IH. destruct (List.find _ (sequence_walk _ _ _)); [done|].
    by rewrite fmap_app, <- !app_assoc.
Qed.

Lemma direct_entries_total order st cur :
  for_of (Engine.direct_entry routes actionMs jsonMs validStates) (st, cur) order
  = match first_unknown_hop validStates (direct_walk routes order cur) with
    | Some h => Throw (Engine.UnknownState (hop_key h) (hop_to h))
    | None =>
        Ok (st ++ (direct_step routes actionMs jsonMs
                     <$> List.filter moves (direct_walk routes order cur)),
            default cur (last (hop_to <$> direct_walk routes order cur)))
    end.
Proof.
  unfold first_unknown_hop.
  revert st cur. induction order as [|k rest IH]; intros st cur.
  - simpl. by rewrite app_nil_r.
  - cbn [direct_walk for_of List.find hop_to].
    unfold Engine.direct_entry at 1. cbn [fst snd].
    destruct (unknown_state validStates _); [done|].
    cbn [List.filter fmap list_fmap]. unfold moves at 1. cbn [hop_to hop_from].
    rewrite last_hop_cons.
    destruct (decide (last (Engine.resolvePath k cur routes) = cur)) as [Heq|Hne].
    + rewrite !(bool_decide_eq_true_2 _ Heq). cbn [negb bind].
      rewrite IH. by rewrite Heq.
    + rewrite !(bool_decide_eq_false_2 _ Hne). cbn [negb bind].
      rewrite IH. destruct (List.find _ _); [done|].
      cbn [fmap list_fmap]. by rewrite <- app_assoc.
Qed.
End Failing.

(** X5. An expansion fails exactly when its walk reaches a state the SVG
    does not have.  The Sequence expansion then throws for the first such
    visit, naming the entry of the order that led there and the state;
    the Direct expansion throws for the first entry whose destination is
    unknown, naming the entry and the destination.  The steps collected
    before are not returned. *)
Theorem expansion_fails_at_first_unknown
    (routes : routeTable) (actionMs jsonMs : jsval)
    (validStates : option (gset string)) (order : list string)
    (currentState : jsname) :
  (∀ v, first_unknown_visit validStates (sequence_walk routes order currentState)
        = Some v →
        Engine.expandSequence routes actionMs jsonMs validStates order currentState
        = Throw (Engine.UnknownState v.1 (Some v.2))) ∧
  (first_unknown_visit validStates (sequence_walk routes order currentState) = None ↔
   ∃ e, Engine.expandSequence routes actionMs jsonMs validStates order currentState
        = Ok e) ∧
  (∀ h, first_unknown_hop validStates (direct_walk routes order currentState)
        = Some h →
        Engine.expandDirect routes actionMs jsonMs validStates order currentState
        = Throw (Engine.UnknownState (hop_key h) (hop_to h))) ∧
  (first_unknown_hop validStates (direct_walk routes order currentState) = None ↔
   ∃ e, Engine.expandDirect routes actionMs jsonMs validStates order currentState
        = Ok e).
Proof.
  unfold Engine.expandSequence, Engine.expandDirect.
  rewrite sequence_entries_total, direct_entries_total.
  destruct (first_unknown_visit _ _) as [v|];
    destruct (first_unknown_hop _ _) as [h|]; simpl;
    repeat split; try done; try (by intros ? [= <-]);
    try (by intros [? ?]); by eexists.
Qed.

Lemma expansion_fails_at_first_unknown_witness :
  Engine.expandSequence (cfg_routes Demo.trap) JUndef (JNum n120)
    (Some (cfg_validStates Demo.trap)) ["a"; "a"] (Some "c")
  = Throw (Engine.UnknownState "a" (Some "ghost")) ∧
  Engine.expandDirect (cfg_routes Demo.trap) JUndef (JNum n120)
    (Some (cfg_validStates Demo.trap)) ["a"; "a"] (Some "c")
  = Throw (Engine.UnknownState "a" (Some "ghost")).
Proof.
  destruct (expansion_fails_at_first_unknown (cfg_routes Demo.trap) JUndef
              (JNum n120) (Some (cfg_validStates Demo.trap)) ["a"; "a"]
              (Some "c")) as (Hseq & _ & Hdir & _).
  split.
  - exact (Hseq ("a", "ghost") eq_refl).
  - exact (Hdir {| hop_key := "a"; hop_from := Some "b";
                   hop_to := Some "ghost" |} eq_refl).
Defined.

(** ** The two copies of engine.js *)

Lemma nullish_same v : nullish v v = v.
Proof. by destruct v. Qed.

Section Copies.
Context (routes : routeTable) (actionMs jsonMs : jsval)
        (validStates : option (gset string)).

Lemma by_state_visits k p st cur :
  Forall (λ s, own_duration routes (k, s)) p →
  for_of (EngineByState.sequence_visit routes actionMs jsonMs validStates)
    (st, cur) p
  = by_state_result
      (for_of (Engine.sequence_visit routes actionMs jsonMs validStates k)
         (st, cur) p).
Proof.
  revert st cur. induction p as [|s p IH]; intros st cur Hp; simpl; [done|].
  inversion Hp as [|? ? Hs Hp']; subst.
  unfold EngineByState.sequence_visit at 1, Engine.sequence_visit at 1.
  destruct (unknown_state _ _); [done|]. simpl.
  unfold own_duration in Hs. simpl in Hs. rewrite Hs. by apply IH.
Qed.

Lemma by_state_entries order st cur :
  Forall (λ k, known validStates (Some k)) order →
  Forall (own_duration routes) (sequence_walk routes order cur) →
  for_of (EngineByState.sequence_entry routes actionMs jsonMs validStates)
    (st, cur) order
  = by_state_result
      (for_of (Engine.sequence_entry routes actionMs jsonMs validStates)
         (st, cur) order).
Proof.
  intros Hk. revert st cur.
  induction Hk as [|k rest Hk1 _ IH]; intros st cur Hw; simpl; [done|].
  simpl in Hw. apply Forall_app in Hw as [Hp Hrest]. rewrite Forall_fmap in Hp.
  set (p := Engine.normalizePath (Engine.resolvePath k cur routes) cur) in *.
  assert (Engine.sequence_entry routes actionMs jsonMs validStates (st, cur) k
          = for_of (Engine.sequence_visit routes actionMs jsonMs validStates k)
              (st, cur) p) as ->.
  { unfold Engine.sequence_entry. cbn [fst snd]. subst p.
    by destruct (Engine.normalizePath _ _). }
  unfold EngineByState.sequence_entry at 1. unfold known in Hk1. rewrite Hk1.
  cbn [fst snd]. fold p. rewrite (by_state_visits k) by done.
  rewrite sequence_visits_total.
  destruct (List.find _ p); [done|]. simpl. by apply IH.
Qed.

Lemma by_state_hops order st cur :
  Forall (λ h, hop_to h = Some (hop_key h)) (direct_walk routes order cur) →
  for_of (EngineByState.direct_entry routes actionMs jsonMs validStates)
    (st, cur) order
  = by_state_result
      (for_of (Engine.direct_entry routes actionMs jsonMs validStates)
         (st, cur) order).
Proof.
  revert st cur. induction order as [|k rest IH]; intros st cur Hw; [done|].
  cbn [direct_walk] in Hw. inversion Hw as [|? ? Hd Hrest]; subst.
  cbn [hop_to hop_key] in Hd. rewrite Hd in Hrest.
  cbn [for_of]. unfold EngineByState.direct_entry at 1, Engine.direct_entry at 1.
  cbn [fst snd]. rewrite Hd. cbn [prop_key]. rewrite nullish_same.
  destruct (unknown_state _ _); [done|].
  case_bool_decide as Hc; simpl; [rewrite <- Hc|]; by apply IH.
Qed.
End Copies.

(** X6. The two copies of engine.js return the same Sequence expansion,
    and fail for the same state, when every entry of the order is itself
    a state of the SVG and no entry's own route block overrides the
    duration of a state its path visits. *)
Theorem copies_agree_on_sequence
    (routes : routeTable) (actionMs jsonMs : jsval)
    (validStates : option (gset string)) (order : list string)
    (currentState : jsname) :
  Forall (λ k, known validStates (Some k)) order →
  Forall (own_duration routes) (sequence_walk routes order currentState) →
  EngineByState.expandSequence routes actionMs jsonMs validStates order currentState
  = by_state_result
      (Engine.expandSequence routes actionMs jsonMs validStates order currentState).
Proof.
  intros Hk Hw. unfold EngineByState.expandSequence, Engine.expandSequence.
  rewrite by_state_entries by done.
  by destruct (for_of _ _ order).
Qed.

Lemma copies_agree_on_sequence_witness :
  EngineByState.expandSequence Scenario.routes JUndef (JNum n120)
    (Some Scenario.states) ["right"; "left"] (Some "left")
  = by_state_result
      (Engine.expandSequence Scenario.routes JUndef (JNum n120)
         (Some Scenario.states) ["right"; "left"] (Some "left")).
Proof.
  apply copies_agree_on_sequence.
  - repeat constructor.
  - repeat constructor.
Defined.

(** X7. The two copies of engine.js return the same Direct expansion, and
    fail for the same state, when every entry resolves to a path that ends
    in the entry itself: the second copy takes the entry as the
    destination without resolving a route. *)
Theorem copies_agree_on_direct
    (routes : routeTable) (actionMs jsonMs : jsval)
    (validStates : option (gset string)) (order : list string)
    (currentState : jsname) :
  Forall (λ h, hop_to h = Some (hop_key h))
         (direct_walk routes order currentState) →
  EngineByState.expandDirect routes actionMs jsonMs validStates order currentState
  = by_state_result
      (Engine.expandDirect routes actionMs jsonMs validStates order currentState).
Proof.
  intros Hw. unfold EngineByState.expandDirect, Engine.expandDirect.
  rewrite by_state_hops by done.
  by destruct (for_of _ _ order).
Qed.

Lemma copies_agree_on_direct_witness :
  EngineByState.expandDirect Scenario.routes JUndef (JNum n120)
    (Some Scenario.states) ["left"; "right"] (Some "center")
  = by_state_result
      (Engine.expandDirect Scenario.routes JUndef (JNum n120)
         (Some Scenario.states) ["left"; "right"] (Some "center")).
Proof.
  apply copies_agree_on_direct. repeat constructor.
Defined.

(** * Further properties of the playback *)

(** ** What [stop], [play] and a completed step leave of the instance *)

Lemma stop_cases i :
  (abortController i = None ∧ stop i = i) ∨
  (∃ c, abortController i = Some c ∧ abortController (stop i) = None ∧
        signals (stop i) = <[c := true]> (signals i) ∧
        currentState (stop i) = currentState i ∧
        ((name_truthy (currentActionName i) = true ∧
          currentActionName (stop i) = None ∧
          emitted (stop i)
          = emitted i ++ [ActionEnd (prop_key (currentActionName i))]) ∨
         (name_truthy (currentActionName i) = false ∧
          currentActionName (stop i) = currentActionName i ∧
          emitted (stop i) = emitted i))).
Proof.
  unfold stop. destruct (abortController i) as [c|]; [right|by left].
  exists c. cbn [currentActionName].
  destruct (name_truthy (currentActionName i)); simpl; auto 10.
Qed.

Lemma stop_clears i : abortController (stop i) = None.
Proof.
  destruct (stop_cases i) as [[Hc ->]|(c & _ & Hc & _)]; done.
Qed.

Lemma instance_ok_same i i' :
  abortController i' = abortController i → signals i' = signals i →
  (currentActionName i' = currentActionName i ∨ currentActionName i' = None) →
  instance_ok i → instance_ok i'.
Proof.
  unfold instance_ok, isPlaying, signal_aborted.
  intros Hc Hs Hn (Ha & Hb & Hd). rewrite Hc, Hs. split; [|done].
  intros n Hn' Hne. destruct Hn as [Hn|Hn]; rewrite Hn in Hn'; [|done].
  by apply (Ha n).
Qed.

Lemma instance_ok_stop i : instance_ok i → instance_ok (stop i).
Proof.
  intros Hi.
  destruct (stop_cases i) as [[Hc ->]|(c & Hc & Hc' & Hs & _ & Hn)]; [done|].
  destruct Hi as (Ha & Hb & Hd).
  unfold instance_ok, isPlaying, signal_aborted in *. rewrite Hc', Hs.
  split; [|split]; [|done|].
  - intros n Hn' Hne.
    destruct Hn as [(_ & Hnone & _)|(Hfalse & Hsame & _)]; [congruence|].
    rewrite Hsame in Hn'. rewrite Hn' in Hfalse. simpl in Hfalse.
    by rewrite bool_decide_eq_false_2 in Hfalse.
  - intros c' Hdom _. destruct (decide (c' = c)) as [->|Hne].
    + by rewrite lookup_insert_eq.
    + rewrite lookup_insert_ne by done. apply Hd; [|congruence].
      apply elem_of_dom. apply elem_of_dom in Hdom.
      by rewrite lookup_insert_ne in Hdom.
Qed.

Lemma instance_ok_started i name :
  instance_ok i → instance_ok (started i name).
Proof.
  intros Hi. apply instance_ok_stop in Hi as (_ & _ & Hd).
  pose proof (stop_clears i) as Hnone.
  unfold started, instance_ok, isPlaying, signal_aborted in *. simpl.
  set (c := fresh (dom (signals (stop i)))).
  assert (c ∉ dom (signals (stop i))) as Hfresh by apply is_fresh.
  split; [|split].
  - intros _ _ _. by rewrite lookup_insert_eq.
  - intros ? [= <-]. apply elem_of_dom. by rewrite lookup_insert_eq.
  - intros c' Hdom Hne. assert (c' ≠ c) as Hc' by congruence.
    rewrite lookup_insert_ne by done. apply Hd; [|by rewrite Hnone].
    apply elem_of_dom. apply elem_of_dom in Hdom.
    by rewrite lookup_insert_ne in Hdom.
Qed.

Lemma settle_fields i name o :
  abortController (settle i name o).1 = abortController i ∧
  signals (settle i name o).1 = signals i ∧
  (currentActionName (settle i name o).1 = currentActionName i
   ∨ currentActionName (settle i name o).1 = None).
Proof. destruct o as [t|v|[|f]|]; simpl; auto. Qed.

Lemma instance_ok_settle i name o :
  instance_ok i → instance_ok (settle i name o).1.
Proof.
  destruct (settle_fields i name o) as (Hc & Hs & Hn).
  by apply instance_ok_same.
Qed.

Lemma play_not_found cfg i name :
  cfg_actions cfg !! name = None →
  play cfg i name = (i, Rejected (OrderMissing name))
  ∨ play cfg i name
    = (emit (ErrorEvent (UnknownAction name)) i, Rejected (UnknownAction name)).
Proof.
  intros Ha. unfold play. rewrite Ha. destruct (inherited name); auto.
Qed.

Lemma play_started cfg i name a :
  cfg_actions cfg !! name = Some a → action_order a ≠ [] →
  play cfg i name
  = settle (started i name) name
      (runAction cfg (started i name) name a
         (fresh (dom (signals (stop i)))) (currentState (started i name))).
Proof.
  intros Ha Hord. unfold play. rewrite Ha.
  by destruct (action_order a).
Qed.

Lemma started_signal i name :
  signal_aborted (started i name) (fresh (dom (signals (stop i)))) = false.
Proof. unfold signal_aborted, started. simpl. by rewrite lookup_insert_eq. Qed.

(** The controller a play call replaces is aborted. *)
Lemma started_aborts i name c :
  instance_ok i → abortController i = Some c →
  signal_aborted (started i name) c = true.
Proof.
  intros Hi Hc. pose proof (stop_aborts i c Hc) as Hab.
  unfold signal_aborted, started in *. simpl.
  rewrite lookup_insert_ne; [done|].
  intros <-. pose proof (is_fresh (dom (signals (stop i)))) as Hfresh.
  apply Hfresh. apply elem_of_dom.
  destruct (signals (stop i) !! _); [done|discriminate].
Qed.

(** ** What the synchronous stretches of a play call give *)

Section Outcomes.
Context (cfg : config).

Lemma playSteps_expands_only i name a c fr v sts :
  Forall (λ s, known (Some (cfg_validStates cfg)) (state s)) sts →
  expands_only cfg (playSteps cfg i name a c fr v sts).
Proof.
  intros Hk. unfold playSteps. destruct sts as [|st rest]; [done|].
  destruct (signal_aborted i c); [done|].
  inversion Hk as [|? ? Hst Hrest]; subst. unfold known in Hst.
  rewrite Hst. done.
Qed.

Lemma run_loop_expands_only i name a c n cur :
  expands_only cfg (run_loop cfg i name a c n cur).
Proof.
  induction n as [|n IH]; simpl; [done|].
  destruct (signal_aborted i c); [done|].
  destruct (expand_loop cfg a cur) as [r|e] eqn:Hr; [|by eexists].
  apply expand_loop_known in Hr.
  destruct (steps r) as [|st rest] eqn:Hsteps; [done|].
  by apply playSteps_expands_only.
Qed.

Lemma run_loop_from_expands_only i name a c rem cur :
  expands_only cfg (run_loop_from cfg i name a c rem cur).
Proof.
  destruct rem as [n|]; simpl; [apply run_loop_expands_only|].
  unfold run_loop_unbounded.
  destruct (signal_aborted i c); [done|].
  destruct (expand_loop cfg a cur) as [r|e] eqn:Hr; [|by eexists].
  apply expand_loop_known in Hr.
  destruct (steps r) as [|st rest] eqn:Hsteps; [done|].
  by apply playSteps_expands_only.
Qed.

Lemma runAction_expands_only i name a c cur :
  expands_only cfg (runAction cfg i name a c cur).
Proof.
  unfold runAction. case_bool_decide; [apply run_loop_from_expands_only|].
  destruct (Engine.expandSequence _ _ _ _ _ _) as [r|e] eqn:Hr; [|by eexists].
  apply (expandSequence_known cfg) in Hr.
  destruct (steps r) as [|st rest] eqn:Hsteps; [done|].
  by apply playSteps_expands_only.
Qed.

Lemma resume_after_step i t :
  resume cfg i t Resolved
  = settle (onStateChange i (state (task_step t))) (task_name t)
      (after_step cfg i t).
Proof. done. Qed.

Lemma after_step_expands_only i t :
  task_known cfg t → expands_only cfg (after_step cfg i t).
Proof.
  intros Hk. inversion Hk as [|? ? _ Hrest]; subst. unfold after_step.
  pose proof (playSteps_expands_only
    (onStateChange i (state (task_step t))) (task_name t) (task_action t)
    (task_signal t) (task_frame t) (state (task_step t)) (task_rest t) Hrest)
    as Hp.
  destruct (playSteps _ _ _ _ _ _ _ _) as [t1|v|x|]; try done.
  unfold after_playSteps. destruct (task_frame t); [done|].
  apply run_loop_from_expands_only.
Qed.

Lemma after_step_name i t t' :
  after_step cfg i t = Awaiting t' →
  task_name t' = task_name t ∧ task_signal t' = task_signal t.
Proof.
  unfold after_step.
  destruct (playSteps _ _ _ _ _ _ _ _) as [t1|v|x|] eqn:Hp; try done.
  - intros [= <-]. by apply playSteps_name in Hp as (? & _ & ?).
  - unfold after_playSteps. destruct (task_frame t); [done|].
    intros Ho. by apply run_loop_from_name in Ho as (? & _ & ?).
Qed.
End Outcomes.

(** ** Invariants of a run *)

Section RunFacts.
Context (cfg : config).

Lemma session_ok_tick m t :
  session_ok cfg m → inflight m = Some t →
  let r := resume cfg (inst m) t Resolved in
  instance_ok r.1 ∧
  ∀ t', r.2 = Pending t' → task_current r.1 t' ∧ task_known cfg t'.
Proof.
  intros [Hi Ht] Hfl. destruct (Ht t Hfl) as [(Hc & Hn & Hs) Hk].
  cbv zeta. rewrite resume_after_step. split.
  - apply instance_ok_settle. revert Hi. by apply instance_ok_same; auto.
  - intros t' Hp.
    destruct (settle _ _ _) as [i' pr] eqn:Hset. simpl in Hp. subst pr.
    apply settle_pending in Hset as [-> Ho]. simpl.
    pose proof (after_step_expands_only cfg (inst m) t Hk) as Hex.
    rewrite Ho in Hex. split; [|done].
    apply after_step_name in Ho as [Hname Hsig].
    unfold task_current. rewrite Hname, Hsig. done.
Qed.

Lemma session_ok_play m name :
  session_ok cfg m →
  let r := play cfg (inst m) name in
  instance_ok r.1 ∧
  (∀ t', r.2 = Pending t' → task_current r.1 t' ∧ task_known cfg t') ∧
  (∀ t, (∀ t', r.2 ≠ Pending t') → after_call r.1 (inflight m) = Some t →
        inflight m = Some t ∧ task_current r.1 t).
Proof.
  intros [Hi Ht]. cbv zeta.
  destruct (cfg_actions cfg !! name) as [a|] eqn:Ha.
  - destruct (decide (action_order a = [])) as [Hnil|Hord].
    + unfold play. rewrite Ha, Hnil. simpl. split; [done|]. split; [done|].
      intros t _. unfold after_call.
      destruct (inflight m) as [t0|] eqn:Hfl; [|done].
      destruct (signal_aborted _ _); [done|]. intros [= ->].
      split; [done|]. by apply Ht.
    + rewrite (play_started cfg _ _ _ Ha Hord).
      set (i2 := started (inst m) name).
      set (c := fresh (dom (signals (stop (inst m))))).
      pose proof (instance_ok_started (inst m) name Hi) as Hi2. fold i2 in Hi2.
      destruct (settle_fields i2 name
                  (runAction cfg i2 name a c (currentState i2)))
        as (Hc & Hs & Hn).
      split; [by apply instance_ok_settle|]. split.
      * intros t' Hp.
        destruct (settle _ _ _) as [i' pr] eqn:Hset. simpl in Hp. subst pr.
        apply settle_pending in Hset as [-> Ho]. simpl.
        pose proof (runAction_expands_only cfg i2 name a c (currentState i2))
          as Hex.
        rewrite Ho in Hex. split; [|done].
        apply runAction_name in Ho as (Hname & _ & Hsig).
        unfold task_current. rewrite Hname, Hsig. repeat split.
        apply started_signal.
      * intros t _. unfold after_call.
        destruct (inflight m) as [t0|] eqn:Hfl; [|done].
        destruct (Ht t0 eq_refl) as [(Hc0 & _) _].
        unfold signal_aborted in *. rewrite Hs.
        pose proof (started_aborts (inst m) name _ Hi Hc0) as Hab.
        unfold signal_aborted in Hab. fold i2 in Hab. by rewrite Hab.
  - assert (instance_ok (play cfg (inst m) name).1
            ∧ (∀ t', (play cfg (inst m) name).2 ≠ Pending t')
            ∧ ∀ c, signal_aborted (play cfg (inst m) name).1 c
                   = signal_aborted (inst m) c) as (Hi' & Hnone & Hsame).
    { destruct (play_not_found cfg (inst m) name Ha) as [-> | ->]; by simpl. }
    split; [done|]. split; [intros t' Hp; by destruct (Hnone t')|].
    intros t _. unfold after_call.
    destruct (inflight m) as [t0|] eqn:Hfl; [|done]. rewrite Hsame.
    destruct (signal_aborted _ _) eqn:Hsig; [done|]. intros [= ->].
    split; [done|]. destruct (Ht t eq_refl) as [(Hc & Hn & _) _].
    destruct (play_not_found cfg (inst m) name Ha) as [-> | ->]; by simpl.
Qed.

Lemma session_ok_react m inp :
  session_ok cfg m → session_ok cfg (react cfg m inp).
Proof.
  intros Hm. unfold react. destruct (hung m); [done|].
  destruct inp as [| |name].
  - destruct (inflight m) as [t|] eqn:Hfl; [|done].
    destruct (session_ok_tick m t Hm Hfl) as [Hi Ht].
    split; [done|]. cbn [inst inflight]. intros t'.
    destruct (resume cfg (inst m) t Resolved).2 eqn:Hp; try done.
    intros [= <-]. by apply Ht.
  - destruct Hm as [Hi Ht]. split; [by apply instance_ok_stop|].
    cbn [inst inflight]. intros t. unfold after_call.
    destruct (inflight m) as [t0|] eqn:Hfl; [|done].
    destruct (Ht t0 eq_refl) as [(Hc & _) _].
    by rewrite (stop_aborts _ _ Hc).
  - destruct (session_ok_play m name Hm) as (Hi & Hnew & Hold).
    split; [done|]. cbn [inst inflight]. intros t.
    destruct (play cfg (inst m) name).2 eqn:Hp.
    { intros [= <-]. by apply Hnew. }
    all: intros Hc; destruct (Hold t) as [Hfl Hcur]; [done|done|];
      split; [done|]; destruct Hm as [_ Ht]; by apply Ht.
Qed.

Lemma session_ok_run m inputs :
  session_ok cfg m → session_ok cfg (run cfg m inputs).
Proof.
  revert m. unfold run.
  induction inputs as [|inp inputs IH]; intros m Hm; simpl; [done|].
  apply IH. by apply session_ok_react.
Qed.

Lemma session_ok_new s0 : session_ok cfg (idle (new_instance s0)).
Proof.
  split; [|done]. unfold instance_ok. simpl. repeat split; done.
Qed.
End RunFacts.

(** ** The notifications of a run *)

Lemma bracketed_app o xs ys :
  bracketed o (xs ++ ys)
  = match bracketed o xs with
    | Some o' => bracketed o' ys
    | None => None
    end.
Proof.
  revert o. induction xs as [|ev xs IH]; intros o; simpl; [done|].
  destruct ev as [st|n|n|f], o as [n'|]; try done; try apply IH.
  - case_bool_decide; [apply IH|done].
  - destruct f; apply IH.
  - destruct f; done || apply IH.
Qed.

Lemma log_ok_snoc i i' ev :
  log_ok i → emitted i' = emitted i ++ [ev] →
  bracketed (currentActionName i) [ev] = Some (currentActionName i') →
  (∀ n, currentActionName i' = Some n → n ≠ EmptyString) →
  log_ok i'.
Proof.
  intros [Hlog _] He Hev Hn. split; [|done].
  by rewrite He, bracketed_app, Hlog.
Qed.

Lemma log_ok_stop i : log_ok i → log_ok (stop i).
Proof.
  intros Hi.
  destruct (stop_cases i) as [[_ ->]|(c & _ & _ & _ & _ & Hn)]; [done|].
  destruct Hn as [(Htruthy & Hnone & He)|(_ & Hsame & He)].
  - apply (log_ok_snoc i _ _ Hi He); rewrite Hnone; [|done].
    destruct (currentActionName i) as [n|]; [|done]. simpl.
    by rewrite bool_decide_eq_true_2.
  - destruct Hi as [Hlog Hne]. split; by rewrite ?He, Hsame.
Qed.

Lemma stop_forgets i :
  log_ok i → instance_ok i → currentActionName (stop i) = None.
Proof.
  intros [_ Hne] (Ha & _).
  destruct (currentActionName i) as [n|] eqn:Hn.
  - specialize (Ha n eq_refl (Hne n eq_refl)). unfold isPlaying in Ha.
    destruct (abortController i) as [c|] eqn:Hc; [|done].
    by rewrite (stop_active i c n Hc Hn (Hne n eq_refl)).
  - destruct (stop_cases i) as [[_ ->]|(c & _ & _ & _ & _ & Hcase)]; [done|].
    destruct Hcase as [(_ & ? & _)|(_ & -> & _)]; done.
Qed.

Lemma log_ok_started i name :
  log_ok i → instance_ok i → name ≠ EmptyString → log_ok (started i name).
Proof.
  intros Hi Hok Hne. pose proof (stop_forgets i Hi Hok) as Hnone.
  apply (log_ok_snoc (stop i) _ (ActionStart name));
    [by apply log_ok_stop|done| |].
  - by rewrite Hnone.
  - by intros n [= <-].
Qed.

Lemma log_ok_settle cfg i name o :
  log_ok i → currentActionName i = Some name → expands_only cfg o →
  log_ok (settle i name o).1.
Proof.
  intros Hi Hn Ho. destruct o as [t|v|[|f]|]; simpl; try done.
  - apply (log_ok_snoc i _ (ActionEnd name) Hi); [done| |done].
    rewrite Hn. simpl. by rewrite bool_decide_eq_true_2.
  - destruct Ho as [e ->].
    apply (log_ok_snoc i _ (ErrorEvent (ExpansionFailed e)) Hi); [done| |done].
    by rewrite Hn.
Qed.

(** ** The states a run records *)

Section StateFacts.
Context (cfg : config).

Lemma events_ok_stop i :
  Forall (event_ok cfg) (emitted i) → Forall (event_ok cfg) (emitted (stop i)).
Proof.
  intros Hi.
  destruct (stop_cases i) as [[_ ->]|(c & _ & _ & _ & _ & Hn)]; [done|].
  destruct Hn as [(_ & _ & ->)|(_ & _ & ->)]; [|done].
  apply Forall_app. split; [done|]. by constructor.
Qed.

Lemma events_ok_settle i name o :
  Forall (event_ok cfg) (emitted i) → expands_only cfg o →
  Forall (event_ok cfg) (emitted (settle i name o).1).
Proof.
  intros Hi Ho. destruct o as [t|v|[|f]|]; simpl; try done.
  - apply Forall_app. split; [done|]. by constructor.
  - destruct Ho as [e ->]. apply Forall_app. split; [done|]. by constructor.
Qed.

Lemma events_ok_react m inp :
  session_ok cfg m → Forall (event_ok cfg) (emitted (inst m)) →
  Forall (event_ok cfg) (emitted (inst (react cfg m inp))).
Proof.
  intros [Hi Ht] Hlog. unfold react. destruct (hung m); [done|].
  destruct inp as [| |name]; cbn [inst].
  - destruct (inflight m) as [t|] eqn:Hfl; [|done]. cbn [inst].
    destruct (Ht t eq_refl) as [_ Hk].
    rewrite resume_after_step.
    apply events_ok_settle; [|by apply after_step_expands_only].
    simpl. apply Forall_app. split; [done|].
    inversion Hk; subst. by constructor.
  - by apply events_ok_stop.
  - destruct (cfg_actions cfg !! name) as [a|] eqn:Ha.
    + destruct (decide (action_order a = [])) as [Hnil|Hord].
      * unfold play. by rewrite Ha, Hnil.
      * rewrite (play_started cfg _ _ _ Ha Hord).
        apply events_ok_settle; [|apply runAction_expands_only].
        simpl. apply Forall_app. split; [by apply events_ok_stop|].
        by constructor.
    + destruct (play_not_found cfg (inst m) name Ha) as [-> | ->]; [done|].
      simpl. apply Forall_app. split; [done|]. by constructor.
Qed.

Lemma name_or_known a b :
  known (Some (cfg_validStates cfg)) a → known (Some (cfg_validStates cfg)) b →
  known (Some (cfg_validStates cfg)) (name_or a b).
Proof. unfold name_or. by destruct (name_truthy a). Qed.

Lemma playSteps_keeps_known i name a c fr v sts :
  frame_known cfg fr →
  (sts = [] → known (Some (cfg_validStates cfg)) v) →
  keeps_known cfg (playSteps cfg i name a c fr v sts).
Proof.
  intros Hfr Hv. unfold playSteps. destruct sts as [|st rest]; [by apply Hv|].
  destruct (signal_aborted i c); [done|].
  by destruct (unknown_state _ _).
Qed.

Lemma run_loop_keeps_known i name a c n cur :
  known (Some (cfg_validStates cfg)) cur →
  keeps_known cfg (run_loop cfg i name a c n cur).
Proof.
  intros Hcur. induction n as [|n IH]; simpl; [done|].
  destruct (signal_aborted i c); [done|].
  destruct (expand_loop cfg a cur) as [r|e]; [|done].
  destruct (steps r) as [|st rest] eqn:Hsteps; [done|].
  by apply playSteps_keeps_known.
Qed.

Lemma run_loop_from_keeps_known i name a c rem cur :
  known (Some (cfg_validStates cfg)) cur →
  keeps_known cfg (run_loop_from cfg i name a c rem cur).
Proof.
  intros Hcur. destruct rem as [n|]; simpl; [by apply run_loop_keeps_known|].
  unfold run_loop_unbounded.
  destruct (signal_aborted i c); [done|].
  destruct (expand_loop cfg a cur) as [r|e]; [|done].
  destruct (steps r) as [|st rest] eqn:Hsteps; [done|].
  by apply playSteps_keeps_known.
Qed.

Lemma runAction_keeps_known i name a c cur :
  known (Some (cfg_validStates cfg)) cur →
  keeps_known cfg (runAction cfg i name a c cur).
Proof.
  intros Hcur. unfold runAction.
  case_bool_decide; [by apply run_loop_from_keeps_known|].
  destruct (Engine.expandSequence _ _ _ _ _ _) as [r|e]; [|done].
  destruct (steps r) as [|st rest] eqn:Hsteps; [done|].
  by apply playSteps_keeps_known.
Qed.

Lemma after_step_keeps_known i t :
  task_known cfg t → frame_known cfg (task_frame t) →
  keeps_known cfg (after_step cfg i t).
Proof.
  intros Hk Hfr. inversion Hk as [|? ? Hst _]; subst. unfold after_step.
  pose proof (playSteps_keeps_known
    (onStateChange i (state (task_step t))) (task_name t) (task_action t)
    (task_signal t) (task_frame t) (state (task_step t)) (task_rest t) Hfr
    (λ _, Hst)) as Hp.
  destruct (playSteps _ _ _ _ _ _ _ _) as [t1|v|x|]; try done.
  unfold after_playSteps. simpl in Hp.
  destruct (task_frame t) as [cs|cur rem]; simpl in Hfr.
  - by apply name_or_known.
  - apply run_loop_from_keeps_known. by apply name_or_known.
Qed.

Lemma settle_keeps_known i name o :
  known (Some (cfg_validStates cfg)) (currentState i) → keeps_known cfg o →
  known (Some (cfg_validStates cfg)) (currentState (settle i name o).1).
Proof.
  intros Hi Ho. destruct o as [t|v|[|f]|]; simpl; try done.
  by destruct (name_truthy v).
Qed.

Lemma settle_frame i name o i' t :
  keeps_known cfg o → settle i name o = (i', Pending t) →
  frame_known cfg (task_frame t).
Proof. intros Ho [_ ->]%settle_pending. done. Qed.

Lemma states_ok_react m inp :
  session_ok cfg m → states_ok cfg m → states_ok cfg (react cfg m inp).
Proof.
  intros [Hi Ht] [Hcur Hfr]. unfold react. destruct (hung m); [by split|].
  destruct inp as [| |name].
  - destruct (inflight m) as [t|] eqn:Hfl;
      [|split; [done|]; intros t'; by rewrite Hfl].
    destruct (Ht t eq_refl) as [_ Hk]. specialize (Hfr t eq_refl).
    pose proof (after_step_keeps_known (inst m) t Hk Hfr) as Ho.
    rewrite resume_after_step. split; cbn [inst inflight].
    + apply settle_keeps_known; [|done]. simpl.
      inversion Hk; subst. done.
    + intros t'. destruct (settle _ _ _) as [i' pr] eqn:Hset. cbn [snd].
      destruct pr; try done. intros [= <-]. by eapply settle_frame.
  - split; cbn [inst inflight]; [by rewrite stop_currentState|].
    intros t. unfold after_call.
    destruct (inflight m) as [t0|] eqn:Hfl; [|done].
    destruct (signal_aborted _ _); [done|]. intros [= <-]. by apply Hfr.
  - assert (∀ i' t, after_call i' (inflight m) = Some t →
                    frame_known cfg (task_frame t)) as Hold.
    { intros i' t. unfold after_call.
      destruct (inflight m) as [t0|] eqn:Hfl; [|done].
      destruct (signal_aborted _ _); [done|]. intros [= <-]. by apply Hfr. }
    destruct (cfg_actions cfg !! name) as [a|] eqn:Ha.
    + destruct (decide (action_order a = [])) as [Hnil|Hord].
      * unfold play. rewrite Ha, Hnil. split; cbn [inst inflight fst snd]; [done|].
        apply Hold.
      * rewrite (play_started cfg _ _ _ Ha Hord).
        assert (known (Some (cfg_validStates cfg))
                  (currentState (started (inst m) name))) as Hst.
        { simpl. by rewrite stop_currentState. }
        pose proof (runAction_keeps_known (started (inst m) name) name a
                      (fresh (dom (signals (stop (inst m)))))
                      (currentState (started (inst m) name)) Hst) as Ho.
        split; cbn [inst inflight].
        -- by apply settle_keeps_known.
        -- intros t'. destruct (settle _ _ _) as [i' pr] eqn:Hset. cbn [snd fst].
           destruct pr; try apply Hold. intros [= <-]. by eapply settle_frame.
    + destruct (play_not_found cfg (inst m) name Ha) as [-> | ->];
        (split; cbn [inst inflight fst snd]; [done|]); apply Hold.
Qed.
End StateFacts.

(** X10. In any run of a new instance every state-change notification
    carries a state of the SVG, and no error about missing snapshots is
    ever notified: the steps a play call awaits come from expansions
    checked against the same set of states the snapshots are keyed by. *)
Theorem notified_states_are_known cfg s0 inputs :
  let m := run cfg (idle (new_instance s0)) inputs in
  (∀ st, StateChange st ∈ emitted (inst m) →
         known (Some (cfg_validStates cfg)) st) ∧
  (∀ st, ErrorEvent (NoSnapshots st) ∉ emitted (inst m)).
Proof.
  cbv zeta.
  enough (Forall (event_ok cfg)
            (emitted (inst (run cfg (idle (new_instance s0)) inputs)))) as Hall.
  { rewrite Forall_forall in Hall. split.
    - intros st Hin. by apply (Hall _ Hin).
    - intros st Hin. by apply (Hall _ Hin). }
  enough (∀ m, session_ok cfg m → Forall (event_ok cfg) (emitted (inst m)) →
               Forall (event_ok cfg) (emitted (inst (run cfg m inputs)))) as Hrun.
  { apply Hrun; [apply session_ok_new|by constructor]. }
  unfold run. induction inputs as [|inp inputs IH]; intros m Hm Hlog; [done|].
  simpl. apply IH; [by apply session_ok_react|by apply events_ok_react].
Qed.

(** X11. When the initial state is a state of the SVG, as the constructor
    checks, the state the instance records is a state of the SVG after
    any sequence of [play] calls, [stop] calls and completed steps. *)
Theorem recorded_state_is_known cfg s0 inputs :
  s0 ∈ cfg_validStates cfg →
  known (Some (cfg_validStates cfg))
        (currentState (inst (run cfg (idle (new_instance s0)) inputs))).
Proof.
  intros Hs0.
  enough (∀ m, session_ok cfg m → states_ok cfg m →
               states_ok cfg (run cfg m inputs)) as Hrun.
  { apply Hrun; [apply session_ok_new|]. split; [|done].
    unfold known. simpl. by rewrite bool_decide_eq_true_2. }
  unfold run. induction inputs as [|inp inputs IH]; intros m Hm Hst; [done|].
  simpl. apply IH; [by apply session_ok_react|by apply states_ok_react].
Qed.

Lemma recorded_state_is_known_witness :
  known (Some Scenario.states)
    (currentState (inst (run Demo.shapes (idle (new_instance "left"))
                           [Play "right"; Tick; Play "shuffle"; Tick; Stop]))).
Proof.
  apply (recorded_state_is_known Demo.shapes "left"
           [Play "right"; Tick; Play "shuffle"; Tick; Stop]).
  apply (bool_decide_unpack _). by vm_compute.
Defined.

(** ** Single calls *)

(** X12. [stop()] is idempotent: a second call right after the first finds
    no controller and changes nothing, so it notifies nothing. *)
Theorem stop_idempotent i : stop (stop i) = stop i.
Proof.
  destruct (stop_cases (stop i)) as [[_ H]|(c & Hc & _)]; [done|].
  by rewrite stop_clears in Hc.
Qed.

(** X13. A Sequence action whose expansion from the recorded state
    returns plays, when nothing interrupts it, exactly the steps of that
    expansion: after as many completed steps as the expansion has, the
    play call is fulfilled, the notifications since the call are the start
    of the action, one state change per step in order and the end of the
    action, and the recorded state is the final state of the expansion. *)
Theorem sequence_plays_its_expansion cfg i name a r :
  cfg_actions cfg !! name = Some a → action_order a ≠ [] →
  action_type a ≠ Some "loop" →
  EmptyString ∉ cfg_validStates cfg →
  Engine.expandSequence (cfg_routes cfg) (action_ms a) (cfg_ms cfg)
    (Some (cfg_validStates cfg)) (action_order a) (currentState i) = Ok r →
  ∃ i', ticks cfg (length (steps r)) (play cfg i name) = (i', Fulfilled) ∧
        emitted i' = emitted (stop i) ++ [ActionStart name]
                       ++ (StateChange ∘ state <$> steps r) ++ [ActionEnd name] ∧
        currentState i' = finalState r.
Proof.
  intros Ha Hord Hty Hne Hr. rewrite (play_started cfg _ _ _ Ha Hord).
  set (c := fresh (dom (signals (stop i)))).
  set (i2 := started i name).
  assert (currentState i2 = currentState i) as Hcur.
  { unfold i2. simpl. apply stop_currentState. }
  assert (emitted i2 = emitted (stop i) ++ [ActionStart name]) as Hem by done.
  pose proof (started_signal i name) as Hsig. fold i2 c in Hsig.
  pose proof (expandSequence_known cfg _ _ _ _ _ _ Hr) as Hk.
  pose proof (finalState_landing _ _ _ _ _ _ _ (or_introl Hr)) as Hland.
  unfold runAction. rewrite (bool_decide_eq_false_2 _ Hty), Hcur, Hr.
  destruct (steps r) as [|st rest] eqn:Hsteps.
  - cbn [length ticks settle]. eexists. split; [reflexivity|]. split.
    + rewrite emitted_emit. cbn [emitted]. rewrite Hem.
      by rewrite <- !app_assoc.
    + cbn [currentState emit]. rewrite Hcur, Hland.
      unfold landing. simpl. by destruct (name_truthy _).
  - unfold playSteps. rewrite Hsig.
    inversion Hk as [|? ? Hst Hrest]; subst. unfold known in Hst.
    rewrite Hst. cbn [settle length].
    rewrite (ticks_play_steps cfg) by done.
    cbn [after_playSteps].
    destruct (landing_known_truthy cfg (currentState i) (st :: rest) st rest
                Hne eq_refl Hk) as [Htruthy Hsame].
    rewrite <- Hsame. unfold name_or. rewrite Htruthy.
    cbn [settle]. eexists. split; [reflexivity|].
    destruct (advance_fields i2 (st :: rest)) as (_ & _ & _ & _ & He).
    split.
    + rewrite emitted_emit. cbn [emitted]. rewrite He, Hem.
      by rewrite <- !app_assoc.
    + cbn [currentState emit]. rewrite Htruthy. by rewrite Hland.
Qed.

Lemma sequence_plays_its_expansion_witness :
  ∃ i', ticks Demo.shapes 2 (play Demo.shapes (new_instance "left") "right")
        = (i', Fulfilled) ∧
        emitted i' = [ActionStart "right"; StateChange (Some "center");
                      StateChange (Some "right"); ActionEnd "right"] ∧
        currentState i' = Some "right".
Proof.
  refine (sequence_plays_its_expansion Demo.shapes (new_instance "left")
            "right" (Demo.sequence_of ["right"])
            {| steps := [{| state := Some "center"; ms := n120 |};
                         {| state := Some "right"; ms := n120 |}];
               finalState := Some "right" |} eq_refl _ _ _ eq_refl).
  - discriminate.
  - discriminate.
  - vm_compute. discriminate.
Defined.

(** X14. Playing an action whose order is empty is a no-op at any point of
    a run: nothing is notified, and the play call in flight, if there is
    one, is not cancelled and goes on. *)
Theorem play_of_empty_order_changes_nothing cfg s0 inputs name a :
  cfg_actions cfg !! name = Some a → action_order a = [] →
  let m := run cfg (idle (new_instance s0)) inputs in
  play cfg (inst m) name = (inst m, Fulfilled) ∧
  react cfg m (Play name) = m.
Proof.
  intros Ha Hnil. cbv zeta.
  destruct (session_ok_run cfg _ inputs (session_ok_new cfg s0)) as [_ Ht].
  assert (play cfg (inst (run cfg (idle (new_instance s0)) inputs)) name
          = (inst (run cfg (idle (new_instance s0)) inputs), Fulfilled)) as Hp.
  { unfold play. by rewrite Ha, Hnil. }
  split; [done|].
  destruct (run cfg (idle (new_instance s0)) inputs) as [i fl h].
  unfold react. cbn [hung inst inflight] in *. destruct h; [done|].
  rewrite Hp. cbn [fst snd]. f_equal. unfold after_call.
  destruct fl as [t|]; [|done].
  destruct (Ht t eq_refl) as [(_ & _ & ->) _]. done.
Qed.

Lemma play_of_empty_order_changes_nothing_witness :
  let m := run resting (idle (new_instance "left")) [Play "right"] in
  play resting (inst m) "rest" = (inst m, Fulfilled) ∧
  react resting m (Play "rest") = m.
Proof.
  cbv zeta.
  exact (play_of_empty_order_changes_nothing resting "left" [Play "right"]
           "rest" (Demo.sequence_of []) eq_refl eq_refl).
Defined.

(** ** Pages: what every history keeps *)

Section PageFacts.
Context (cfg : config).

Lemma playSteps_live i name a c fr v sts t :
  playSteps cfg i name a c fr v sts = Awaiting t → signal_aborted i c = false.
Proof.
  unfold playSteps. destruct sts as [|st rest]; [done|].
  by destruct (signal_aborted i c).
Qed.

Lemma run_loop_from_live i name a c rem cur t :
  run_loop_from cfg i name a c rem cur = Awaiting t →
  signal_aborted i c = false.
Proof.
  destruct rem as [n|]; simpl.
  - induction n as [|n IH]; simpl; [done|].
    by destruct (signal_aborted i c).
  - unfold run_loop_unbounded. by destruct (signal_aborted i c).
Qed.

Lemma after_playSteps_awaits i name a c fr v t :
  after_playSteps cfg i name a c fr v = Awaiting t →
  task_signal t = c ∧ task_name t = name ∧ signal_aborted i c = false.
Proof.
  unfold after_playSteps. destruct fr as [cs|cur rem]; [done|].
  intros Ho. pose proof (run_loop_from_live _ _ _ _ _ _ _ Ho).
  by apply run_loop_from_name in Ho as (? & _ & ?).
Qed.

Lemma stop_signals_dom i : dom (signals i) ⊆ dom (signals (stop i)).
Proof.
  destruct (stop_cases i) as [[_ ->]|(c & _ & _ & -> & _)]; [done|].
  intros x Hx. rewrite dom_insert. apply elem_of_union. by right.
Qed.

Lemma settle_signal_aborted i name o c :
  signal_aborted (settle i name o).1 c = signal_aborted i c.
Proof.
  unfold signal_aborted. by destruct (settle_fields i name o) as (_ & -> & _).
Qed.

(** A signal that was created and is not aborted is that of the current
    controller. *)
Lemma live_is_current i c :
  instance_ok i → c ∈ dom (signals i) → signal_aborted i c = false →
  abortController i = Some c.
Proof.
  intros (_ & _ & Hd) Hdom Hlive.
  destruct (decide (abortController i = Some c)) as [|Hne]; [done|].
  specialize (Hd c Hdom Hne). congruence.
Qed.

Lemma live_signals_cons p j queue :
  jobs p = j :: queue →
  live_signals p
  = option_list (task_signal <$> awaited p)
      ++ option_list (job_signal j) ++ omap job_signal queue.
Proof.
  intros Hj. unfold live_signals. rewrite Hj. cbn [omap list_omap].
  by destruct (job_signal j).
Qed.

Lemma omap_snoc_none (queue : list job) j :
  job_signal j = None → omap job_signal (queue ++ [j]) = omap job_signal queue.
Proof.
  intros Hj. rewrite omap_app. cbn [omap list_omap]. rewrite Hj.
  by rewrite app_nil_r.
Qed.

Lemma omap_snoc_some (queue : list job) j c :
  job_signal j = Some c →
  omap job_signal (queue ++ [j]) = omap job_signal queue ++ [c].
Proof. intros Hj. rewrite omap_app. cbn [omap list_omap]. by rewrite Hj. Qed.

Lemma NoDup_submseteq_inv {A} (l k : list A) : l ⊆+ k → NoDup k → NoDup l.
Proof.
  intros [k' Hk]%submseteq_Permutation Hnd. rewrite Hk in Hnd.
  by apply NoDup_app in Hnd as (? & _).
Qed.

(** A page whose instance differs from that of an admissible page in the
    recorded name, state and notifications only, and whose calls are
    among those of that page. *)
Lemma page_ok_sub p i aw queue fr :
  page_ok p → instance_ok i →
  abortController i = abortController (vf p) → signals i = signals (vf p) →
  (aw = awaited p ∨ aw = None) →
  option_list (task_signal <$> aw) ++ omap job_signal queue
    ⊆+ live_signals p →
  page_ok {| vf := i; awaited := aw; jobs := queue; frozen := fr |}.
Proof.
  intros (Hi & Haw & Hdom & Hnd) Hi' Hc Hs Hsame Hsub.
  split; [done|]. cbn [vf awaited jobs]. split; [|split].
  - intros t Ht. unfold signal_aborted. rewrite Hc, Hs.
    destruct Hsame as [-> | ->]; [|done]. by apply Haw.
  - intros c Hin. rewrite Hs. apply Hdom.
    by apply (elem_of_submseteq _ _ _ Hin).
  - by eapply NoDup_submseteq_inv.
Qed.

Lemma continue_with_ok p i aw queue name o :
  page_ok p → instance_ok i →
  abortController i = abortController (vf p) → signals i = signals (vf p) →
  (aw = awaited p ∨ aw = None) →
  (∀ t, o = Awaiting t →
        signal_aborted i (task_signal t) = false ∧
        task_signal t :: omap job_signal queue ⊆+ live_signals p) →
  option_list (task_signal <$> aw) ++ omap job_signal queue
    ⊆+ live_signals p →
  page_ok (continue_with i aw queue name o).
Proof.
  intros Hp Hi Hc Hs Hsame Hnew Hsub.
  destruct o as [t|v|x|]; cbn [continue_with].
  - destruct (Hnew t eq_refl) as [Hlive Hsub'].
    destruct Hp as (Hi0 & Haw & Hdom & Hnd).
    split; [done|]. cbn [vf awaited jobs]. split; [|split].
    + intros ? [= <-]. split; [|done].
      apply live_is_current; [done| |done]. rewrite Hs. apply Hdom.
      apply (elem_of_submseteq _ _ _ (list_elem_of_here _ _) Hsub').
    + intros c Hin. rewrite Hs. apply Hdom.
      by apply (elem_of_submseteq _ _ _ Hin).
    + by eapply NoDup_submseteq_inv.
  - apply (page_ok_sub p); try done.
    by rewrite omap_snoc_none.
  - apply (page_ok_sub p); try done.
    rewrite omap_snoc_none; [done|]. by destruct (thrown_by_playSteps x).
  - by apply (page_ok_sub p).
Qed.

Lemma page_ok_job p j queue :
  page_ok p → jobs p = j :: queue →
  page_ok (run_job cfg (vf p) (awaited p) queue j).
Proof.
  intros Hp Hj. pose proof Hp as (Hi & Haw & Hdom & Hnd).
  rewrite (live_signals_cons p j queue Hj) in Hnd, Hdom.
  pose proof (live_signals_cons p j queue Hj) as Hlive.
  destruct j as [t|t v|name x|name v|name x]; cbn [run_job].
  - set (i1 := onStateChange (vf p) (state (task_step t))).
    assert (instance_ok i1) as Hi1.
    { revert Hi. by apply instance_ok_same; auto. }
    destruct (playSteps cfg i1 _ _ _ _ _ _) as [t'|v|x|] eqn:Ho.
    + pose proof (playSteps_live _ _ _ _ _ _ _ _ Ho) as Hl.
      apply playSteps_name in Ho as (_ & _ & Hsig).
      split; [done|]. cbn [vf awaited jobs]. split; [|split].
      * intros ? [= <-]. rewrite Hsig. split; [|done].
        apply live_is_current; [done| |done].
        apply Hdom. cbn [job_signal option_list app].
        apply elem_of_app. right. by left.
      * intros c. unfold live_signals. cbn [awaited jobs fmap option_fmap
          option_map option_list app]. rewrite Hsig. intros Hin. apply Hdom.
        cbn [job_signal option_list app]. apply elem_of_app. by right.
      * unfold live_signals. cbn [awaited jobs fmap option_fmap option_map
          option_list]. rewrite Hsig.
        apply NoDup_app in Hnd as (_ & _ & Hnd). exact Hnd.
    + apply (page_ok_sub p); try done; [by left|].
      rewrite (omap_snoc_some _ _ (task_signal t)) by done. rewrite Hlive.
      cbn [job_signal option_list]. apply submseteq_app; [done|].
      apply Permutation_submseteq.
      by rewrite (Permutation_app_comm [task_signal t]).
    + apply (page_ok_sub p); try done; [by left|].
      rewrite omap_snoc_none by done. rewrite Hlive.
      apply submseteq_app; [done|]. by apply submseteq_inserts_l.
    + apply (page_ok_sub p); try done; [by left|]. rewrite Hlive.
      apply submseteq_app; [done|]. by apply submseteq_inserts_l.
  - apply (continue_with_ok p); try done; [by left| |].
    + intros t' Ho. apply after_playSteps_awaits in Ho as (Hsig & _ & Hl).
      rewrite Hsig. split; [done|]. rewrite Hlive.
      cbn [job_signal option_list]. by apply submseteq_inserts_l.
    + rewrite Hlive. apply submseteq_app; [done|].
      by apply submseteq_inserts_l.
  - apply (page_ok_sub p); try done; [by left|].
    rewrite omap_snoc_none by done. by rewrite Hlive.
  - destruct (settle_fields (vf p) name (Returned v)) as (Hc & Hs & _).
    apply (page_ok_sub p); try done;
      [by apply instance_ok_settle|by left|by rewrite Hlive].
  - destruct (settle_fields (vf p) name (Thrown x)) as (Hc & Hs & _).
    apply (page_ok_sub p); try done;
      [by apply instance_ok_settle|by left|by rewrite Hlive].
Qed.

Lemma awaited_dropped p i :
  page_ok p →
  (∀ c, abortController (vf p) = Some c → signal_aborted i c = true) →
  after_call i (awaited p) = None.
Proof.
  intros (_ & Haw & _) Hab. unfold after_call.
  destruct (awaited p) as [t|]; [|done].
  destruct (Haw t eq_refl) as [Hc _]. by rewrite (Hab _ Hc).
Qed.

Lemma page_ok_happen p h : page_ok p → page_ok (happen cfg p h).
Proof.
  intros Hp. unfold happen. destruct (frozen p); [done|].
  pose proof Hp as (Hi & Haw & Hdom & Hnd).
  destruct h as [name| | |].
  - unfold call_play.
    destruct (cfg_actions cfg !! name) as [a|] eqn:Ha.
    + destruct (action_order a) as [|k rest] eqn:Ho; [done|].
      cbv zeta. set (i2 := started (vf p) name).
      set (c := fresh (dom (signals (stop (vf p))))).
      rewrite (awaited_dropped p i2 Hp)
        by (intros c0 Hc0; by apply started_aborts).
      assert (c ∉ dom (signals (vf p))) as Hfresh.
      { intros Hin. apply (is_fresh (dom (signals (stop (vf p))))).
        by apply stop_signals_dom. }
      assert (dom (signals (vf p)) ⊆ dom (signals i2)) as Hgrow.
      { intros x Hx. unfold i2, started. cbn [signals emit].
        rewrite dom_insert. apply elem_of_union. right.
        by apply stop_signals_dom. }
      pose proof (instance_ok_started (vf p) name Hi) as Hi2. fold i2 in Hi2.
      assert (∀ queue', omap job_signal queue' = omap job_signal (jobs p) →
                page_ok {| vf := i2; awaited := None; jobs := queue';
                           frozen := false |}) as Hquiet.
      { intros queue' Hq. split; [done|]. cbn [vf awaited jobs].
        split; [done|]. unfold live_signals. cbn [awaited jobs fmap
          option_fmap option_map option_list app]. rewrite Hq. split.
        - intros c0 Hin. apply Hgrow, Hdom. unfold live_signals.
          apply elem_of_app. by right.
        - by apply NoDup_app in Hnd as (_ & _ & ?). }
      destruct (runAction cfg i2 name a c (currentState i2)) as [t|v|x|] eqn:Hr;
        cbn [continue_with].
      * apply runAction_name in Hr as (_ & _ & Hsig).
        split; [done|]. cbn [vf awaited jobs]. split; [|split].
        -- intros ? [= <-]. rewrite Hsig. split; [done|].
           apply started_signal.
        -- intros c0. unfold live_signals. cbn [awaited jobs fmap option_fmap
             option_map option_list app]. rewrite Hsig.
           intros [->|Hin]%elem_of_cons.
           ++ unfold i2, started. cbn [signals emit]. rewrite dom_insert.
              apply elem_of_union. left. by apply elem_of_singleton.
           ++ apply Hgrow, Hdom. unfold live_signals.
              apply elem_of_app. by right.
        -- unfold live_signals. cbn [awaited jobs fmap option_fmap
             option_map option_list app]. rewrite Hsig. constructor.
           ++ intros Hin. apply Hfresh, Hdom. unfold live_signals.
              apply elem_of_app. by right.
           ++ by apply NoDup_app in Hnd as (_ & _ & ?).
      * apply Hquiet. by rewrite omap_snoc_none.
      * apply Hquiet. rewrite omap_snoc_none; [done|].
        by destruct (thrown_by_playSteps x).
      * destruct (Hquiet (jobs p) eq_refl) as (? & ? & ? & ?). by split.
    + destruct (inherited name); [done|].
      apply (page_ok_sub p); try done; by left.
  - cbv zeta. rewrite (awaited_dropped p (stop (vf p)) Hp)
      by (intros c Hc; by apply stop_aborts).
    split; [by apply instance_ok_stop|]. cbn [vf awaited jobs].
    split; [done|]. unfold live_signals. cbn [awaited jobs fmap option_fmap
      option_map option_list app]. split.
    + intros c Hin. apply stop_signals_dom, Hdom. unfold live_signals.
      apply elem_of_app. by right.
    + by apply NoDup_app in Hnd as (_ & _ & ?).
  - destruct (awaited p) as [t|] eqn:Ht; [|done].
    split; [done|]. cbn [vf awaited jobs]. split; [done|].
    unfold live_signals in *. rewrite Ht in *. cbn [awaited jobs fmap
      option_fmap option_map option_list app] in *.
    rewrite (omap_snoc_some _ _ (task_signal t)) by done. split.
    + intros c Hin. apply Hdom. change (option_list None) with (@nil nat) in Hin.
      change (option_list (Some ?x)) with [x]. cbn [app] in *.
      apply elem_of_app in Hin as [Hin|Hin]; [by right|].
      apply list_elem_of_singleton in Hin as ->. by left.
    + eapply NoDup_Permutation_proper; [|exact Hnd].
      by rewrite (Permutation_app_comm _ [task_signal t]).
  - destruct (jobs p) as [|j queue] eqn:Hj; [done|].
    by apply page_ok_job.
Qed.

Lemma page_ok_new s0 : page_ok (new_page s0).
Proof.
  split; [|split; [done|split; [by intros ? ?%elem_of_nil|constructor]]].
  unfold instance_ok. simpl. repeat split; done.
Qed.

Lemma page_ok_history p hs : page_ok p → page_ok (history cfg p hs).
Proof.
  revert p. unfold history.
  induction hs as [|h hs IH]; intros p Hp; simpl; [done|].
  apply IH. by apply page_ok_happen.
Qed.

(** A queued continuation belongs to an aborted controller while a call
    awaits a step, so running it starts no step: the call that awaits
    stays the awaited one. *)
Lemma job_beside_awaited_is_aborted p t0 j queue c :
  page_ok p → awaited p = Some t0 → jobs p = j :: queue →
  job_signal j = Some c → signal_aborted (vf p) c = true.
Proof.
  intros (Hi & Haw & Hdom & Hnd) Ht0 Hj Hc.
  destruct (Haw t0 Ht0) as [Hcur _].
  assert (c ∈ omap job_signal (jobs p)) as Hin.
  { apply list_elem_of_omap. exists j. split; [|done]. rewrite Hj. by left. }
  destruct Hi as (_ & _ & Hd). apply Hd.
  - apply Hdom. unfold live_signals. apply elem_of_app. by right.
  - rewrite Hcur. intros [= Heq]. unfold live_signals in Hnd.
    rewrite Ht0 in Hnd.
    cbn [fmap option_fmap option_map option_list app] in Hnd.
    apply NoDup_cons in Hnd as [Hnot _]. apply Hnot. by rewrite Heq.
Qed.

Lemma awaited_call_stays p t0 :
  page_ok p → awaited p = Some t0 →
  awaited (happen cfg p NextJob) = Some t0.
Proof.
  intros Hp Ht0. unfold happen. destruct (frozen p); [done|].
  destruct (jobs p) as [|j queue] eqn:Hj; [done|].
  pose proof (job_beside_awaited_is_aborted p t0 j queue) as Hab.
  specialize (λ c, Hab c Hp Ht0 Hj).
  destruct j as [t|t v|name x|name v|name x]; cbn [run_job]; try done.
  - specialize (Hab _ eq_refl).
    destruct (playSteps cfg _ _ _ _ _ _ _) as [t'|v|x|] eqn:Ho; try done.
    apply playSteps_live in Ho.
    change (signal_aborted (onStateChange (vf p) ?st) ?c)
      with (signal_aborted (vf p) c) in Ho. congruence.
  - specialize (Hab _ eq_refl).
    destruct (after_playSteps cfg _ _ _ _ _ _) as [t'|v'|x|] eqn:Ho;
      cbn [continue_with]; try done.
    apply after_playSteps_awaits in Ho as (_ & _ & Ho). congruence.
Qed.

End PageFacts.

(** ** Pages: what orderly histories keep *)

Section OrderlyFacts.
Context (cfg : config).
Hypothesis Hnames : cfg_actions cfg !! EmptyString = None.

Lemma after_playSteps_expands_only i name a c fr v :
  expands_only cfg (after_playSteps cfg i name a c fr v).
Proof.
  unfold after_playSteps. destruct fr as [cs|cur rem]; [done|].
  apply run_loop_from_expands_only.
Qed.

Lemma task_current_same i i' t :
  abortController i' = abortController i → signals i' = signals i →
  currentActionName i' = currentActionName i →
  task_current i t → task_current i' t.
Proof.
  unfold task_current, signal_aborted. by intros -> -> ->.
Qed.

(** The call of action [name] goes on after a synchronous stretch of
    [runAction]. *)
Lemma continue_with_session i name c o :
  abortController i = Some c → signal_aborted i c = false →
  currentActionName i = Some name →
  expands_only cfg o →
  (∀ t, o = Awaiting t → task_name t = name ∧ task_signal t = c) →
  single_session cfg (continue_with i None [] name o).
Proof.
  intros Hc Hlive Hn Hex Hnew. destruct o as [t|v|x|]; cbn [continue_with].
  - destruct (Hnew t eq_refl) as [Hname Hsig].
    unfold single_session, task_current. cbn [vf awaited jobs].
    by rewrite Hname, Hsig.
  - done.
  - unfold single_session. cbn [vf awaited jobs app].
    by destruct (thrown_by_playSteps x).
  - done.
Qed.

Lemma orderly_job p j :
  log_ok (vf p) → awaited p = None → jobs p = [j] →
  job_of_session cfg (vf p) j →
  log_ok (vf (run_job cfg (vf p) None [] j))
  ∧ single_session cfg (run_job cfg (vf p) None [] j).
Proof.
  intros Hlog Haw Hj Hjob.
  destruct j as [t|t v|name x|name v|name x]; cbn [run_job job_of_session] in *.
  - destruct Hjob as [(Hc & Hn & Hlive) Hk].
    set (i1 := onStateChange (vf p) (state (task_step t))).
    assert (log_ok i1) as Hlog1.
    { apply (log_ok_snoc (vf p) _ (StateChange (state (task_step t))));
        [done|done| |apply Hlog].
      simpl. by rewrite Hn. }
    inversion Hk as [|? ? _ Hrest]; subst.
    pose proof (playSteps_expands_only cfg i1 (task_name t) (task_action t)
      (task_signal t) (task_frame t) (state (task_step t)) (task_rest t)
      Hrest) as Hex.
    destruct (playSteps cfg i1 _ _ _ _ _ _) as [t'|v|x|] eqn:Ho;
      cbn [vf]; (split; [done|]).
    + apply playSteps_name in Ho as (Hname & _ & Hsig).
      unfold single_session, task_current. cbn [vf awaited jobs].
      by rewrite Hname, Hsig.
    + unfold single_session. cbn [vf awaited jobs app job_of_session]. done.
    + unfold single_session. cbn [vf awaited jobs app job_of_session]. done.
    + done.
  - destruct Hjob as (Hc & Hn & Hlive).
    pose proof (after_playSteps_expands_only (vf p) (task_name t)
      (task_action t) (task_signal t) (task_frame t) v) as Hex.
    split.
    + by destruct (after_playSteps cfg _ _ _ _ _ _).
    + apply (continue_with_session _ _ (task_signal t)); try done.
      intros t' Ho. by apply after_playSteps_awaits in Ho as (? & ? & _).
  - done.
  - split; [|done]. cbn [vf].
    by apply (log_ok_settle cfg).
  - destruct Hjob as [Hn Hex]. split; [|done]. cbn [vf].
    by apply (log_ok_settle cfg).
Qed.

Lemma orderly_happen p h :
  page_ok p → log_ok (vf p) → single_session cfg p →
  (h ≠ NextJob → jobs p = []) →
  log_ok (vf (happen cfg p h)) ∧ single_session cfg (happen cfg p h).
Proof.
  intros Hp Hlog Hone Hq. unfold happen. destruct (frozen p); [done|].
  pose proof Hp as (Hi & Haw & _).
  destruct h as [name| | |].
  - pose proof (Hq ltac:(done)) as Hjobs. unfold call_play.
    destruct (cfg_actions cfg !! name) as [a|] eqn:Ha.
    + destruct (action_order a) as [|k rest] eqn:Ho; [done|].
      cbv zeta. set (i2 := started (vf p) name).
      set (c := fresh (dom (signals (stop (vf p))))).
      rewrite (awaited_dropped p i2 Hp)
        by (intros c0 Hc0; by apply started_aborts).
      assert (log_ok i2) as Hlog2.
      { apply log_ok_started; [done|done|]. intros ->. congruence. }
      rewrite Hjobs.
      pose proof (runAction_expands_only cfg i2 name a c (currentState i2))
        as Hex.
      split.
      * by destruct (runAction cfg i2 name a c (currentState i2)).
      * apply (continue_with_session _ _ c); try done.
        -- apply started_signal.
        -- intros t Hr. by apply runAction_name in Hr as (? & _ & ?).
    + destruct (inherited name); [done|]. cbn [vf]. split.
      * apply (log_ok_snoc (vf p) _ (ErrorEvent (UnknownAction name)));
          [done|done| |apply Hlog].
        simpl. by destruct (currentActionName (vf p)).
      * unfold single_session in *. cbn [vf awaited jobs].
        rewrite Hjobs in *.
        destruct (awaited p) as [t|]; [|done].
        destruct Hone as [Hcur Hk]. split; [|done].
        revert Hcur. by apply task_current_same.
  - cbv zeta. rewrite (awaited_dropped p (stop (vf p)) Hp)
      by (intros c Hc; by apply stop_aborts).
    cbn [vf]. split; [by apply log_ok_stop|].
    unfold single_session. cbn [awaited jobs]. by rewrite (Hq ltac:(done)).
  - destruct (awaited p) as [t|] eqn:Ht; [|done]. cbn [vf].
    split; [done|]. unfold single_session in *. cbn [vf awaited jobs].
    pose proof (Hq ltac:(done)) as Hjobs.
    rewrite Ht in Hone. by rewrite Hjobs in *.
  - destruct (jobs p) as [|j queue] eqn:Hj; [done|].
    unfold single_session in Hone. rewrite Hj in Hone.
    destruct (awaited p) as [t|] eqn:Ht; [done|].
    destruct queue as [|j' queue]; [|done].
    by apply (orderly_job p j).
Qed.

Lemma orderly_history hs p :
  page_ok p → log_ok (vf p) → single_session cfg p → orderly cfg p hs →
  log_ok (vf (history cfg p hs)) ∧ single_session cfg (history cfg p hs).
Proof.
  revert p. unfold history.
  induction hs as [|h hs IH]; intros p Hp Hlog Hone Hord; [done|].
  destruct Hord as [Hq Hord]. cbn [foldl].
  destruct (orderly_happen p h Hp Hlog Hone Hq) as [Hlog' Hone'].
  apply IH; [by apply page_ok_happen|done..].
Qed.

Lemma orderly_new s0 hs :
  orderly cfg (new_page s0) hs →
  log_ok (vf (history cfg (new_page s0) hs))
  ∧ single_session cfg (history cfg (new_page s0) hs).
Proof. apply orderly_history; [apply page_ok_new|done..]. Qed.

End OrderlyFacts.

(** X8. After any calls of [play] and [stop], settled steps and jobs on a
    new instance, in any order: whenever the current-action query reports
    a name that is not empty, the is-playing query reports true; the call
    that awaits a step holds the current controller, which is not aborted,
    while every queued continuation that could await a step belongs to an
    aborted controller; and every controller other than the current one
    has been aborted, so no second play call is live.  When the calls and
    completions come one per task, the current-action query reports the
    action of the call that awaits a step. *)
Theorem session_queries_consistent cfg s0 hs :
  let p := history cfg (new_page s0) hs in
  (∀ n, currentAction (vf p) = Some n → n ≠ EmptyString →
        isPlaying (vf p) = true) ∧
  (∀ t, awaited p = Some t →
        abortController (vf p) = Some (task_signal t) ∧
        isPlaying (vf p) = true ∧
        ∀ j c, j ∈ jobs p → job_signal j = Some c →
               signal_aborted (vf p) c = true) ∧
  (∀ c, c ∈ dom (signals (vf p)) → abortController (vf p) ≠ Some c →
        signal_aborted (vf p) c = true) ∧
  (cfg_actions cfg !! EmptyString = None → orderly cfg (new_page s0) hs →
   ∀ t, awaited p = Some t →
        jobs p = [] ∧ currentAction (vf p) = Some (task_name t)).
Proof.
  cbv zeta.
  pose proof (page_ok_history cfg _ hs (page_ok_new s0)) as Hp.
  set (p := history cfg (new_page s0) hs) in *.
  destruct Hp as ((Ha & Hb & Hd) & Haw & Hdom & Hnd).
  split; [done|]. split; [|split; [done|]].
  - intros t Ht. destruct (Haw t Ht) as [Hc Hlive].
    split; [done|]. split; [unfold isPlaying; by rewrite Hc, Hlive|].
    intros j c Hj Hsig. apply Hd.
    + apply Hdom. unfold live_signals. apply elem_of_app. right.
      apply list_elem_of_omap. by exists j.
    + rewrite Hc. intros [= Heq]. unfold live_signals in Hnd.
      rewrite Ht in Hnd. cbn [fmap option_fmap option_map option_list app]
        in Hnd. apply NoDup_cons in Hnd as [Hnot _]. apply Hnot.
      rewrite Heq. apply list_elem_of_omap. by exists j.
  - intros Hnames Hord t Ht.
    destruct (orderly_new cfg Hnames s0 hs Hord) as [_ Hone]. fold p in Hone.
    unfold single_session in Hone. rewrite Ht in Hone.
    destruct (jobs p); [|done]. by destruct Hone as [(_ & ? & _) _].
Qed.

(** X9. When no action is registered under the empty name and the calls
    and completions come one per task, the notifications of a new
    instance are well bracketed at every point: an action starts only when
    none is running, every state change lies between the start of an
    action and its end, and a started action is closed by exactly one
    "action ended" carrying its own name or by one error, before the next
    one starts.  The action left running by the notifications is the one
    the current-action query reports. *)
Theorem notifications_well_bracketed cfg s0 hs :
  cfg_actions cfg !! EmptyString = None →
  orderly cfg (new_page s0) hs →
  let p := history cfg (new_page s0) hs in
  bracketed None (emitted (vf p)) = Some (currentAction (vf p)).
Proof.
  intros Hnames Hord. cbv zeta.
  by destruct (orderly_new cfg Hnames s0 hs Hord) as [[Hlog _] _].
Qed.

Lemma notifications_well_bracketed_witness :
  bracketed None
    [ActionStart "right"; StateChange (Some "center"); ActionEnd "right";
     ActionStart "left"; StateChange (Some "left"); ActionEnd "left";
     ErrorEvent (UnknownAction "jump")]
  = Some None.
Proof.
  refine (notifications_well_bracketed Demo.shapes "left"
            [CallPlay "right"; StepDone; NextJob; CallPlay "left"; StepDone;
             NextJob; NextJob; NextJob; CallStop; CallPlay "jump"]
            eq_refl _).
  vm_compute. repeat split; done.
Defined.

(** Two calls of [play] in a row, the first of which has no step to play:
    its continuation runs after the second call, clears the recorded
    action of the second and notifies the end of the first once more. *)
Lemma stale_continuation_example :
  let p := history Demo.shapes (new_page "left")
             [CallPlay "left"; CallPlay "right"; NextJob] in
  emitted (vf p)
  = [ActionStart "left"; ActionEnd "left"; ActionStart "right";
     ActionEnd "left"] ∧
  (∃ t, awaited p = Some t ∧ task_name t = "right") ∧
  currentAction (vf p) = None ∧
  bracketed None (emitted (vf p)) = None.
Proof. cbv zeta. split; [done|]. split; [by eexists|done]. Qed.

(** ** Runs of the machine are orderly histories *)

Section MachineFacts.
Context (cfg : config).

Lemma history_app p hs1 hs2 :
  history cfg p (hs1 ++ hs2) = history cfg (history cfg p hs1) hs2.
Proof. apply foldl_app. Qed.

Lemma orderly_app p hs1 hs2 :
  orderly cfg p hs1 → orderly cfg (history cfg p hs1) hs2 →
  orderly cfg p (hs1 ++ hs2).
Proof.
  revert p. induction hs1 as [|h hs1 IH]; intros p H1 H2; [done|].
  destruct H1 as [Hq H1]. split; [done|]. by apply IH.
Qed.

Lemma orderly_jobs p k : orderly cfg p (repeat NextJob k).
Proof.
  revert p. induction k as [|k IH]; intros p; [done|]. by split.
Qed.

Lemma orderly_occurrences p inp :
  jobs p = [] → orderly cfg p (occurrences inp).
Proof.
  intros Hq. destruct inp as [| |name]; (split; [done|]);
    [apply (orderly_jobs _ 4)|done|apply (orderly_jobs _ 2)].
Qed.

Lemma history_frozen p hs : frozen p = true → history cfg p hs = p.
Proof.
  intros Hf. unfold history. induction hs as [|h hs IH]; [done|].
  cbn [foldl]. unfold happen at 2. by rewrite Hf.
Qed.

Lemma history_quiet i aw k :
  history cfg {| vf := i; awaited := aw; jobs := []; frozen := false |}
    (repeat NextJob k)
  = {| vf := i; awaited := aw; jobs := []; frozen := false |}.
Proof. unfold history. induction k as [|k IH]; [done|]. exact IH. Qed.

Lemma history_cons p h hs :
  history cfg p (h :: hs) = history cfg (happen cfg p h) hs.
Proof. done. Qed.

Lemma happen_job i aw j queue :
  happen cfg {| vf := i; awaited := aw; jobs := j :: queue; frozen := false |}
    NextJob
  = run_job cfg i aw queue j.
Proof. done. Qed.

(** The jobs a synchronous stretch of [runAction] leaves run next, and
    [settle] is what the last of them does. *)
Lemma continue_with_settles i aw name o k :
  history cfg (continue_with i aw [] name o) (repeat NextJob (2 + k))
  = {| vf := (settle i name o).1;
       awaited := match o with Awaiting t => Some t | _ => aw end;
       jobs := [];
       frozen := match o with Hangs => true | _ => false end |}.
Proof.
  destruct o as [t|v|x|]; cbn [continue_with].
  - apply (history_quiet i (Some t) (2 + k)).
  - cbn [repeat Nat.add app]. rewrite history_cons, happen_job.
    cbn [run_job]. apply (history_quiet _ aw (1 + k)).
  - cbn [repeat Nat.add app]. destruct (thrown_by_playSteps x).
    + rewrite history_cons, happen_job. cbn [run_job app].
      rewrite history_cons, happen_job. cbn [run_job].
      apply (history_quiet _ aw k).
    + rewrite history_cons, happen_job. cbn [run_job].
      apply (history_quiet _ aw (1 + k)).
  - by apply history_frozen.
Qed.

Lemma after_call_settled i name o old :
  after_call (settle i name o).1 old = after_call i old.
Proof.
  unfold after_call. destruct old as [t|]; [|done].
  by rewrite settle_signal_aborted.
Qed.

Lemma after_call_current i t :
  task_current i t → after_call i (Some t) = Some t.
Proof. intros (_ & _ & Hlive). unfold after_call. by rewrite Hlive. Qed.

(** An input of the machine is the call or the settlement it stands for
    followed by the jobs it leaves. *)
Lemma react_is_history m inp :
  session_ok cfg m →
  page_of (react cfg m inp) = history cfg (page_of m) (occurrences inp).
Proof.
  intros [Hi Ht]. unfold react.
  destruct m as [i fl h]. cbn [inst inflight hung] in *.
  destruct h.
  { by rewrite history_frozen. }
  assert (after_call i fl = fl) as Hkeep.
  { destruct fl as [t|]; [|done]. apply after_call_current. by apply Ht. }
  unfold page_of at 2. cbn [inst inflight hung].
  destruct inp as [| |name]; cbn [occurrences].
  - destruct fl as [t|].
    + rewrite history_cons.
      change (happen cfg _ StepDone)
        with {| vf := i; awaited := None; jobs := [StepsJob t];
                frozen := false |}.
      cbn [repeat]. rewrite history_cons, happen_job. cbn [run_job].
      unfold page_of. cbn [inst inflight hung]. unfold resume.
      set (i1 := onStateChange i (state (task_step t))).
      destruct (playSteps cfg i1 _ _ _ _ _ _) as [t'|v|x|] eqn:Ho.
      * apply (history_quiet i1 (Some t') 3).
      * cbn [app]. rewrite history_cons, happen_job. cbn [run_job].
        rewrite (continue_with_settles _ _ _ _ 0).
        by destruct (after_playSteps cfg i1 _ _ _ _ _) as [?|?|[|?]|].
      * cbn [app]. rewrite history_cons, happen_job. cbn [run_job app].
        rewrite history_cons, happen_job. cbn [run_job].
        rewrite (history_quiet _ None 1). by destruct x.
      * by rewrite history_frozen.
    + apply (history_quiet i None 4).
  - done.
  - rewrite history_cons.
    change (happen cfg ?p (CallPlay name)) with (call_play cfg p name).
    unfold call_play, play. cbn [vf awaited jobs].
    destruct (cfg_actions cfg !! name) as [a|] eqn:Ha.
    + destruct (action_order a) as [|key rest] eqn:Ho.
      * cbn [fst snd]. rewrite Hkeep. apply (history_quiet i fl 2).
      * cbv zeta. fold (started i name).
        set (i2 := started i name).
        set (c := fresh (dom (signals (stop i)))).
        set (o := runAction cfg i2 name a c (currentState i2)).
        rewrite (continue_with_settles _ _ _ _ 0). unfold page_of.
        cbn [inst inflight hung]. rewrite after_call_settled.
        by destruct o as [t|v|[|f]|].
    + destruct (inherited name).
      * cbn [fst snd]. rewrite Hkeep. apply (history_quiet i fl 2).
      * cbn [fst snd].
        change (after_call (emit ?e i) ?old) with (after_call i old).
        rewrite Hkeep. apply (history_quiet _ fl 2).
Qed.

(** A run of the machine is the orderly history of the occurrences its
    inputs stand for. *)
Lemma run_is_history m inputs :
  session_ok cfg m →
  page_of (run cfg m inputs)
  = history cfg (page_of m) (inputs ≫= occurrences)
  ∧ orderly cfg (page_of m) (inputs ≫= occurrences).
Proof.
  revert m. unfold run.
  induction inputs as [|inp inputs IH]; intros m Hm; [done|].
  cbn [foldl mbind list_bind]. change (list_bind _ _ ?f ?l) with (l ≫= f).
  destruct (IH (react cfg m inp) (session_ok_react cfg m inp Hm)) as [Hrun Hord].
  rewrite history_app, <- (react_is_history m inp Hm). split; [done|].
  apply orderly_app; [by apply orderly_occurrences|].
  by rewrite <- (react_is_history m inp Hm).
Qed.

End MachineFacts.

(** The runs of the machine on a new instance, of which the properties
    above speak, are the orderly histories of its page in which every
    call and every completion is followed by the jobs it leaves. *)
Lemma runs_are_orderly_histories cfg s0 inputs :
  page_of (run cfg (idle (new_instance s0)) inputs)
  = history cfg (new_page s0) (inputs ≫= occurrences)
  ∧ orderly cfg (new_page s0) (inputs ≫= occurrences).
Proof.
  apply (run_is_history cfg (idle (new_instance s0))), session_ok_new.
Qed.

(** X15. When the calls and completions come one per task and no action
    is registered under the empty name: playing an action with a
    non-empty order while another call awaits a step cancels that call
    first.  Its "action ended" is notified, then the start of the new
    action, and nothing else; the signal of the cancelled call is aborted
    and the step it awaited is abandoned, so the recorded state does not
    move; the instance records the new action; and the only call that can
    await a step afterwards is the new one, on a controller of its own,
    while a job it queued continues the new call. *)
Theorem play_supersedes_running_action cfg s0 hs t name a :
  cfg_actions cfg !! EmptyString = None →
  orderly cfg (new_page s0) hs →
  let p := history cfg (new_page s0) hs in
  frozen p = false → awaited p = Some t →
  cfg_actions cfg !! name = Some a → action_order a ≠ [] →
  let p' := happen cfg p (CallPlay name) in
  emitted (vf p')
  = emitted (vf p) ++ [ActionEnd (task_name t); ActionStart name] ∧
  signal_aborted (vf p') (task_signal t) = true ∧
  currentState (vf p') = currentState (vf p) ∧
  currentAction (vf p') = Some name ∧
  (∀ t', awaited p' = Some t' →
         task_name t' = name ∧ task_signal t' ≠ task_signal t ∧
         abortController (vf p') = Some (task_signal t')) ∧
  (∀ j, j ∈ jobs p' → job_of_session cfg (vf p') j ∧ awaited p' = None).
Proof.
  intros Hnames Hord. cbv zeta. intros Hf Ht Ha Hnil.
  destruct (orderly_new cfg Hnames s0 hs Hord) as [Hlog Hone].
  pose proof (page_ok_history cfg _ hs (page_ok_new s0)) as Hp.
  set (p := history cfg (new_page s0) hs) in *.
  pose proof Hp as (Hi & _).
  unfold single_session in Hone. rewrite Ht in Hone.
  destruct (jobs p) as [|j0 q0] eqn:Hjobs; [|done].
  destruct Hone as [(Hc & Hn & Hlive) Hk].
  assert (task_name t ≠ EmptyString) as Hne by by apply Hlog.
  unfold happen. rewrite Hf. unfold call_play. rewrite Ha.
  destruct (action_order a) as [|key rest] eqn:Ho; [done|]. cbv zeta.
  set (i2 := started (vf p) name).
  set (c := fresh (dom (signals (stop (vf p))))).
  rewrite (awaited_dropped p i2 Hp), Hjobs
    by (intros c0 Hc0; by apply started_aborts).
  assert (emitted i2 = emitted (vf p)
                       ++ [ActionEnd (task_name t); ActionStart name]) as Hem.
  { unfold i2, started. rewrite emitted_emit. cbn [emitted].
    rewrite (stop_active _ _ _ Hc Hn Hne). cbn [emitted].
    by rewrite <- app_assoc. }
  assert (currentState i2 = currentState (vf p)) as Hcur.
  { unfold i2. simpl. apply stop_currentState. }
  pose proof (started_aborts (vf p) name _ Hi Hc) as Hab. fold i2 in Hab.
  pose proof (started_signal (vf p) name) as Hsig. fold i2 c in Hsig.
  pose proof (runAction_expands_only cfg i2 name a c (currentState i2)) as Hex.
  assert (single_session cfg
            (continue_with i2 None [] name
               (runAction cfg i2 name a c (currentState i2)))) as Hone'.
  { apply (continue_with_session cfg _ _ c); try done.
    intros t' Hr. by apply runAction_name in Hr as (? & _ & ?). }
  destruct (runAction cfg i2 name a c (currentState i2)) as [t'|v|x|] eqn:Hr;
    cbn [continue_with vf awaited jobs app] in *;
    (split; [done|]); (split; [done|]); (split; [done|]); (split; [done|]).
  - split; [|by intros j ?%elem_of_nil].
    intros ? [= <-]. apply runAction_name in Hr as (Hname & _ & Hs).
    rewrite Hs. repeat split; try done. intros Heq. rewrite <- Heq in Hab.
    congruence.
  - split; [done|]. by intros j ->%list_elem_of_singleton.
  - split; [done|]. by intros j ->%list_elem_of_singleton.
  - split; [done|]. by intros j ?%elem_of_nil.
Qed.

Lemma play_supersedes_running_action_witness :
  let p := history Demo.shapes (new_page "left")
             [CallPlay "right"; StepDone; NextJob] in
  let p' := happen Demo.shapes p (CallPlay "left") in
  emitted (vf p') = emitted (vf p) ++ [ActionEnd "right"; ActionStart "left"] ∧
  signal_aborted (vf p') 0 = true ∧
  currentState (vf p') = currentState (vf p) ∧
  currentAction (vf p') = Some "left" ∧
  (∀ t', awaited p' = Some t' →
         task_name t' = "left" ∧ task_signal t' ≠ 0 ∧
         abortController (vf p') = Some (task_signal t')) ∧
  (∀ j, j ∈ jobs p' → job_of_session Demo.shapes (vf p') j ∧ awaited p' = None).
Proof.
  cbv zeta.
  refine (play_supersedes_running_action Demo.shapes "left"
            [CallPlay "right"; StepDone; NextJob]
            {| task_name := "right"; task_action := Demo.sequence_of ["right"];
               task_signal := 0;
               task_step := {| state := Some "right"; ms := n120 |};
               task_rest := []; task_frame := SequenceFrame (Some "left") |}
            "left" (Demo.sequence_of ["left"])
            eq_refl _ eq_refl eq_refl eq_refl ltac:(discriminate)).
  vm_compute. repeat split; done.
Defined.

(** ** Pages: the states that are notified and recorded *)

Section KnownFacts.
Context (cfg : config).

Lemma after_playSteps_keeps_known i name a c fr v :
  frame_known cfg fr → known (Some (cfg_validStates cfg)) v →
  keeps_known cfg (after_playSteps cfg i name a c fr v).
Proof.
  intros Hfr Hv. unfold after_playSteps.
  destruct fr as [cs|cur rem]; simpl in Hfr.
  - by apply name_or_known.
  - apply run_loop_from_keeps_known. by apply name_or_known.
Qed.

Lemma continue_with_known p i aw queue name o :
  page_known cfg p →
  known (Some (cfg_validStates cfg)) (currentState i) →
  Forall (event_ok cfg) (emitted i) →
  (aw = awaited p ∨ aw = None) → Forall (job_known cfg) queue →
  expands_only cfg o → keeps_known cfg o →
  page_known cfg (continue_with i aw queue name o).
Proof.
  intros (_ & _ & Haw & _) Hst Hev Hsame Hq Hex Hk.
  assert (∀ t, aw = Some t →
               task_known cfg t ∧ frame_known cfg (task_frame t)) as Haw'.
  { intros t Ht. destruct Hsame as [-> | ->]; [by apply Haw|done]. }
  destruct o as [t|v|x|]; cbn [continue_with]; (split; [done|]);
    (split; [done|]); cbn [awaited jobs]; (split; [|try done]).
  - by intros ? [= <-].
  - done.
  - apply Forall_app. split; [done|]. by constructor.
  - done.
  - apply Forall_app. split; [done|]. constructor; [|done].
    by destruct (thrown_by_playSteps x).
  - done.
Qed.

Lemma page_known_happen p h : page_known cfg p → page_known cfg (happen cfg p h).
Proof.
  intros Hp. unfold happen. destruct (frozen p); [done|].
  pose proof Hp as (Hst & Hev & Haw & Hq).
  assert (∀ i, (∀ t, after_call i (awaited p) = Some t →
                     task_known cfg t ∧ frame_known cfg (task_frame t)))
    as Hold.
  { intros i t. unfold after_call. destruct (awaited p) as [t0|]; [|done].
    destruct (signal_aborted _ _); [done|]. intros [= <-]. by apply Haw. }
  destruct h as [name| | |].
  - unfold call_play.
    destruct (cfg_actions cfg !! name) as [a|] eqn:Ha.
    + destruct (action_order a) as [|k rest] eqn:Ho; [done|]. cbv zeta.
      set (i2 := started (vf p) name).
      set (c := fresh (dom (signals (stop (vf p))))).
      assert (known (Some (cfg_validStates cfg)) (currentState i2)) as Hst2.
      { unfold i2. simpl. by rewrite stop_currentState. }
      assert (Forall (event_ok cfg) (emitted i2)) as Hev2.
      { unfold i2, started. rewrite emitted_emit. cbn [emitted].
        apply Forall_app. split; [by apply events_ok_stop|]. by constructor. }
      pose proof (runAction_expands_only cfg i2 name a c (currentState i2))
        as Hex.
      pose proof (runAction_keeps_known cfg i2 name a c (currentState i2) Hst2)
        as Hk.
      destruct (runAction cfg i2 name a c (currentState i2)) as [t|v|x|];
        cbn [continue_with]; (split; [done|]); (split; [done|]);
        cbn [awaited jobs]; (split; [|try done]).
      * by intros ? [= <-].
      * apply Hold.
      * apply Forall_app. split; [done|]. by constructor.
      * apply Hold.
      * apply Forall_app. split; [done|]. constructor; [|done].
        by destruct (thrown_by_playSteps x).
      * apply Hold.
    + destruct (inherited name); [done|].
      split; [done|]. split; [|done]. cbn [vf]. rewrite emitted_emit.
      apply Forall_app. split; [done|]. by constructor.
  - cbv zeta. split; cbn [vf awaited jobs]; [by rewrite stop_currentState|].
    split; [by apply events_ok_stop|]. split; [apply Hold|done].
  - destruct (awaited p) as [t|] eqn:Ht; [|done].
    split; [done|]. split; [done|]. cbn [awaited jobs]. split; [done|].
    apply Forall_app. split; [done|]. constructor; [|done]. by apply Haw.
  - destruct (jobs p) as [|j queue] eqn:Hj; [done|].
    inversion Hq as [|? ? Hjob Hqueue]; subst.
    destruct j as [t|t v|name x|name v|name x]; cbn [run_job job_known] in *.
    + destruct Hjob as [Hk Hfr].
      set (i1 := onStateChange (vf p) (state (task_step t))).
      inversion Hk as [|? ? Hhead Hrest]; subst.
      assert (Forall (event_ok cfg) (emitted i1)) as Hev1.
      { unfold i1, onStateChange. rewrite emitted_emit. cbn [emitted].
        apply Forall_app. split; [done|]. by constructor. }
      pose proof (playSteps_expands_only cfg i1 (task_name t) (task_action t)
        (task_signal t) (task_frame t) (state (task_step t)) (task_rest t)
        Hrest) as Hex.
      pose proof (playSteps_keeps_known cfg i1 (task_name t) (task_action t)
        (task_signal t) (task_frame t) (state (task_step t)) (task_rest t)
        Hfr (λ _, Hhead)) as Hkeep.
      destruct (playSteps cfg i1 _ _ _ _ _ _) as [t'|v|x|];
        (split; [done|]); (split; [done|]); cbn [awaited jobs];
        (split; [|try done]); try done.
      * by intros ? [= <-].
      * apply Forall_app. split; [done|]. by constructor.
      * apply Forall_app. split; [done|]. by constructor.
    + destruct Hjob as [Hfr Hv].
      apply (continue_with_known p); try done; [by left| |].
      * apply after_playSteps_expands_only.
      * by apply after_playSteps_keeps_known.
    + split; [done|]. split; [done|]. cbn [awaited jobs]. split; [done|].
      apply Forall_app. split; [done|]. by constructor.
    + split; cbn [vf awaited jobs]; [by apply settle_keeps_known|].
      split; [by apply events_ok_settle|done].
    + split; cbn [vf awaited jobs]; [by apply settle_keeps_known|].
      split; [by apply events_ok_settle|done].
Qed.

Lemma page_known_history p hs :
  page_known cfg p → page_known cfg (history cfg p hs).
Proof.
  revert p. unfold history.
  induction hs as [|h hs IH]; intros p Hp; simpl; [done|].
  apply IH. by apply page_known_happen.
Qed.

(** What X10 and X11 state of the runs of the machine holds of every
    history of a page, also when calls come between a settled promise and
    its continuation: every notified state change carries a state of the
    SVG, no error about missing snapshots is notified, and the recorded
    state is a state of the SVG. *)
Lemma histories_keep_to_known_states s0 hs :
  s0 ∈ cfg_validStates cfg →
  let p := history cfg (new_page s0) hs in
  (∀ st, StateChange st ∈ emitted (vf p) →
         known (Some (cfg_validStates cfg)) st) ∧
  (∀ st, ErrorEvent (NoSnapshots st) ∉ emitted (vf p)) ∧
  known (Some (cfg_validStates cfg)) (currentState (vf p)).
Proof.
  intros Hs0. cbv zeta.
  assert (page_known cfg (new_page s0)) as Hnew.
  { split; [|split; [by constructor|split; [done|by constructor]]].
    unfold known. simpl. by rewrite bool_decide_eq_true_2. }
  destruct (page_known_history _ hs Hnew) as (Hst & Hev & _).
  rewrite Forall_forall in Hev. split; [|split; [|done]].
  - intros st Hin. by apply (Hev _ Hin).
  - intros st Hin. by apply (Hev _ Hin).
Qed.

End KnownFacts.

(** * Properties of the configuration parser *)

Arguments Parser.get : simpl never.

Lemma validate_ok json c :
  Parser.validate json = Ok c →
  ∃ initial routes actions rs acts,
    Parser.get json "initial_state" = Some (Parser.JsStr initial) ∧
    initial ≠ EmptyString ∧
    Parser.get json "routes" = Some routes ∧
    Parser.get json "actions" = Some actions ∧
    for_of Parser.route_block ∅ (Parser.entries routes) = Ok rs ∧
    for_of Parser.action_entry ∅ (Parser.entries actions) = Ok acts ∧
    Parser.p_initial_state c = initial ∧ Parser.p_routes c = rs ∧
    Parser.p_actions c = acts ∧
    Parser.p_ms c = default n120 (Parser.positive (Parser.get json "ms")).
Proof.
  unfold Parser.validate. intros H.
  destruct (Parser.get json "initial_state") as [[| | |initial| |]|] eqn:Hi;
    try (by destruct json).
  destruct (bool_decide (initial = EmptyString)) eqn:Hne;
    [by destruct json|]. apply bool_decide_eq_false in Hne.
  destruct (Parser.get json "routes") as [routes|] eqn:Hr;
    [|by destruct json].
  destruct (Parser.get json "actions") as [actions|] eqn:Ha;
    [|by destruct json, routes].
  exists initial, routes, actions.
  destruct (for_of Parser.route_block ∅ (Parser.entries routes)) as [rs|e]
    eqn:Hrs; [|by destruct json, routes, actions].
  destruct (for_of Parser.action_entry ∅ (Parser.entries actions)) as [acts|e]
    eqn:Hacts; [|by destruct json, routes, actions].
  exists rs, acts.
  destruct json, routes, actions; try done; simpl in H; injection H as <-;
    done.
Qed.

Lemma parse_validates JSON_parse input c :
  Parser.parseAndValidateJSON JSON_parse input = Ok c →
  ∃ json, Parser.validate json = Ok c ∧
          (input = json ∨ ∃ s, input = Parser.JsStr s ∧ JSON_parse s = Some json).
Proof.
  unfold Parser.parseAndValidateJSON. destruct input as [| | |s|xs|fs]; try done.
  - destruct (JSON_parse s) as [json|] eqn:Hp; [|done].
    intros H. exists json. split; [done|]. right. by exists s.
  - intros H. eexists. split; [done|]. by left.
Qed.

Lemma normalize_normal action : normal_action (Parser.normalize action).
Proof.
  unfold Parser.normalize.
  set (type := match Parser.get action "type" with
               | Some (Parser.JsStr s) =>
                   if bool_decide (s = "loop") then "loop" else "sequence"
               | _ => "sequence"
               end).
  assert (type = "loop" ∨ type = "sequence") as Htype.
  { unfold type. destruct (Parser.get action "type") as [[| | |s| |]|]; auto.
    case_bool_decide; auto. }
  clearbody type. cbv zeta.
  destruct (Parser.get action "order") as [[| | | |[|x xs]|]|];
    try (unfold normal_action; simpl; by auto).
  unfold normal_action. simpl. split; [done|]. split.
  - unfold Parser.positive.
    destruct (Parser.get action "ms") as [[| |m| | |]|]; auto.
    destruct (gt0 m) eqn:Hm; eauto.
  - destruct Htype as [-> | ->];
      [rewrite !bool_decide_eq_true_2 by done
      |by rewrite !bool_decide_eq_false_2 by done].
    unfold Parser.positive.
    destruct (Parser.get action "count") as [[| |m| | |]|]; simpl; eauto.
    destruct (gt0 m) eqn:Hm; simpl; eauto.
Qed.

Lemma action_entry_normal acts na acts' :
  (∀ name a, acts !! name = Some a → normal_action a) →
  Parser.action_entry acts na = Ok acts' →
  ∀ name a, acts' !! name = Some a → normal_action a.
Proof.
  intros Hacts. unfold Parser.action_entry.
  destruct na.2 as [|b|n|s|ys|fs]; [done|..]; intros [= <-] name a;
    (destruct (decide (na.1 = name)) as [<-|Hne];
     [rewrite lookup_insert_eq; intros [= <-]; apply normalize_normal
     |rewrite lookup_insert_ne by done; apply Hacts]).
Qed.

(** X16. A configuration [parseAndValidateJSON] accepts is in normal
    form: its initial state is a non-empty string and its global duration
    is a positive number; every action has the type loop or sequence and
    a duration that is absent or positive; an action without a valid
    order carries an empty order and nothing else; a loop with an order
    carries a positive count; a sequence carries no count and no mode.
    So the default count of [runAction] never applies to a parsed loop,
    and [resolveMs] never reaches its fallback of 120 on a parsed
    configuration: the duration is the action's, else a usable route
    duration, else the global one. *)
Theorem parsed_config_is_normal JSON_parse input c :
  Parser.parseAndValidateJSON JSON_parse input = Ok c →
  Parser.p_initial_state c ≠ EmptyString ∧
  gt0 (Parser.p_ms c) = true ∧
  (∀ name a, Parser.p_actions c !! name = Some a →
     normal_action a ∧
     (∀ x, Parser.na_count a = Some x → loop_count (Parser.na_count a) = x) ∧
     (∀ routeMs,
        Engine.resolveMs (Parser.na_ms a) routeMs (JNum (Parser.p_ms c))
        = default (default (Parser.p_ms c) (Engine.is_positive_number routeMs))
                  (Engine.is_positive_number (Parser.na_ms a)))).
Proof.
  intros (json & Hv & _)%parse_validates.
  apply validate_ok in Hv
    as (initial & routes & actions & rs & acts & _ & Hne & _ & _ & _ & Hacts
        & Hi & _ & Ha & Hms).
  assert (gt0 (Parser.p_ms c) = true) as Hpos.
  { rewrite Hms. unfold Parser.positive.
    destruct (Parser.get json "ms") as [[| |n| | |]|]; try done.
    by destruct (gt0 n) eqn:Hn. }
  split; [by rewrite Hi|]. split; [done|].
  intros name a Hlook. rewrite Ha in Hlook.
  assert (normal_action a) as Hnormal.
  { revert name a Hlook. revert Hacts.
    apply (for_of_invariant
             (λ acts, ∀ name a, acts !! name = Some a → normal_action a)).
    - intros s x s' Hs Hx. by eapply action_entry_normal.
    - intros name a. by rewrite lookup_empty. }
  split; [done|]. split.
  - intros x Hx. destruct Hnormal as (_ & _ & Hcount).
    destruct (Parser.na_order a); [by rewrite Hx in Hcount; destruct Hcount as (_ & ? & _)|].
    case_bool_decide; [|by rewrite Hx in Hcount; destruct Hcount].
    destruct Hcount as (y & Hy & Hpos'). rewrite Hx in Hy. injection Hy as <-.
    rewrite Hx. unfold loop_count, truthy.
    destruct x as [| | |[] ip fp]; try done. simpl in Hpos'. by rewrite Hpos'.
  - intros routeMs. unfold Engine.resolveMs.
    destruct (Engine.is_positive_number (Parser.na_ms a)); [done|].
    destruct (Engine.is_positive_number routeMs); [done|].
    simpl. by rewrite Hpos.
Qed.

Lemma strings_of_array xs p :
  Parser.strings_of xs = Some p → Parser.JsStr <$> p = xs.
Proof.
  revert p. induction xs as [|x xs IH]; intros p; simpl.
  - by intros [= <-].
  - destruct x as [| | |s| |]; try done.
    destruct (Parser.strings_of xs) as [q|]; [|done]. simpl.
    intros [= <-]. simpl. by rewrite IH.
Qed.

Lemma route_entry_value target block kv block' :
  (∀ key v, block !! key = Some v → route_value key v) →
  Parser.route_entry target block kv = Ok block' →
  ∀ key v, block' !! key = Some v → route_value key v.
Proof.
  intros Hblock. unfold Parser.route_entry.
  case_bool_decide as Hms.
  - destruct kv.2 as [| |x| | |]; try done. intros [= <-] key v.
    destruct (decide ("ms" = key)) as [<-|Hne].
    + rewrite lookup_insert_eq. intros [= <-]. unfold route_value. simpl.
      by eexists.
    + rewrite lookup_insert_ne by done. apply Hblock.
  - destruct kv.2 as [| | | |xs|]; try done.
    destruct (Parser.strings_of xs) as [p|]; [|done]. intros [= <-] key v.
    destruct (decide (kv.1 = key)) as [<-|Hne].
    + rewrite lookup_insert_eq. intros [= <-]. unfold route_value.
      rewrite bool_decide_eq_false_2 by done. by eexists.
    + rewrite lookup_insert_ne by done. apply Hblock.
Qed.

Lemma route_block_values routes tb routes' :
  (∀ target block key v, routes !! target = Some block →
                         block !! key = Some v → route_value key v) →
  Parser.route_block routes tb = Ok routes' →
  ∀ target block key v, routes' !! target = Some block →
                        block !! key = Some v → route_value key v.
Proof.
  intros Hroutes. unfold Parser.route_block.
  assert (∀ b, for_of (Parser.route_entry tb.1) ∅ (Parser.entries tb.2) = Ok b →
               ∀ key v, b !! key = Some v → route_value key v) as Hblock.
  { intros b. apply (for_of_invariant
      (λ b, ∀ key v, b !! key = Some v → route_value key v)).
    - intros s x s' Hs Hx. by eapply route_entry_value.
    - intros key v. by rewrite lookup_empty. }
  destruct (for_of _ _ _) as [b|e] eqn:Hb; [|by destruct tb.2].
  specialize (Hblock b eq_refl).
  destruct tb.2; try done; simpl; intros [= <-] target block key v;
    (destruct (decide (tb.1 = target)) as [<-|Hne];
     [rewrite lookup_insert_eq; intros [= <-]; apply Hblock
     |rewrite lookup_insert_ne by done; apply Hroutes]).
Qed.

(** X17. In the route table of a configuration [parseAndValidateJSON]
    accepts, every block holds a number under the key ["ms"] and an array
    of strings under every other key: whatever [resolvePath] finds in a
    block under a state name or under ["*"] is a path of state names. *)
Theorem parsed_routes_hold_paths JSON_parse input c :
  Parser.parseAndValidateJSON JSON_parse input = Ok c →
  ∀ target block key v,
    Parser.p_routes c !! target = Some block → block !! key = Some v →
    route_value key v.
Proof.
  intros (json & Hv & _)%parse_validates.
  apply validate_ok in Hv
    as (initial & routes & actions & rs & acts & _ & _ & _ & _ & Hrs & _
        & _ & Hr & _).
  rewrite Hr. revert Hrs.
  apply (for_of_invariant
    (λ rs, ∀ target block key v, rs !! target = Some block →
                                 block !! key = Some v → route_value key v)).
  - intros s x s' Hs Hx. by eapply route_block_values.
  - intros target block key v. by rewrite lookup_empty.
Qed.

Lemma sample_is_parsed JSON_parse :
  Parser.parseAndValidateJSON JSON_parse sample_input = Ok sample_parsed.
Proof. by vm_compute. Qed.

Lemma parsed_config_is_normal_witness :
  gt0 (Parser.p_ms sample_parsed) = true ∧
  normal_action {| Parser.na_type := "loop";
                   Parser.na_order := [Parser.JsStr "right"];
                   Parser.na_ms := JUndef;
                   Parser.na_count := Some n99999;
                   Parser.na_mode := None |}.
Proof.
  destruct (parsed_config_is_normal (λ _, None) sample_input sample_parsed
              (sample_is_parsed _)) as (_ & Hms & Hacts).
  split; [exact Hms|].
  exact (proj1 (Hacts "go" _ eq_refl)).
Defined.

Lemma parsed_routes_hold_paths_witness :
  route_value "*" (JArr ["center"; "right"]) ∧ route_value "ms" (JNum n50).
Proof.
  pose proof (parsed_routes_hold_paths (λ _, None) sample_input sample_parsed
                (sample_is_parsed _) "right"
                {[ "*" := JArr ["center"; "right"]; "ms" := JNum n50 ]})
    as Hroutes.
  split; apply Hroutes; reflexivity.
Defined.

(** ** The actions a configuration registers *)







(** * Properties of the discovery of states and parts *)

(** ** Maps in insertion order *)

Lemma map_set_keys {A} k (v : A) m :
  (Discovery.map_set k v m).*1
  = if bool_decide (k ∈ m.*1) then m.*1 else m.*1 ++ [k].
Proof.
  induction m as [|[k' v'] m IH]; [done|].
  cbn [Discovery.map_set]. rewrite (fmap_cons fst (k', v') m). cbn [fst].
  destruct (decide (k' = k)) as [->|Hne].
  - rewrite (bool_decide_eq_true_2 (k = k)) by done.
    rewrite (bool_decide_eq_true_2 (k ∈ k :: m.*1)) by by left. done.
  - rewrite (bool_decide_eq_false_2 (k' = k)) by done.
    rewrite fmap_cons, IH. cbn [fst].
    destruct (decide (k ∈ m.*1)) as [Hin|Hout].
    + rewrite (bool_decide_eq_true_2 (k ∈ m.*1)) by done.
      rewrite (bool_decide_eq_true_2 (k ∈ k' :: m.*1)) by by right. done.
    + rewrite (bool_decide_eq_false_2 (k ∈ m.*1)) by done.
      rewrite (bool_decide_eq_false_2 (k ∈ k' :: m.*1)); [done|].
      rewrite not_elem_of_cons. split; [congruence|done].
Qed.

Lemma map_set_key_in {A} k (v : A) m x :
  x ∈ (Discovery.map_set k v m).*1 ↔ x = k ∨ x ∈ m.*1.
Proof.
  rewrite map_set_keys. case_bool_decide as Hk.
  - split; [by right|]. by intros [->|?].
  - rewrite elem_of_app, list_elem_of_singleton. tauto.
Qed.

Lemma map_set_NoDup {A} k (v : A) m :
  NoDup m.*1 → NoDup (Discovery.map_set k v m).*1.
Proof.
  intros Hnd. rewrite map_set_keys. case_bool_decide as Hk; [done|].
  apply NoDup_app. split; [done|]. split; [|apply NoDup_singleton].
  intros x Hx ->%list_elem_of_singleton. done.
Qed.

Lemma map_set_entry {A} k (v : A) m k' v' :
  (k', v') ∈ Discovery.map_set k v m → (k', v') = (k, v) ∨ (k', v') ∈ m.
Proof.
  induction m as [|[k0 v0] m IH]; simpl.
  - intros ->%list_elem_of_singleton. by left.
  - case_bool_decide as Hk.
    + rewrite !elem_of_cons. intros [?|?]; auto.
    + rewrite !elem_of_cons. intros [?|?%IH]; tauto.
Qed.

Lemma map_set_new_keys {A} k (v : A) m :
  k ∉ m.*1 → (Discovery.map_set k v m).*1 = m.*1 ++ [k].
Proof. intros Hk. rewrite map_set_keys. by rewrite bool_decide_eq_false_2. Qed.

(** ** State groups *)

Lemma states_fold_sound groups m :
  NoDup m.*1 → EmptyString ∉ m.*1 →
  (∀ k g, (k, g) ∈ m → Discovery.state_name (Discovery.group_id g) = k) →
  NoDup (foldl Discovery.state_entry m groups).*1 ∧
  (EmptyString ∉ (foldl Discovery.state_entry m groups).*1) ∧
  (∀ k g, (k, g) ∈ foldl Discovery.state_entry m groups →
          Discovery.state_name (Discovery.group_id g) = k
          ∧ ((k, g) ∈ m ∨ g ∈ groups)).
Proof.
  revert m. induction groups as [|g groups IH]; intros m Hnd Hne Hm; simpl.
  - split; [done|]. split; [done|]. intros k g Hin. split; [by apply Hm|by left].
  - destruct (IH (Discovery.state_entry m g)) as (Hnd' & Hne' & Hm').
    + unfold Discovery.state_entry. simpl.
      case_bool_decide; [done|]. by apply map_set_NoDup.
    + unfold Discovery.state_entry. simpl. case_bool_decide as Hname; [done|].
      rewrite map_set_key_in. intros [?|?]; congruence.
    + unfold Discovery.state_entry. simpl. intros k g'.
      case_bool_decide; [apply Hm|].
      intros [[= -> ->]|Hin]%map_set_entry; [done|by apply Hm].
    + split; [done|]. split; [done|]. intros k g' Hin.
      destruct (Hm' k g' Hin) as [Hname [Hin'|Hin']]; split; try done.
      * unfold Discovery.state_entry in Hin'. simpl in Hin'.
        destruct (bool_decide _); [by left|].
        apply map_set_entry in Hin' as [[= -> ->]|?]; [right; by left|by left].
      * right. by right.
Qed.

Lemma states_fold_keeps groups m k :
  k ∈ m.*1 → k ∈ (foldl Discovery.state_entry m groups).*1.
Proof.
  revert m. induction groups as [|g groups IH]; intros m Hk; simpl; [done|].
  apply IH. unfold Discovery.state_entry. simpl. case_bool_decide; [done|].
  apply map_set_key_in. by right.
Qed.

Lemma states_fold_complete groups m g :
  g ∈ groups → Discovery.state_name (Discovery.group_id g) ≠ EmptyString →
  Discovery.state_name (Discovery.group_id g)
  ∈ (foldl Discovery.state_entry m groups).*1.
Proof.
  revert m. induction groups as [|g' groups IH]; intros m Hin Hname.
  - by apply elem_of_nil in Hin.
  - simpl. apply elem_of_cons in Hin as [<-|Hin]; [|by apply IH].
    apply states_fold_keeps. unfold Discovery.state_entry. simpl.
    rewrite bool_decide_eq_false_2 by done. apply map_set_key_in. by left.
Qed.

(** X19. When [discoverStates] returns, the map it returns is not empty,
    its keys are distinct and none of them is the empty string; every
    entry maps the name that follows the prefix of a group's id to such a
    group, and every group whose id has a name after the prefix is keyed
    by it.  It throws exactly when no group has such a name. *)
Theorem discoverStates_names stateGroups :
  (∀ stateMap, Discovery.discoverStates stateGroups = Ok stateMap →
     stateMap ≠ [] ∧ NoDup stateMap.*1 ∧ (EmptyString ∉ stateMap.*1) ∧
     (∀ k g, (k, g) ∈ stateMap →
             g ∈ stateGroups ∧ Discovery.state_name (Discovery.group_id g) = k) ∧
     (∀ g, g ∈ stateGroups →
           Discovery.state_name (Discovery.group_id g) ≠ EmptyString →
           Discovery.state_name (Discovery.group_id g) ∈ stateMap.*1)) ∧
  ((∃ e, Discovery.discoverStates stateGroups = Throw e) ↔
   Forall (λ g, Discovery.state_name (Discovery.group_id g) = EmptyString)
          stateGroups).
Proof.
  unfold Discovery.discoverStates.
  destruct stateGroups as [|g0 groups] eqn:Hgroups.
  { split; [done|]. split; [done|]. by eexists. }
  rewrite <- Hgroups. clear Hgroups.
  destruct (states_fold_sound stateGroups [] (NoDup_nil_2) (not_elem_of_nil _))
    as (Hnd & Hne & Hm); [by intros k g ?%elem_of_nil|].
  pose proof (states_fold_complete stateGroups []) as Hall.
  destruct (foldl Discovery.state_entry [] stateGroups) as [|kg sm] eqn:Hfold.
  - split; [done|]. split; [intros _|by eexists].
    apply Forall_forall. intros g Hg.
    destruct (decide (Discovery.state_name (Discovery.group_id g) = EmptyString))
      as [|Hname]; [done|].
    by apply (Hall g Hg), elem_of_nil in Hname.
  - split.
    + intros ? [= <-]. split; [done|]. split; [done|]. split; [done|].
      split; [|done]. intros k g Hin.
      destruct (Hm k g Hin) as [Hname [?%elem_of_nil|?]]; done.
    + split; [by intros [e ?]|]. intros Hempty. exfalso.
      destruct kg as [k g]. destruct (Hm k g) as [Hname [?%elem_of_nil|Hin]];
        [by left|done|].
      rewrite Forall_forall in Hempty. rewrite (Hempty g Hin) in Hname.
      apply Hne. rewrite <- Hname. simpl. by left.
Qed.

(** ** Sorted and joined part names *)

Lemma ascii_compare_refl c : Ascii.compare c c = Eq.
Proof. unfold Ascii.compare. apply N.compare_refl. Qed.

Lemma string_compare_trans a b c :
  String.compare a b ≠ Gt → String.compare b c ≠ Gt → String.compare a c ≠ Gt.
Proof.
  revert b c. induction a as [|x a IH]; intros [|y b] [|z c]; simpl; try done.
  destruct (Ascii.compare x y) eqn:Hxy; [| |done];
    destruct (Ascii.compare y z) eqn:Hyz; try done.
  - apply Ascii.compare_eq_iff in Hxy as ->.
    apply Ascii.compare_eq_iff in Hyz as ->.
    rewrite ascii_compare_refl. apply IH.
  - apply Ascii.compare_eq_iff in Hxy as ->. by rewrite Hyz.
  - apply Ascii.compare_eq_iff in Hyz as <-. by rewrite Hxy.
  - unfold Ascii.compare in *. rewrite N.compare_lt_iff in Hxy, Hyz.
    assert (N_of_ascii x < N_of_ascii z)%N as Hxz by lia.
    apply N.compare_lt_iff in Hxz. by rewrite Hxz.
Qed.

#[local] Instance str_le_total : Total Discovery.str_le.
Proof. intros a b. apply String.leb_total. Qed.

#[local] Instance str_le_antisym : AntiSymm (=) Discovery.str_le.
Proof. intros a b. apply String.leb_antisym. Qed.

#[local] Instance str_le_trans : Transitive Discovery.str_le.
Proof.
  intros a b c. unfold Discovery.str_le, String.leb. intros Hab Hbc.
  pose proof (string_compare_trans a b c) as Hac.
  destruct (String.compare a b); try done;
    destruct (String.compare b c); try done;
    destruct (String.compare a c); try done; by destruct Hac.
Qed.

Lemma sort_permutation xs : Discovery.sort xs ≡ₚ xs.
Proof. apply merge_sort_Permutation. Qed.

Lemma sort_same xs ys : xs ≡ₚ ys ↔ Discovery.sort xs = Discovery.sort ys.
Proof.
  split.
  - intros Hp. apply (Sorted_unique Discovery.str_le).
    + apply Sorted_merge_sort. apply _.
    + apply Sorted_merge_sort. apply _.
    + by rewrite !sort_permutation.
  - intros Hs. by rewrite <- (sort_permutation xs), Hs, sort_permutation.
Qed.

Lemma has_comma_append a s :
  has_comma (String.append a (String "," s)) = true.
Proof. induction a as [|c a IH]; simpl; [done|]. by rewrite IH, orb_true_r. Qed.

Lemma append_comma_inj a a' s s' :
  comma_free a → comma_free a' →
  String.append a (String "," s) = String.append a' (String "," s') →
  a = a' ∧ s = s'.
Proof.
  unfold comma_free. revert a'.
  induction a as [|c a IH]; intros [|c' a']; simpl.
  - by intros _ _ [= ->].
  - intros _ [Hc _]%orb_false_iff [= <- _]. by apply bool_decide_eq_false in Hc.
  - intros [Hc _]%orb_false_iff _ [= -> _]. by apply bool_decide_eq_false in Hc.
  - intros [_ Ha]%orb_false_iff [_ Ha']%orb_false_iff [= -> Heq].
    destruct (IH a' Ha Ha' Heq) as [-> ->]. done.
Qed.

Lemma join_inj xs ys :
  xs ≠ [] → ys ≠ [] → Forall comma_free xs → Forall comma_free ys →
  Discovery.join xs = Discovery.join ys → xs = ys.
Proof.
  revert ys. induction xs as [|x [|x2 xs] IH]; intros [|y [|y2 ys]];
    try done; intros _ _ Hxs Hys.
  - by intros [= ->].
  - cbn [Discovery.join]. intros ->. inversion Hxs as [|? ? Hx _]; subst.
    unfold comma_free in Hx. by rewrite has_comma_append in Hx.
  - cbn [Discovery.join]. intros <-. inversion Hys as [|? ? Hy _]; subst.
    unfold comma_free in Hy. by rewrite has_comma_append in Hy.
  - change (Discovery.join (x :: x2 :: xs))
      with (String.append x (String "," (Discovery.join (x2 :: xs)))).
    change (Discovery.join (y :: y2 :: ys))
      with (String.append y (String "," (Discovery.join (y2 :: ys)))).
    inversion Hxs as [|? ? Hx Hxs']; subst.
    inversion Hys as [|? ? Hy Hys']; subst.
    intros [-> Hrest]%append_comma_inj; [|done..].
    f_equal. by apply IH.
Qed.

(** The joined sorted names of two maps are equal exactly when the maps
    have the same keys. *)
Lemma part_names_same (m1 m2 : list (string * nat)) :
  m1 ≠ [] → m2 ≠ [] → NoDup m1.*1 → NoDup m2.*1 →
  Forall comma_free m1.*1 → Forall comma_free m2.*1 →
  Discovery.part_names m1 = Discovery.part_names m2 ↔
  ∀ p, p ∈ m1.*1 ↔ p ∈ m2.*1.
Proof.
  intros Hne1 Hne2 Hnd1 Hnd2 Hc1 Hc2. unfold Discovery.part_names.
  assert (∀ m : list (string * nat), m ≠ [] → Discovery.sort m.*1 ≠ []) as Hne.
  { intros m Hm Hs. pose proof (sort_permutation m.*1) as Hp.
    rewrite Hs in Hp. apply Permutation_nil_l in Hp. by destruct m. }
  split.
  - intros Heq%join_inj; try by apply Hne.
    + apply sort_same in Heq. intros p. by rewrite Heq.
    + by rewrite sort_permutation.
    + by rewrite sort_permutation.
  - intros Hsame. f_equal. apply sort_same. by apply NoDup_Permutation.
Qed.

(** ** Part maps *)

Lemma imap_snd {A B} (f : nat → A → B * A) xs :
  (∀ n x, (f n x).2 = x) → (imap f xs).*2 = xs.
Proof.
  revert f. induction xs as [|x xs IH]; intros f Hf; simpl; [done|].
  rewrite Hf. f_equal. apply IH. intros n y. apply Hf.
Qed.

Lemma named_part_in g p :
  p ∈ named_parts g ↔ p ∈ Discovery.data_parts g ∧ p ≠ EmptyString.
Proof.
  unfold named_parts. rewrite !list_elem_of_In, filter_In.
  rewrite negb_true_iff, bool_decide_eq_false. done.
Qed.

Lemma part_fold_keys els m :
  NoDup m.*1 →
  NoDup (foldl Discovery.part_entry m els).*1 ∧
  ∀ p, p ∈ (foldl Discovery.part_entry m els).*1
       ↔ p ∈ m.*1 ∨ (p ∈ els.*2 ∧ p ≠ EmptyString).
Proof.
  revert m. induction els as [|[n q] els IH]; intros m Hnd; simpl.
  - split; [done|]. intros p. rewrite elem_of_nil. tauto.
  - unfold Discovery.part_entry at 2 4. simpl.
    case_bool_decide as Hq.
    + destruct (IH m Hnd) as [Hnd' Hin]. split; [done|]. intros p.
      rewrite Hin, elem_of_cons. subst q. split; [tauto|].
      intros [?|[[->|?] ?]]; tauto.
    + destruct (IH (Discovery.map_set q n m)) as [Hnd' Hin];
        [by apply map_set_NoDup|].
      split; [done|]. intros p.
      rewrite Hin, map_set_key_in, elem_of_cons. split; [|tauto].
      intros [[->|?]|[? ?]]; tauto.
Qed.

Lemma part_map_keys g :
  NoDup (Discovery.part_map g).*1 ∧
  ∀ p, p ∈ (Discovery.part_map g).*1 ↔ p ∈ named_parts g.
Proof.
  unfold Discovery.part_map.
  destruct (part_fold_keys (imap pair (Discovery.data_parts g)) [])
    as [Hnd Hin]; [apply NoDup_nil_2|].
  split; [done|]. intros p.
  rewrite Hin, named_part_in, imap_snd by done. rewrite elem_of_nil. tauto.
Qed.

Lemma part_map_empty g : Discovery.part_map g = [] ↔ named_parts g = [].
Proof.
  destruct (part_map_keys g) as [_ Hin]. split; intros Hnil.
  - destruct (named_parts g) as [|p ps] eqn:Hp; [done|].
    assert (p ∈ (Discovery.part_map g).*1) as Hp' by (apply Hin; by left).
    rewrite Hnil in Hp'. by apply elem_of_nil in Hp'.
  - destruct (Discovery.part_map g) as [|[p n] ps] eqn:Hp; [done|].
    assert (p ∈ named_parts g) as Hp' by (apply Hin; by left).
    rewrite Hnil in Hp'. by apply elem_of_nil in Hp'.
Qed.

Lemma part_map_comma_free g :
  Forall comma_free (Discovery.data_parts g) →
  Forall comma_free (Discovery.part_map g).*1.
Proof.
  rewrite !Forall_forall. intros Hg p Hp.
  apply part_map_keys, named_part_in in Hp as [Hp _]. by apply Hg.
Qed.

(** ** The check of the part sets *)

Lemma parts_loop stateMap stateParts ref :
  (∃ a, for_of Discovery.parts_entry (stateParts, ref) stateMap = Ok a) ↔
  Forall (λ sg, Discovery.part_map sg.2 ≠ []) stateMap ∧ agrees ref stateMap.
Proof.
  revert stateParts ref.
  induction stateMap as [|sg sm IH]; intros sp ref.
  - simpl. split; [intros _|by eexists]. split; [done|].
    destruct ref as [[names st]|]; simpl; [done|].
    by intros sg1 sg2 ?%elem_of_nil.
  - cbn [for_of]. unfold Discovery.parts_entry at 1. cbn [fst snd].
    destruct (Discovery.part_map sg.2) as [|pe parts] eqn:Hparts.
    { split; [by intros [a ?]|]. intros [Hne _].
      inversion Hne as [|? ? Hsg _]; subst. by rewrite Hparts in Hsg. }
    rewrite <- Hparts.
    assert (Discovery.part_map sg.2 ≠ []) as Hne0 by by rewrite Hparts.
    destruct ref as [[names st]|]; cbn [bind agrees].
    + case_bool_decide as Hsame; cbn [bind].
      * rewrite IH. cbn [agrees]. rewrite !Forall_cons. tauto.
      * split; [by intros [a ?]|]. intros [_ Hall].
        by inversion Hall.
    + rewrite IH. cbn [agrees]. rewrite !Forall_cons, !Forall_forall.
      split.
      * intros [Hne Hall]. split; [by split|]. intros sg1 sg2 H1 H2.
        apply elem_of_cons in H1 as [->|H1], H2 as [->|H2]; try done.
        -- symmetry. by apply Hall.
        -- by apply Hall.
        -- by rewrite (Hall _ H1), (Hall _ H2).
      * intros [[_ Hne] Hall]. split; [done|]. intros sg' Hin.
        apply Hall; [by right|by left].
Qed.

(** X20. When no part name contains a comma, [discoverParts] returns
    exactly when every state group has at least one named part and all
    state groups have the same set of part names; otherwise it throws. *)
Theorem discoverParts_accepts_equal_part_sets stateMap :
  Forall (λ sg, Forall comma_free (Discovery.data_parts sg.2)) stateMap →
  (∃ stateParts, Discovery.discoverParts stateMap = Ok stateParts) ↔
  Forall (λ sg, named_parts sg.2 ≠ []) stateMap ∧
  ∀ sg1 sg2, sg1 ∈ stateMap → sg2 ∈ stateMap → same_parts sg1.2 sg2.2.
Proof.
  intros Hcommas. unfold Discovery.discoverParts.
  assert ((∃ stateParts,
             bind (for_of Discovery.parts_entry ([], None) stateMap)
                  (λ a, Ok a.1) = Ok stateParts)
          ↔ ∃ a, for_of Discovery.parts_entry ([], None) stateMap = Ok a) as ->.
  { destruct (for_of _ _ _) as [a|e]; simpl; split; intros [? ?];
      try done; by eexists. }
  rewrite parts_loop. cbn [agrees].
  assert (Forall (λ sg, Discovery.part_map sg.2 ≠ []) stateMap
          ↔ Forall (λ sg, named_parts sg.2 ≠ []) stateMap) as Hne.
  { apply Forall_iff. intros sg. by rewrite part_map_empty. }
  rewrite <- Hne. split; intros [Hall Hsame]; (split; [done|]);
    intros sg1 sg2 H1 H2; specialize (Hsame sg1 sg2 H1 H2);
    rewrite Forall_forall in Hall, Hcommas;
    pose proof (part_names_same (Discovery.part_map sg1.2)
                  (Discovery.part_map sg2.2) (Hall _ H1) (Hall _ H2)
                  (proj1 (part_map_keys _)) (proj1 (part_map_keys _))
                  (part_map_comma_free _ (Hcommas _ H1))
                  (part_map_comma_free _ (Hcommas _ H2))) as Hnames.
  - intros p. rewrite <- !(proj2 (part_map_keys _)). by apply Hnames.
  - apply Hnames. intros p. rewrite !(proj2 (part_map_keys _)). apply Hsame.
Qed.

Lemma discoverParts_accepts_equal_part_sets_witness :
  Forall (λ sg, named_parts sg.2 ≠ []) two_poses_map ∧
  ∀ sg1 sg2, sg1 ∈ two_poses_map → sg2 ∈ two_poses_map →
             same_parts sg1.2 sg2.2.
Proof.
  apply (discoverParts_accepts_equal_part_sets two_poses_map).
  - repeat constructor.
  - eexists. by vm_compute.
Defined.

(** The check compares the joined names: with a comma in a part name two
    different sets of part names pass it. *)
Lemma discoverParts_comma_names :
  (∃ stateParts, Discovery.discoverParts comma_poses = Ok stateParts) ∧
  named_parts {| Discovery.group_id := "state_up";
                 Discovery.data_parts := ["arm,head"] |} = ["arm,head"] ∧
  named_parts {| Discovery.group_id := "state_down";
                 Discovery.data_parts := ["arm"; "head"] |} = ["arm"; "head"].
Proof. split; [eexists; by vm_compute|done]. Qed.

(** ** Snapshots *)

Lemma map_set_fresh {A} k (v : A) m :
  k ∉ m.*1 → Discovery.map_set k v m = m ++ [(k, v)].
Proof.
  induction m as [|[k' v'] m IH]; [done|]. rewrite fmap_cons, not_elem_of_cons.
  intros [Hne Hk]. simpl. rewrite bool_decide_eq_false_2 by done.
  by rewrite IH.
Qed.

Lemma foldl_map_set_fresh {A B} (key : B → string) (val : B → A) l m :
  NoDup (m.*1 ++ (key <$> l)) →
  foldl (λ m x, Discovery.map_set (key x) (val x) m) m l
  = m ++ ((λ x, (key x, val x)) <$> l).
Proof.
  revert m. induction l as [|x l IH]; intros m Hnd; simpl.
  - by rewrite app_nil_r.
  - rewrite fmap_cons in Hnd.
    assert (key x ∉ m.*1) as Hx.
    { apply NoDup_app in Hnd as (_ & Hdisj & _). intros Hin.
      apply (Hdisj _ Hin). by left. }
    rewrite (map_set_fresh _ _ _ Hx), IH.
    + by rewrite <- app_assoc.
    + rewrite fmap_app. simpl. by rewrite <- app_assoc.
Qed.

Lemma parts_loop_entries stateMap stateParts ref a :
  NoDup (stateParts.*1 ++ stateMap.*1) →
  for_of Discovery.parts_entry (stateParts, ref) stateMap = Ok a →
  a.1 = stateParts ++ ((λ sg, (sg.1, Discovery.part_map sg.2)) <$> stateMap).
Proof.
  revert stateParts ref. induction stateMap as [|sg sm IH]; intros sp ref Hnd.
  - simpl. intros [= <-]. by rewrite app_nil_r.
  - rewrite fmap_cons in Hnd.
    assert (sg.1 ∉ sp.*1) as Hx.
    { apply NoDup_app in Hnd as (_ & Hdisj & _). intros Hin.
      apply (Hdisj _ Hin). by left. }
    assert (NoDup ((sp ++ [(sg.1, Discovery.part_map sg.2)]).*1 ++ sm.*1))
      as Hnd'.
    { rewrite fmap_app. simpl. by rewrite <- app_assoc. }
    cbn [for_of]. unfold Discovery.parts_entry at 1. cbn [fst snd].
    destruct (Discovery.part_map sg.2) as [|pe parts] eqn:Hparts; [done|].
    rewrite <- Hparts in *. rewrite (map_set_fresh _ _ _ Hx).
    destruct ref as [[names st]|]; cbn [bind].
    + case_bool_decide; [|done]. cbn [bind].
      intros Ha%IH; [|done]. rewrite Ha, fmap_cons, <- app_assoc. done.
    + intros Ha%IH; [|done]. rewrite Ha, fmap_cons, <- app_assoc. done.
Qed.

(** X21. For the states [discoverStates] returns, what [discoverParts]
    returns maps every state, in the same order, to the part map of its
    group, and [buildStateSnapshots] holds for every state one snapshot
    per named part of its group: the snapshots are keyed by exactly the
    discovered states, the set the expansions are checked against. *)
Theorem snapshots_keyed_by_states
    {snapshot} (readSnapshot : string → nat → snapshot)
    stateGroups stateMap stateParts :
  Discovery.discoverStates stateGroups = Ok stateMap →
  Discovery.discoverParts stateMap = Ok stateParts →
  stateParts = (λ sg, (sg.1, Discovery.part_map sg.2)) <$> stateMap ∧
  Discovery.buildStateSnapshots readSnapshot stateParts
  = snapshots_of readSnapshot stateMap ∧
  (Discovery.buildStateSnapshots readSnapshot stateParts).*1 = stateMap.*1.
Proof.
  intros Hstates Hparts.
  destruct (discoverStates_names stateGroups) as [Hsm _].
  destruct (Hsm stateMap Hstates) as (_ & Hnd & _).
  unfold Discovery.discoverParts in Hparts.
  destruct (for_of _ _ stateMap) as [a|e] eqn:Hloop; [|done].
  injection Hparts as <-.
  apply parts_loop_entries in Hloop; [|done]. simpl in Hloop.
  assert (Discovery.buildStateSnapshots readSnapshot a.1
          = snapshots_of readSnapshot stateMap) as Hsnap.
  { unfold Discovery.buildStateSnapshots, snapshots_of.
    rewrite (foldl_map_set_fresh fst
               (λ sp, foldl (λ partSnapshots pe,
                               Discovery.map_set pe.1 (readSnapshot sp.1 pe.2)
                                 partSnapshots) [] sp.2)).
    - rewrite Hloop, <- list_fmap_compose. simpl.
      apply list_fmap_ext. intros _ sg _. simpl. f_equal.
      rewrite (foldl_map_set_fresh fst (λ pe, readSnapshot sg.1 pe.2)); [done|].
      simpl. apply part_map_keys.
    - simpl. rewrite Hloop, <- list_fmap_compose. done. }
  split; [done|]. split; [done|].
  rewrite Hsnap. unfold snapshots_of. by rewrite <- list_fmap_compose.
Qed.

Lemma snapshots_keyed_by_states_witness :
  Discovery.buildStateSnapshots (λ st n, (st, n))
    [("up", [("arm", 0%nat); ("head", 1%nat)]);
     ("down", [("head", 0%nat); ("arm", 2%nat)])]
  = snapshots_of (λ st n, (st, n)) two_poses_map.
Proof.
  refine (proj1 (proj2 (snapshots_keyed_by_states (λ st n, (st, n)) two_poses
                          two_poses_map _ _ _))).
  - by vm_compute.
  - by vm_compute.
Defined.

(** * Further properties of the transform strings *)

(** X22. [buildTransform] returns [null] exactly for components that are
    strictly equal to the identity (0,0,1,1,0); so a component that is
    [NaN] is written out.  The text it returns otherwise is never
    empty, hence always truthy for the caller. *)
Theorem buildTransform_null_at_identity c :
  (buildTransform c = None ↔ at_identity c) ∧
  (∀ s, buildTransform c = Some s → s ≠ []).
Proof.
  unfold buildTransform, translate_part, rotate_part, scale_part, at_identity.
  destruct (strict_eq (translateX c) zero), (strict_eq (translateY c) zero),
    (strict_eq (rotate c) zero), (strict_eq (scaleX c) one),
    (strict_eq (scaleY c) one); cbn [negb orb app];
    (split; [split; [try done|by intros (? & ? & ? & ? & ?)]|]);
    try done; intros s [= <-]; try rewrite join_glue;
    unfold glue, translate_text, rotate_text, scale_text; discriminate.
Qed.

Lemma match_opt_skipped {R} r s caps (k : jsstring → captures → option R) :
  match_re r s caps k = None →
  match_re (Opt r) s caps k = k s (caps ++ replicate (groups r) None).
Proof. intros Hr. cbn [match_re]. by rewrite Hr. Qed.

Lemma exec_scale_single X s :
  numeral X → exec_at scale_re (str "scale(" ++ X ++ str ")" ++ s)
              = Some [Some X; None].
Proof.
  intros HX. unfold exec_at, scale_re, cat. cbn [foldr].
  rewrite match_seq, match_lit, match_seq, match_star_stop by head_not is_space.
  rewrite match_seq. match_group HX.
  rewrite match_seq, match_opt_skipped; [|done].
  cbn [groups foldr Nat.add replicate app].
  rewrite match_seq, match_star_stop by head_not is_space.
  rewrite match_seq, match_lit, match_end. done.
Qed.

(** X23. A scale with a single argument is uniform: [parseTransform]
    reads the text [scale(X)] as the scale [X] on both axes, leaving the
    translation and the rotation at the identity. *)
Theorem single_scale_is_uniform X :
  numeral X →
  parseTransform (Some (str "scale(" ++ X ++ str ")"))
  = {| translateX := zero; translateY := zero;
       scaleX := parseFloat X; scaleY := parseFloat X; rotate := zero |}.
Proof.
  intros HX. rewrite parseTransform_text by discriminate.
  unfold parse_text.
  assert (search translate_re (str "scale(" ++ X ++ str ")") = None) as ->.
  { change (search translate_re (str "scale(" ++ ?t)) with (search translate_re t).
    by rewrite translate_run. }
  assert (search rotate_re (str "scale(" ++ X ++ str ")") = None) as ->.
  { change (search rotate_re (str "scale(" ++ ?t)) with (search rotate_re t).
    by rewrite rotate_run. }
  rewrite <- (app_nil_r (str ")")), (search_found _ _ _ (exec_scale_single X [] HX)).
  done.
Qed.

Lemma single_scale_is_uniform_witness :
  parseTransform (Some (str "scale(2.5)"))
  = {| translateX := zero; translateY := zero;
       scaleX := Fin false [d2] [d5]; scaleY := Fin false [d2] [d5];
       rotate := zero |}.
Proof.
  apply (single_scale_is_uniform (str "2.5")).
  split; [done|]. repeat constructor.
Defined.

(** X24. [parseTransform] does not depend on the order of the transform
    functions in the text: for the translate, rotate and scale groups
    written in any order and joined by spaces, it reads the same
    components, those of the three groups. *)
Theorem parseTransform_ignores_order X Y R SX SY parts :
  numeral X → numeral Y → numeral R → numeral SX → numeral SY →
  parts ≡ₚ [translate_text X Y; rotate_text R; scale_text SX SY] →
  parseTransform (Some (join parts))
  = {| translateX := parseFloat X; translateY := parseFloat Y;
       scaleX := parseFloat SX; scaleY := parseFloat SY;
       rotate := parseFloat R |}.
Proof.
  intros HX HY HR HSX HSY Hp. symmetry in Hp.
  apply permutations_Permutation in Hp. cbn in Hp.
  repeat (apply elem_of_cons in Hp as [->|Hp]); [..|by apply elem_of_nil in Hp];
    (rewrite parseTransform_text by
       (rewrite join_glue; unfold glue, translate_text, rotate_text, scale_text;
        discriminate));
    rewrite join_glue; cbn [glue]; unfold parse_text;
    autorewrite with transform;
    cbn [group mjoin lookup list_lookup Nat.sub parseFloat_of option_join
         translateX translateY scaleX scaleY rotate identity];
    reflexivity.
Qed.

Lemma parseTransform_ignores_order_witness :
  parseTransform (Some (str "scale(2,3) translate(10,20) rotate(45)"))
  = {| translateX := n10; translateY := n20;
       scaleX := n2; scaleY := n3; rotate := n45 |}.
Proof.
  apply (parseTransform_ignores_order (str "10") (str "20") (str "45")
           (str "2") (str "3")
           [scale_text (str "2") (str "3"); translate_text (str "10") (str "20");
            rotate_text (str "45")]);
    try (split; [done|repeat constructor]).
  etrans; [apply Permutation_swap|]. apply Permutation_skip, Permutation_swap.
Defined.

(** * Properties of the color helpers *)

Lemma land_255 i : (Z.land i 255 = i mod 256)%Z.
Proof. change 255%Z with (Z.ones 8). by rewrite Z.land_ones. Qed.

Lemma small_numbers_round :
  forallb (λ n, bool_decide
                  (Colors.clamp_round (Colors.of_Z (Z.of_nat n)) = Some n))
          (seq 0 256) = true.
Proof. by vm_compute. Qed.

Lemma clamp_round_of_nat n :
  (n ≤ 255)%nat → Colors.clamp_round (Colors.of_Z (Z.of_nat n)) = Some n.
Proof.
  intros Hn. pose proof small_numbers_round as Hall.
  rewrite forallb_forall in Hall.
  eapply bool_decide_eq_true_1, Hall, in_seq. lia.
Qed.

Lemma clamp_round_le x k : Colors.clamp_round x = Some k → (k ≤ 255)%nat.
Proof.
  destruct x as [| | |[] ip fp]; unfold Colors.clamp_round;
    try (intros [= <-]; lia).
  destruct (255 <=? nat_of_digits ip)%nat eqn:Hle; intros [= <-]; [lia|].
  apply Nat.leb_gt in Hle.
  destruct fp as [|d fp]; [lia|]. destruct d; simpl; lia.
Qed.

(** X25. The channels [hexToRgb] returns are integers from 0 to 255,
    whatever text it is given, and [rgbToHex] writes exactly these
    values. *)
Theorem hexToRgb_channels_in_range hex c :
  Colors.hexToRgb hex = Some c →
  ∃ x y z : nat,
    (x ≤ 255)%nat ∧ (y ≤ 255)%nat ∧ (z ≤ 255)%nat ∧ c = channels x y z ∧
    Colors.clamp_round (Colors.r c) = Some x ∧
    Colors.clamp_round (Colors.g c) = Some y ∧
    Colors.clamp_round (Colors.b c) = Some z.
Proof.
  unfold Colors.hexToRgb. destruct hex as [h|]; [|done].
  destruct (_ || _); [done|].
  set (num := Colors.parseInt16 _).
  assert (∀ i, ∃ k : nat, (k ≤ 255)%nat ∧ Z.land i 255 = Z.of_nat k) as Hland.
  { intros i. exists (Z.to_nat (Z.land i 255)). rewrite land_255.
    pose proof (Z.mod_pos_bound i 256). lia. }
  destruct (Hland (Z.shiftr (Colors.ToInt32 num) 16)) as (x & Hx & Ex).
  destruct (Hland (Z.shiftr (Colors.ToInt32 num) 8)) as (y & Hy & Ey).
  destruct (Hland (Colors.ToInt32 num)) as (z & Hz & Ez).
  intros Hc. exists x, y, z.
  assert (c = channels x y z) as ->.
  { unfold channels. rewrite <- Ex, <- Ey, <- Ez.
    destruct num; [done|..]; by injection Hc as <-. }
  repeat split; try done; by apply clamp_round_of_nat.
Qed.

Lemma hexToRgb_channels_in_range_witness :
  ∃ x y z : nat,
    (x ≤ 255)%nat ∧ (y ≤ 255)%nat ∧ (z ≤ 255)%nat ∧
    channels 255 254 254 = channels x y z ∧
    Colors.clamp_round (Colors.r (channels 255 254 254)) = Some x ∧
    Colors.clamp_round (Colors.g (channels 255 254 254)) = Some y ∧
    Colors.clamp_round (Colors.b (channels 255 254 254)) = Some z.
Proof.
  apply (hexToRgb_channels_in_range (Some (str "-0x102"))). by vm_compute.
Defined.

(** ** What [rgbToHex] writes is read back *)

Lemma hex_digit_facts n :
  (n < 16)%nat →
  is_space (Colors.hex_digit n) = false ∧
  Colors.hex_digit n ≠ "-"%char ∧ Colors.hex_digit n ≠ "+"%char ∧
  Colors.hex_digit n ≠ "x"%char ∧ Colors.hex_digit n ≠ "X"%char ∧
  Colors.hex_digit n ≠ "#"%char ∧
  Colors.hex_val (Colors.hex_digit n) = Some (Z.of_nat n).
Proof.
  intros Hn. do 16 (destruct n as [|n]; [by repeat split|]). lia.
Qed.

Lemma trim_start_keeps c s :
  is_space c = false → Colors.trim_start (c :: s) = c :: s.
Proof. intros Hc. simpl. by rewrite Hc. Qed.

Lemma trim_keeps c s d :
  is_space c = false → is_space d = false →
  Colors.trim (c :: s ++ [d]) = c :: s ++ [d].
Proof.
  intros Hc Hd. unfold Colors.trim. rewrite trim_start_keeps by done.
  change (c :: s ++ [d]) with ((c :: s) ++ [d]).
  rewrite rev_unit, trim_start_keeps by done.
  cbn [rev]. by rewrite rev_unit, rev_involutive.
Qed.

(** The value of six hex digits fits in 24 bits, which [parseInt] and the
    shifts keep exact. *)
Lemma six_digits_read (d1 d2 d3 d4 d5 d6 : nat) :
  (d1 < 16)%nat → (d2 < 16)%nat → (d3 < 16)%nat →
  (d4 < 16)%nat → (d5 < 16)%nat → (d6 < 16)%nat →
  Colors.hexToRgb
    (Some ["#"%char; Colors.hex_digit d1; Colors.hex_digit d2;
           Colors.hex_digit d3; Colors.hex_digit d4; Colors.hex_digit d5;
           Colors.hex_digit d6])
  = Some (channels (16 * d1 + d2) (16 * d3 + d4) (16 * d5 + d6)).
Proof.
  intros H1 H2 H3 H4 H5 H6.
  destruct (hex_digit_facts d1 H1) as (S1 & M1 & P1 & _ & _ & _ & V1).
  destruct (hex_digit_facts d2 H2) as (_ & _ & _ & X2 & Y2 & _ & V2).
  destruct (hex_digit_facts d3 H3) as (_ & _ & _ & _ & _ & _ & V3).
  destruct (hex_digit_facts d4 H4) as (_ & _ & _ & _ & _ & _ & V4).
  destruct (hex_digit_facts d5 H5) as (_ & _ & _ & _ & _ & _ & V5).
  destruct (hex_digit_facts d6 H6) as (S6 & _ & _ & _ & _ & _ & V6).
  unfold Colors.hexToRgb.
  rewrite (bool_decide_eq_false_2 (_ = [])) by done.
  rewrite (bool_decide_eq_false_2 (_ = str "none")) by (by intros [=]).
  cbn [orb].
  change ("#"%char :: ?a :: ?b :: ?c :: ?d :: ?e :: [?f])
    with ("#"%char :: [a; b; c; d; e] ++ [f]).
  rewrite trim_keeps by done.
  cbn [app Colors.remove_first]. rewrite bool_decide_eq_true_2 by done.
  unfold Colors.parseInt16. rewrite trim_start_keeps by done.
  unfold Colors.strip_sign.
  rewrite (bool_decide_eq_false_2 _ M1), (bool_decide_eq_false_2 _ P1).
  cbn [fst snd]. unfold Colors.strip_0x.
  rewrite (bool_decide_eq_false_2 _ X2), (bool_decide_eq_false_2 _ Y2).
  rewrite andb_false_r. cbn [Colors.take_hex].
  rewrite V1, V2, V3, V4, V5, V6.
  set (v := Colors.hex_value _).
  assert (v = 1048576 * Z.of_nat d1 + 65536 * Z.of_nat d2 + 4096 * Z.of_nat d3
              + 256 * Z.of_nat d4 + 16 * Z.of_nat d5 + Z.of_nat d6)%Z as Hv.
  { unfold v, Colors.hex_value. cbn [foldl]. lia. }
  clearbody v.
  assert (0 ≤ v < 2 ^ 24)%Z as Hrange by lia.
  assert (Colors.to_double v = Colors.PInt v) as ->.
  { unfold Colors.to_double.
    assert (Z.log2 v < 24)%Z.
    { destruct (decide (v = 0%Z)) as [Hz|Hpos]; [by rewrite Hz|].
      apply Z.log2_lt_pow2; lia. }
    by rewrite (proj2 (Z.leb_le _ _)) by lia. }
  unfold Colors.ToInt32. rewrite Z.mod_small by lia.
  rewrite (proj2 (Z.leb_gt _ _)) by lia.
  unfold channels. rewrite !land_255, !Z.shiftr_div_pow2 by lia.
  do 2 f_equal; f_equal; subst v;
    change (2 ^ 16)%Z with 65536%Z; change (2 ^ 8)%Z with 256%Z;
    Z.div_mod_to_equations; lia.
Qed.

(** X26. [hexToRgb] reads back what [rgbToHex] wrote: for channels none
    of which is [NaN], the result holds every channel clamped to the
    range from 0 to 255 and rounded to the nearest integer, halves
    upwards; for integer channels within the range it is the color
    itself. *)
Theorem hexToRgb_reads_rgbToHex c x y z :
  Colors.clamp_round (Colors.r c) = Some x →
  Colors.clamp_round (Colors.g c) = Some y →
  Colors.clamp_round (Colors.b c) = Some z →
  Colors.hexToRgb (Some (Colors.rgbToHex c)) = Some (channels x y z) ∧
  Colors.rgbToHex (channels x y z) = Colors.rgbToHex c.
Proof.
  intros Hx Hy Hz.
  pose proof (clamp_round_le _ _ Hx) as Lx.
  pose proof (clamp_round_le _ _ Hy) as Ly.
  pose proof (clamp_round_le _ _ Hz) as Lz.
  split.
  - unfold Colors.rgbToHex, Colors.toHex. rewrite Hx, Hy, Hz. cbn [app].
    rewrite (six_digits_read (x / 16) (x mod 16) (y / 16) (y mod 16)
               (z / 16) (z mod 16));
      try (apply Nat.Div0.div_lt_upper_bound; lia);
      try (apply Nat.mod_upper_bound; lia).
    by rewrite <- !Nat.div_mod_eq.
  - unfold Colors.rgbToHex, Colors.toHex, channels.
    cbn [Colors.r Colors.g Colors.b].
    by rewrite !clamp_round_of_nat, Hx, Hy, Hz by done.
Qed.

Lemma hexToRgb_reads_rgbToHex_witness :
  Colors.hexToRgb
    (Some (Colors.rgbToHex {| Colors.r := Fin false [d3; d0; d0] [];
                              Colors.g := Fin false [d1; d2; d8] [d5];
                              Colors.b := Fin true [d3] [] |}))
  = Some (channels 255 129 0).
Proof.
  refine (proj1 (hexToRgb_reads_rgbToHex _ 255 129 0 _ _ _)); reflexivity.
Defined.

Lemma hex_char_facts c :
  is_hex c → is_space c = false ∧ c ≠ "#"%char.
Proof.
  unfold is_hex. intros [v Hv].
  destruct c as [[] [] [] [] [] [] [] []]; simpl in Hv; try done.
Qed.

(** X27. The short form of a hex color stands for the long form with
    every digit doubled: [hexToRgb] gives the same for [#xyz] and
    [#xxyyzz]. *)
Theorem short_hex_is_doubled x y z :
  is_hex x → is_hex y → is_hex z →
  Colors.hexToRgb (Some ["#"%char; x; y; z])
  = Colors.hexToRgb (Some ["#"%char; x; x; y; y; z; z]).
Proof.
  intros [_ Hx]%hex_char_facts [_ Hy]%hex_char_facts Hz'.
  destruct (hex_char_facts z Hz') as [Sz Hz].
  unfold Colors.hexToRgb.
  rewrite !(bool_decide_eq_false_2 (_ = [])) by done.
  rewrite !(bool_decide_eq_false_2 (_ = str "none")) by (by intros [=]).
  cbn [orb].
  change ["#"%char; x; y; z] with ("#"%char :: [x; y] ++ [z]).
  change ["#"%char; x; x; y; y; z; z] with ("#"%char :: [x; x; y; y; z] ++ [z]).
  rewrite !trim_keeps by done.
  cbn [app Colors.remove_first]. by rewrite bool_decide_eq_true_2.
Qed.

Lemma short_hex_is_doubled_witness :
  Colors.hexToRgb (Some (str "#Fa0")) = Colors.hexToRgb (Some (str "#FFaa00")).
Proof.
  apply (short_hex_is_doubled "F" "a" "0"); by eexists.
Defined.

(** ** Loops whose iterations have no step *)






(** ** [normalizeColor] on the [rgb(...)] form *)

Lemma nat_of_digits_strip ds :
  nat_of_digits (strip_leading ds) = nat_of_digits ds.
Proof. induction ds as [|d ds IH]; [done|]. by destruct d. Qed.

Lemma nat_of_digits_norm_int ds :
  nat_of_digits (norm_int ds) = nat_of_digits ds.
Proof.
  unfold norm_int. rewrite <- (nat_of_digits_strip ds).
  by destruct (strip_leading ds).
Qed.

Lemma match_star_run {R} p ws s caps
    (k : jsstring → captures → option R) r :
  Forall (λ c, p c = true) ws →
  (∀ c s', s = c :: s' → p c = false) →
  k s caps = Some r → match_re (Star p) (ws ++ s) caps k = Some r.
Proof.
  intros Hws Hs Hk. cbn [match_re]. apply star_run; [done|].
  by rewrite star_stop.
Qed.

Lemma digit_not_space c : Colors.is_digit c = true → is_space c = false.
Proof.
  unfold Colors.is_digit. intros [d Hd]%bool_decide_eq_true.
  destruct c as [[] [] [] [] [] [] [] []]; simpl in Hd; try done.
Qed.

Lemma space_not_digit c : is_space c = true → Colors.is_digit c = false.
Proof.
  intros Hc. destruct (Colors.is_digit c) eqn:Hd; [|done].
  apply digit_not_space in Hd. congruence.
Qed.

(** A gap followed by a character that is no digit does not start with a
    digit. *)
Lemma gap_head_not_digit w a s c s' :
  blank w → Colors.is_digit a = false →
  w ++ a :: s = c :: s' → Colors.is_digit c = false.
Proof.
  intros Hw Ha. destruct w as [|x w]; [by intros [= <- _]|].
  intros [= <- _]. inversion Hw; subst. by apply space_not_digit.
Qed.

Lemma run_head_not_space ds s c s' :
  digit_run ds → ds ++ s = c :: s' → is_space c = false.
Proof.
  intros [Hne Hall]. destruct ds as [|x ds]; [done|].
  intros [= <- _]. inversion Hall; subst. by apply digit_not_space.
Qed.

Lemma exec_rgb p :
  rgb_form p →
  exec_at Colors.rgb_re (rgb_text p)
  = Some [Some (red_digits p); Some (green_digits p); Some (blue_digits p)].
Proof.
  intros (H1 & H2 & H3 & Hgaps & Hruns).
  repeat (apply Forall_cons in Hgaps as [? Hgaps]).
  apply Forall_cons in Hruns as [HR Hruns].
  apply Forall_cons in Hruns as [HG Hruns].
  apply Forall_cons in Hruns as [HB _].
  unfold exec_at, Colors.rgb_re, cat, rgb_text. cbn [foldr app].
  rewrite match_seq, match_class by done.
  rewrite match_seq, match_class by done.
  rewrite match_seq, match_class by done.
  rewrite match_seq. apply match_star_run; [done|by intros ? ? [= <- _]|].
  rewrite match_seq, match_lit.
  rewrite match_seq. apply match_star_run;
    [done|intros ? ?; by apply run_head_not_space|].
  rewrite match_seq. apply match_group_plus; [apply HR|apply HR| |].
  { intros ? ?. by apply gap_head_not_digit. }
  rewrite match_seq. apply match_star_run; [done|by intros ? ? [= <- _]|].
  rewrite match_seq, match_lit.
  rewrite match_seq. apply match_star_run;
    [done|intros ? ?; by apply run_head_not_space|].
  rewrite match_seq. apply match_group_plus; [apply HG|apply HG| |].
  { intros ? ?. by apply gap_head_not_digit. }
  rewrite match_seq. apply match_star_run; [done|by intros ? ? [= <- _]|].
  rewrite match_seq, match_lit.
  rewrite match_seq. apply match_star_run;
    [done|intros ? ?; by apply run_head_not_space|].
  rewrite match_seq. apply match_group_plus; [apply HB|apply HB| |].
  { intros ? ?. by apply gap_head_not_digit. }
  rewrite match_seq. apply match_star_run; [done|by intros ? ? [= <- _]|].
  rewrite match_seq, match_lit, match_end. done.
Qed.

Lemma clamp_round_parseInt10 ds :
  Colors.clamp_round (Colors.parseInt10 (Some ds))
  = Some (decimal ds `min` 255).
Proof.
  unfold Colors.parseInt10, Colors.clamp_round, decimal.
  rewrite nat_of_digits_norm_int.
  destruct (255 <=? _)%nat eqn:Hle.
  - apply Nat.leb_le in Hle. f_equal. lia.
  - apply Nat.leb_gt in Hle. f_equal. lia.
Qed.

Lemma toHex_clamped x k :
  Colors.clamp_round x = Some k →
  Colors.toHex x = Colors.toHex (Colors.of_Z (Z.of_nat k)).
Proof.
  intros Hx. unfold Colors.toHex.
  by rewrite (clamp_round_of_nat k (clamp_round_le _ _ Hx)), Hx.
Qed.

Lemma written_channels_read x y z :
  (x ≤ 255)%nat → (y ≤ 255)%nat → (z ≤ 255)%nat →
  Colors.hexToRgb (Some (Colors.rgbToHex (channels x y z)))
  = Some (channels x y z).
Proof.
  intros Hx Hy Hz. unfold Colors.rgbToHex, Colors.toHex, channels.
  cbn [Colors.r Colors.g Colors.b].
  rewrite !clamp_round_of_nat by done. cbn [app].
  rewrite (six_digits_read (x / 16) (x mod 16) (y / 16) (y mod 16)
             (z / 16) (z mod 16));
    try (apply Nat.Div0.div_lt_upper_bound; lia);
    try (apply Nat.mod_upper_bound; lia).
  by rewrite <- !Nat.div_mod_eq.
Qed.

(** X29. A text that, trimmed, has the form [rgb(r, g, b)] — the letters
    in either case, white space allowed around the parentheses, the
    numbers and the commas, anything after the closing parenthesis — is
    normalized without the canvas to the hex text of its three numbers,
    each cut at 255; [hexToRgb] reads that text as these channels. *)
Theorem normalizeColor_reads_rgb fillStyle v p :
  rgb_form p →
  Colors.trim v = rgb_text p →
  let c := channels (decimal (red_digits p) `min` 255)
                    (decimal (green_digits p) `min` 255)
                    (decimal (blue_digits p) `min` 255) in
  Colors.normalizeColor fillStyle (Some v) = Some (Colors.rgbToHex c) ∧
  Colors.hexToRgb (Some (Colors.rgbToHex c)) = Some c.
Proof.
  intros Hp Hv c. split; [|apply written_channels_read; lia].
  pose proof (exec_rgb p Hp) as Hm.
  destruct Hp as (H1 & _).
  unfold Colors.normalizeColor.
  assert (v ≠ []) as Hne.
  { intros ->. by rewrite (eq_refl : Colors.trim [] = []) in Hv. }
  assert (v ≠ str "none") as Hnone.
  { intros ->. change (Colors.trim (str "none")) with (str "none") in Hv.
    unfold rgb_text in Hv. cbn [app] in Hv. injection Hv as Hn _.
    rewrite <- Hn in H1. by vm_compute in H1. }
  rewrite (bool_decide_eq_false_2 _ Hne), (bool_decide_eq_false_2 _ Hnone).
  cbn [orb]. cbv zeta. rewrite Hv.
  replace (Colors.starts_with "#" (rgb_text p)) with false.
  2:{ unfold rgb_text. cbn [app Colors.starts_with].
      case_bool_decide as Hc; [|done]. rewrite Hc in H1. by vm_compute in H1. }
  rewrite Hm. f_equal. unfold group.
  cbn [lookup list_lookup Nat.sub mjoin option_join].
  unfold Colors.rgbToHex. cbn [Colors.r Colors.g Colors.b]. subst c.
  unfold channels. cbn [Colors.r Colors.g Colors.b].
  by rewrite !(toHex_clamped _ _ (clamp_round_parseInt10 _)).
Qed.

Lemma normalizeColor_reads_rgb_witness :
  Colors.normalizeColor None (Some (str "  rGb( 255 ,0 , 300 ) and more  "))
  = Some (str "#ff00ff") ∧
  Colors.hexToRgb (Some (str "#ff00ff")) = Some (channels 255 0 255).
Proof.
  apply (normalizeColor_reads_rgb None
           (str "  rGb( 255 ,0 , 300 ) and more  ") sample_rgb).
  - unfold rgb_form, blank, digit_run. simpl.
    repeat split; repeat constructor; done.
  - reflexivity.
Defined.

(** ** Listeners *)

Section ListenerFacts.
Import Listeners.

Lemma array_of st ref l : arrays st !! ref = Some l → array st ref = l.
Proof. intros Hl. unfold array. by rewrite Hl. Qed.

Lemma filter_all {A} (p : A → bool) l :
  (∀ x, p x = true) → List.filter p l = l.
Proof.
  intros Hp. induction l as [|x l IH]; [done|].
  cbn [List.filter]. by rewrite Hp, IH.
Qed.

Lemma call_throws body st : (call body st).2 = throws body.
Proof.
  unfold throws. revert st.
  induction body as [|c body IH]; intros st; [done|].
  destruct c; cbn [call].
  - rewrite IH. apply bool_decide_ext. rewrite elem_of_cons.
    split; [by right|by intros [|]].
  - rewrite IH. apply bool_decide_ext. rewrite elem_of_cons.
    split; [by right|by intros [|]].
  - symmetry. apply bool_decide_eq_true_2. by left.
Qed.

Lemma off_facts st event cb :
  arrays_exist st →
  arrays_exist (off st event cb) ∧
  (∀ ref l, arrays st !! ref = Some l → arrays (off st event cb) !! ref = Some l) ∧
  (∀ e, registered (off st event cb) e
        = if bool_decide (e = event)
          then List.filter (λ c, negb (bool_decide (c = cb))) (registered st e)
          else registered st e).
Proof.
  intros Hwf. unfold off.
  destruct (listeners st !! event) as [ref|] eqn:Hev.
  - set (copy := fresh (dom (arrays st))).
    assert (copy ∉ dom (arrays st)) as Hfresh by apply is_fresh.
    split; [|split].
    + intros e r. cbn [listeners arrays]. rewrite dom_insert.
      destruct (decide (e = event)) as [->|Hne].
      * rewrite lookup_insert_eq. intros [= <-]. set_solver.
      * rewrite lookup_insert_ne by done. intros Hr%Hwf. set_solver.
    + intros r l Hr. cbn [arrays]. rewrite lookup_insert_ne; [done|].
      intros <-. apply Hfresh. by apply elem_of_dom.
    + intros e. unfold registered. cbn [listeners].
      case_bool_decide as He.
      * subst e. rewrite lookup_insert_eq, Hev. unfold array at 1.
        cbn [arrays]. by rewrite lookup_insert_eq.
      * rewrite lookup_insert_ne by done.
        destruct (listeners st !! e) as [r|] eqn:Hr; [|done].
        unfold array. cbn [arrays]. rewrite lookup_insert_ne; [done|].
        intros <-. apply Hfresh. by apply (Hwf e).
  - split; [done|]. split; [done|]. intros e. case_bool_decide as He; [|done].
    subst e. unfold registered. by rewrite Hev.
Qed.

Lemma call_removes body st :
  registers body = false → arrays_exist st →
  arrays_exist (call body st).1 ∧
  (∀ ref l, arrays st !! ref = Some l → arrays (call body st).1 !! ref = Some l) ∧
  (∀ e, registered (call body st).1 e
        = List.filter (λ c, negb (bool_decide ((e, c) ∈ removals body)))
            (registered st e)).
Proof.
  revert st. induction body as [|c body IH]; intros st Hreg Hwf.
  - cbn [call fst removals]. split; [done|]. split; [done|].
    intros e. rewrite filter_all; [done|]. intros x.
    by rewrite bool_decide_eq_false_2 by apply not_elem_of_nil.
  - destruct c as [ev cb|ev cb|]; [done| |].
    + cbn [call removals]. cbn [registers existsb orb] in Hreg.
      destruct (off_facts st ev cb Hwf) as (Hwf' & Hkeep & Hoff).
      destruct (IH (off st ev cb) Hreg Hwf') as (Hwf'' & Hkeep' & Hrem).
      split; [done|]. split; [by intros r l Hr%Hkeep%Hkeep'|].
      intros e. rewrite Hrem, Hoff.
      case_bool_decide as He.
      * subst e. induction (registered st ev) as [|x l IHl]; [done|].
        cbn [List.filter].
        destruct (decide (x = cb)) as [->|Hx].
        -- rewrite (bool_decide_eq_true_2 (cb = cb)) by done. cbn [negb].
           rewrite (bool_decide_eq_true_2 (_ ∈ _ :: _)) by (by left).
           cbn [negb]. done.
        -- rewrite (bool_decide_eq_false_2 (x = cb)) by done. cbn [negb].
           cbn [List.filter].
           rewrite (bool_decide_ext ((ev, x) ∈ (ev, cb) :: removals body)
                      ((ev, x) ∈ removals body)).
           2:{ rewrite elem_of_cons. split; [intros [[=]|]; done|by right]. }
           destruct (bool_decide _); cbn [negb]; by rewrite IHl.
      * apply filter_ext. intros x.
        f_equal. apply bool_decide_ext. rewrite elem_of_cons.
        split; [by right|intros [[=]|]; done].
    + cbn [call fst removals]. split; [done|]. split; [done|].
      intros e. rewrite filter_all; [done|]. intros x.
      by rewrite bool_decide_eq_false_2 by apply not_elem_of_nil.
Qed.

Lemma filter_twice {A} (p q : A → bool) l :
  List.filter q (List.filter p l) = List.filter (λ x, p x && q x) l.
Proof.
  induction l as [|x l IH]; [done|]. cbn [List.filter].
  destruct (p x); cbn [List.filter andb]; [|done].
  destruct (q x); by rewrite IH.
Qed.

Lemma deliver_S body fuel ref idx st :
  deliver body (S fuel) ref idx st
  = match array st ref !! idx with
    | None => Some {| final := st; called := []; logged := [] |}
    | Some cb =>
        match deliver body fuel ref (S idx) (call (body cb) st).1 with
        | Some d =>
            Some {| final := final d; called := cb :: called d;
                    logged := if (call (body cb) st).2 then cb :: logged d
                              else logged d |}
        | None => None
        end
    end.
Proof. done. Qed.

Lemma on_pushes st event ref l cb :
  listeners st !! event = Some ref → arrays st !! ref = Some l →
  listeners (on st event cb) !! event = Some ref ∧
  arrays (on st event cb) !! ref = Some (l ++ [cb]).
Proof.
  intros Hev Hl. unfold on. rewrite Hev. split; [done|].
  cbn [arrays]. by rewrite lookup_insert_eq, (array_of st ref l Hl).
Qed.

(** The loop over an array whose callbacks register nothing: the array is
    never written, so the loop calls what it holds. *)
Lemma deliver_removals body ref l rest :
  Forall (λ cb, registers (body cb) = false) rest →
  ∀ fuel idx st,
    arrays_exist st → arrays st !! ref = Some l → drop idx l = rest →
    (length rest < fuel)%nat →
    ∃ d, deliver body fuel ref idx st = Some d ∧
         called d = rest ∧
         logged d = List.filter (λ cb, throws (body cb)) rest ∧
         ∀ e, registered (final d) e
              = List.filter
                  (λ c, negb (bool_decide
                                ((e, c) ∈ rest ≫= (λ cb, removals (body cb)))))
                  (registered st e).
Proof.
  induction 1 as [|cb rest Hcb Hrest IH]; intros fuel idx st Hwf Hl Hdrop Hfuel.
  - destruct fuel as [|fuel]; [simpl in Hfuel; lia|]. cbn [deliver].
    rewrite (array_of st ref l Hl), (proj2 (lookup_ge_None l idx)).
    2:{ apply (f_equal length) in Hdrop. rewrite length_drop in Hdrop.
        simpl in Hdrop. lia. }
    eexists. split; [done|]. cbn [called logged final]. split; [done|].
    split; [done|]. intros e.
    rewrite filter_all; [done|]. intros x. cbn [mbind list_bind].
    by rewrite bool_decide_eq_false_2 by apply not_elem_of_nil.
  - destruct fuel as [|fuel]; [simpl in Hfuel; lia|]. cbn [deliver].
    assert (l !! idx = Some cb ∧ drop (S idx) l = rest) as [Hidx Hdrop'].
    { clear -Hdrop. revert idx Hdrop.
      induction l as [|x l IHl]; intros idx Hdrop.
      - by rewrite drop_nil in Hdrop.
      - destruct idx as [|idx]; [by injection Hdrop as -> ->|].
        cbn [drop] in Hdrop. by apply IHl. }
    rewrite (array_of st ref l Hl), Hidx. cbv zeta.
    destruct (call_removes (body cb) st Hcb Hwf) as (Hwf' & Hkeep & Hrem).
    destruct (IH fuel (S idx) (call (body cb) st).1 Hwf' (Hkeep _ _ Hl) Hdrop')
      as (d & -> & Hc & Hlog & Hreg); [simpl in Hfuel; lia|].
    eexists. split; [done|]. cbn [called logged final].
    split; [by rewrite Hc|]. split.
    + rewrite call_throws. cbn [List.filter].
      destruct (throws (body cb)); by rewrite Hlog.
    + intros e. rewrite Hreg, Hrem, filter_twice. apply filter_ext. intros x.
      cbn [mbind list_bind]. change (list_bind _ _ ?f rest) with (rest ≫= f).
      rewrite <- negb_orb. f_equal.
      rewrite (bool_decide_ext (_ ∈ _ ++ _) _ (elem_of_app _ _ _)).
      by rewrite bool_decide_or.
Qed.

(** The loop over an array of copies of a callback that registers itself
    for the event: every call makes the array longer. *)
Lemma deliver_self_registering body event ref cb :
  body cb = [On event cb] →
  ∀ fuel idx st l,
    listeners st !! event = Some ref → arrays st !! ref = Some l →
    Forall (λ c, c = cb) l → (idx < length l)%nat →
    deliver body fuel ref idx st = None.
Proof.
  intros Hbody. induction fuel as [|fuel IH]; intros idx st l Hev Hl Hall Hidx;
    [done|].
  cbn [deliver]. rewrite (array_of st ref l Hl).
  destruct (lookup_lt_is_Some_2 l idx Hidx) as [c Hc]. rewrite Hc.
  assert (c = cb) as ->.
  { rewrite Forall_forall in Hall. apply Hall. by eapply list_elem_of_lookup_2. }
  rewrite Hbody. cbn [call fst]. unfold on at 1. rewrite Hev.
  rewrite (IH (S idx) _ (l ++ [cb])); [done| | | |].
  - done.
  - cbn [arrays]. by rewrite lookup_insert_eq, (array_of st ref l Hl).
  - apply Forall_app. split; [done|]. by constructor.
  - rewrite length_app. simpl. lia.
Qed.

End ListenerFacts.

(** X30. [_emit] iterates the array that is registered for the event when
    the delivery starts, and reads it anew at every step.  [off] installs
    a filtered copy, so when the callbacks register nothing the delivery
    calls every callback that was registered at its start, in order, also
    those removed meanwhile and those after one that threw, and the
    removals show afterwards.  [on] pushes into the array itself, so a
    callback registered meanwhile for the same event is called in the same
    delivery, and with a callback that registers itself the delivery
    never ends. *)
Theorem delivery_iterates_the_live_array body st event ref l :
  arrays_exist st →
  Listeners.listeners st !! event = Some ref →
  Listeners.arrays st !! ref = Some l →
  (Forall (λ cb, registers (body cb) = false) l →
   ∀ fuel, (length l < fuel)%nat →
     ∃ d, Listeners._emit body fuel st event = Some d ∧
          Listeners.called d = l ∧
          Listeners.logged d = List.filter (λ cb, throws (body cb)) l ∧
          ∀ e, registered (Listeners.final d) e
               = List.filter
                   (λ c, negb (bool_decide
                                 ((e, c) ∈ l ≫= (λ cb, removals (body cb)))))
                   (registered st e)) ∧
  (∀ cb new, l = [cb] → body cb = [Listeners.On event new] → body new = [] →
   ∀ fuel, (2 < fuel)%nat →
     ∃ d, Listeners._emit body fuel st event = Some d ∧
          Listeners.called d = [cb; new] ∧
          registered (Listeners.final d) event = [cb; new]) ∧
  (∀ cb, l = [cb] → body cb = [Listeners.On event cb] →
   ∀ fuel, Listeners._emit body fuel st event = None).
Proof.
  intros Hwf Hev Hl. unfold Listeners._emit. rewrite Hev.
  split; [|split].
  - intros Hquiet fuel Hfuel.
    by apply (deliver_removals body ref l l Hquiet fuel 0%nat st).
  - intros cb new -> Hcb Hnew fuel Hfuel.
    destruct fuel as [|[|[|fuel]]]; [lia..|].
    destruct (on_pushes st event ref [cb] new Hev Hl) as [Hev' Hl'].
    rewrite deliver_S, (array_of st ref [cb] Hl).
    cbn [lookup list_lookup]. rewrite Hcb. cbn [Listeners.call fst snd].
    rewrite deliver_S, (array_of _ ref _ Hl').
    cbn [app lookup list_lookup]. rewrite Hnew. cbn [Listeners.call fst snd].
    rewrite deliver_S, (array_of _ ref _ Hl').
    cbn [app lookup list_lookup].
    eexists. split; [done|]. cbn [Listeners.called Listeners.final].
    split; [done|]. unfold registered.
    by rewrite Hev', (array_of _ ref _ Hl').
  - intros cb -> Hcb fuel.
    apply (deliver_self_registering body event ref cb Hcb fuel 0%nat st [cb]);
      [done|done|by constructor|simpl; lia].
Qed.

Lemma delivery_iterates_the_live_array_witness :
  ∃ d, Listeners._emit sample_body 3 sample_store "actionEnd" = Some d ∧
       Listeners.called d = [1; 2]%nat ∧
       Listeners.logged d = [1]%nat ∧
       registered (Listeners.final d) "actionEnd" = [1]%nat.
Proof.
  destruct (delivery_iterates_the_live_array sample_body sample_store
              "actionEnd" 2%nat [1; 2]%nat) as [Hquiet _].
  - intros e r. unfold sample_store.
    intros Hr. apply elem_of_dom. vm_compute in Hr. vm_compute.
    repeat (case_match; simplify_eq; eauto).
  - by vm_compute.
  - by vm_compute.
  - destruct (Hquiet ltac:(by repeat constructor) 3%nat ltac:(simpl; lia))
      as (d & Hd & Hc & Hlog & Hreg).
    exists d. split; [done|]. split; [done|]. split; [done|].
    rewrite Hreg. by vm_compute.
Defined.
